(** * A shallow embedding of [regex.py]: the regex state graph, its
    construction and its traversal

    The Python program builds a graph of mutable [State] objects and walks
    it.  Objects are shared by reference (one [StartState] serves every
    [RegexFSM], a [PlusState] keeps a flag between calls), so the embedding
    is an explicit store: a heap of state objects addressed by index, an
    arena of [RegexFSM] instances, and a small state-and-exception monad
    over both.  Every method of the source is one definition here, named
    after it.

    The file has four parts: the program; the notions its properties are
    stated with; the lemmas; and one theorem for each claim about the
    program. *)

From Stdlib Require Import NArith String Ascii Lia.
From stdpp Require Import base list.

Local Open Scope N_scope.
Local Open Scope nat_scope.

(** ** Characters and strings *)

(** A Python [str] is a sequence of code points. *)
Definition char := N.

(** Rocq string literals, read as Python strings. *)
Definition str (s : string) : list char :=
  map N_of_ascii (list_ascii_of_string s).

Definition chr (a : ascii) : char := N_of_ascii a.

Definition DOT : char := chr ".".
Definition STAR : char := chr "*".
Definition PLUS : char := chr "+".

(** [char in '*+'] for a one-character [char]. *)
Definition in_star_plus (c : char) : bool := N.eqb c STAR || N.eqb c PLUS.

(** [str.isascii] on a one-character string. *)
Definition isascii (c : char) : bool := N.ltb c 128.

(** [==] on strings. *)
Fixpoint str_eqb (a b : list char) : bool :=
  match a, b with
  | [], [] => true
  | x :: a', y :: b' => N.eqb x y && str_eqb a' b'
  | _, _ => false
  end.

(** ** Objects *)

(** An object is named by its index in the heap. *)
Abbreviation addr := nat (only parsing).

(** The concrete class of a [State] object with the attributes that only
    this class has. *)
Inductive node :=
| StartState
| TerminationState
| DotState
| AsciiState (curr_sym : char)
| StarState (checking_state prev_state : addr)
| PlusState (checking_state loop_state : addr) (minimum_check : bool).

(** [is_end] is absent ([None]) on an object whose constructor does not set
    it: [StartState.__init__] does not.  [next_states] of the one
    [StartState] object is the class-level list [StartState.next_states]. *)
Record obj := Obj {
  kind : node;
  is_end : option bool;
  next_states : list addr
}.

(** The state of the Python process: the [State] objects, and for every
    [RegexFSM] instance its instance attribute [curr_state] ([None] until
    the first assignment; reading it then yields the class attribute). *)
Record world := World {
  heap : list obj;
  fsms : list (option addr)
}.

(** [RegexFSM.curr_state : State = StartState()], evaluated once when the
    class body runs. *)
Definition START : addr := 0.

(** The process after the module is loaded. *)
Definition initial : world :=
  World [Obj StartState None []] [].

(** ** Computations *)

Inductive exn :=
| AttributeError (msg : string)
| IndexError.

(** [OutOfFuel]: the fuel given to a loop or to the call depth ran out.
    [Stuck]: a reference to no object, or an attribute read on the wrong
    class behind an [isinstance] guard; Python cannot reach it. *)
Inductive outcome (A : Type) :=
| Ret (a : A)
| Raise (e : exn)
| OutOfFuel
| Stuck.
Arguments Ret {A} a.
Arguments Raise {A} e.
Arguments OutOfFuel {A}.
Arguments Stuck {A}.

Definition M (A : Type) : Type := world -> outcome A * world.

Definition ret {A} (a : A) : M A := fun w => (Ret a, w).

(** Sequencing: an exception, an exhausted fuel or a stuck step ends the
    computation; the store it leaves is kept. *)
Definition bind {A B} (m : M A) (f : A -> M B) : M B := fun w =>
  match m w with
  | (Ret a, w') => f a w'
  | (Raise e, w') => (Raise e, w')
  | (OutOfFuel, w') => (OutOfFuel, w')
  | (Stuck, w') => (Stuck, w')
  end.

Declare Scope M_scope.
Delimit Scope M_scope with M.
Bind Scope M_scope with M.
Notation "x ← y ; z" := (bind y (fun x => z))
  (at level 20, y at level 100, z at level 200, only parsing) : M_scope.
Notation "x ;; z" := (bind x (fun _ => z))
  (at level 100, z at level 200, only parsing, right associativity) : M_scope.
Local Open Scope M_scope.

Definition raise {A} (e : exn) : M A := fun w => (Raise e, w).
Definition out_of_fuel {A} : M A := fun w => (OutOfFuel, w).
Definition stuck {A} : M A := fun w => (Stuck, w).

Definition get_obj (a : addr) : M obj := fun w =>
  match heap w !! a with
  | Some o => (Ret o, w)
  | None => (Stuck, w)
  end.

Definition put_obj (a : addr) (o : obj) : M unit := fun w =>
  (Ret tt, World (<[a := o]> (heap w)) (fsms w)).

(** Object creation; the constructor receives the new object's address. *)
Definition alloc (mk : addr -> obj) : M addr := fun w =>
  let a := length (heap w) in
  (Ret a, World (heap w ++ [mk a]) (fsms w)).

(** *** Attribute access *)

Definition get_kind (a : addr) : M node := o ← get_obj a; ret (kind o).

Definition get_next_states (a : addr) : M (list addr) :=
  o ← get_obj a; ret (next_states o).

(** [a.next_states.append(x)] *)
Definition append_next_states (a x : addr) : M unit :=
  o ← get_obj a; put_obj a (Obj (kind o) (is_end o) (next_states o ++ [x])).

(** [a.is_end] *)
Definition get_is_end (a : addr) : M bool :=
  o ← get_obj a;
  match is_end o with
  | Some b => ret b
  | None => raise (AttributeError "is_end")
  end.

(** [a.is_end = b] *)
Definition set_is_end (a : addr) (b : bool) : M unit :=
  o ← get_obj a; put_obj a (Obj (kind o) (Some b) (next_states o)).

(** [a.curr_sym] *)
Definition get_curr_sym (a : addr) : M char :=
  k ← get_kind a;
  match k with
  | AsciiState s => ret s
  | _ => raise (AttributeError "curr_sym")
  end.

(** [a.minimum_check = b], on a [PlusState] *)
Definition set_minimum_check (a : addr) (b : bool) : M unit :=
  o ← get_obj a;
  match kind o with
  | PlusState ck lp _ => put_obj a (Obj (PlusState ck lp b) (is_end o) (next_states o))
  | _ => stuck
  end.

(** [a.minimum_check], on a [PlusState] *)
Definition get_minimum_check (a : addr) : M bool :=
  k ← get_kind a;
  match k with
  | PlusState _ _ mc => ret mc
  | _ => stuck
  end.

Definition is_StarState (k : node) : bool :=
  match k with StarState _ _ => true | _ => false end.

Definition is_DotState (k : node) : bool :=
  match k with DotState => true | _ => false end.

(** [isinstance(a, StarState)] *)
Definition isinstance_StarState (a : addr) : M bool :=
  k ← get_kind a; ret (is_StarState k).

(** *** Constructors *)

(** [TerminationState()]: [is_end = False], [next_states = [self]]. *)
Definition new_TerminationState : M addr :=
  alloc (fun self => Obj TerminationState (Some false) [self]).

Definition new_DotState : M addr :=
  alloc (fun _ => Obj DotState (Some false) []).

Definition new_AsciiState (symbol : char) : M addr :=
  alloc (fun _ => Obj (AsciiState symbol) (Some false) []).

Definition new_StarState (checking_state prev_state : addr) : M addr :=
  alloc (fun _ => Obj (StarState checking_state prev_state) (Some false) []).

(** [PlusState.__init__] also builds
    [self.loop_state = StarState(checking_state, checking_state)]. *)
Definition new_PlusState (checking_state : addr) : M addr :=
  self ← alloc (fun self =>
            Obj (PlusState checking_state (S self) false) (Some false) []);
  new_StarState checking_state checking_state;;
  ret self.

(** *** [for state in l: ... return ...] *)

(** The body answers [Some v] when it executes [return v] and [None] when
    the iteration ends or continues; [orelse] is the code after the loop.
    The list is the one read when the loop starts; no loop of the source
    changes the list it walks. *)
Fixpoint for_return {A} (l : list addr) (body : addr -> M (option A))
    (orelse : M A) : M A :=
  match l with
  | [] => orelse
  | state :: l' =>
      r ← body state;
      match r with
      | Some v => ret v
      | None => for_return l' body orelse
      end
  end.

(** Truth value of an object of a [State] class: no class defines
    [__bool__] or [__len__], so every such object is true.  The same holds
    for a bound method. *)
Definition truthy (_ : addr) : bool := true.

(** ** The [State] classes *)

(** The methods call each other through references held in the heap, so
    each one is written over the dispatching [check_self] and [check_next]
    it calls, and the two dispatchers are closed by recursion on the call
    depth below.  [print] in [AsciiState.check_self] writes to the console
    only and is left out. *)
Section Methods.
Variable check_self : addr -> char -> M bool.
Variable check_next : addr -> char -> M addr.

(** [State.check_self] is [pass]: it returns [None], which every caller
    only tests for truth. *)
Definition StartState_check_self (self : addr) (c : char) : M bool :=
  ret false.

Definition TerminationState_check_self (self : addr) (c : char) : M bool :=
  ret true.

Definition DotState_check_self (self : addr) (c : char) : M bool :=
  ret true.

Definition AsciiState_check_self (curr_sym : char) (self : addr)
    (curr_char : char) : M bool :=
  ret (N.eqb curr_char curr_sym).

Definition StarState_check_self (checking_state : addr) (self : addr)
    (c : char) : M bool :=
  check_self checking_state c.

(** [cur_check.check_self] is a bound method, so the result is
    [self.minimum_check] as it stands after the update. *)
Definition PlusState_check_self (checking_state loop_state : addr)
    (minimum_check : bool) (self : addr) (c : char) : M bool :=
  let cur_check := if negb minimum_check then checking_state else loop_state in
  b ← check_self checking_state c;
  (if b then set_minimum_check self true else ret tt);;
  mc ← get_minimum_check self;
  ret (truthy cur_check && mc).

(** [StartState.check_next] and [TerminationState.check_next] have the
    same body. *)
Definition StartState_check_next (self : addr) (next_char : char) : M addr :=
  l ← get_next_states self;
  for_return l
    (fun state =>
       b ← check_self state next_char;
       ret (if b then Some state else None))
    new_TerminationState.

Definition TerminationState_check_next (self : addr) (next_char : char)
    : M addr :=
  l ← get_next_states self;
  for_return l
    (fun state =>
       b ← check_self state next_char;
       ret (if b then Some state else None))
    new_TerminationState.

Definition DotState_check_next (self : addr) (next_char : char) : M addr :=
  l ← get_next_states self;
  for_return l
    (fun state =>
       b ← check_self state next_char;
       if b then ret (Some state)
       else
         st ← isinstance_StarState state;
         if st then r ← check_next state next_char; ret (Some r)
         else ret None)
    new_TerminationState.

Definition AsciiState_check_next (self : addr) (next_char : char) : M addr :=
  l ← get_next_states self;
  for_return l
    (fun state =>
       st ← isinstance_StarState state;
       if st then r ← check_next state next_char; ret (Some r)
       else
         b ← check_self state next_char;
         ret (if b then Some state else None))
    new_TerminationState.

(** [if state.check_next(next_char): return state] tests the returned
    object for truth. *)
Definition StarState_check_next (checking_state : addr) (self : addr)
    (next_char : char) : M addr :=
  b ← check_self checking_state next_char;
  if b then ret self
  else
    l ← get_next_states self;
    for_return l
      (fun state =>
         st ← isinstance_StarState state;
         if st then ret None
         else
           r ← check_next state next_char;
           ret (if truthy r then Some state else None))
      new_TerminationState.

Definition PlusState_check_next (checking_state : addr) (self : addr)
    (next_char : char) : M addr :=
  b ← check_self checking_state next_char;
  if b then ret self
  else
    mc ← get_minimum_check self;
    if mc then
      l ← get_next_states self;
      for_return l
        (fun state =>
           st ← isinstance_StarState state;
           if st then r ← check_next state next_char; ret (Some r)
           else
             r ← check_next state next_char;
             ret (if truthy r then Some state else None))
        new_TerminationState
    else new_TerminationState.
End Methods.

(** Dynamic dispatch of [state.check_self(char)]; [depth] bounds the
    nesting of calls. *)
Fixpoint check_self (depth : nat) (self : addr) (c : char) : M bool :=
  match depth with
  | 0 => out_of_fuel
  | S d =>
      k ← get_kind self;
      match k with
      | StartState => StartState_check_self self c
      | TerminationState => TerminationState_check_self self c
      | DotState => DotState_check_self self c
      | AsciiState s => AsciiState_check_self s self c
      | StarState ck _ => StarState_check_self (check_self d) ck self c
      | PlusState ck lp mc => PlusState_check_self (check_self d) ck lp mc self c
      end
  end.

(** Dynamic dispatch of [state.check_next(next_char)]. *)
Fixpoint check_next (depth : nat) (self : addr) (c : char) : M addr :=
  match depth with
  | 0 => out_of_fuel
  | S d =>
      k ← get_kind self;
      match k with
      | StartState => StartState_check_next (check_self d) self c
      | TerminationState => TerminationState_check_next (check_self d) self c
      | DotState => DotState_check_next (check_self d) (check_next d) self c
      | AsciiState _ => AsciiState_check_next (check_self d) (check_next d) self c
      | StarState ck _ => StarState_check_next (check_self d) (check_next d) ck self c
      | PlusState ck _ _ => PlusState_check_next (check_self d) (check_next d) ck self c
      end
  end.

(** ** [RegexFSM] *)

(** A [RegexFSM] instance is its index in [fsms]. *)
Abbreviation fsm := nat (only parsing).

(** [RegexFSM(...)] first creates the instance, with no attribute of its
    own. *)
Definition new_instance : M fsm := fun w =>
  (Ret (length (fsms w)), World (heap w) (fsms w ++ [None])).

(** [self.curr_state]: the instance attribute, and the class attribute
    while there is none. *)
Definition get_curr_state (self : fsm) : M addr := fun w =>
  match fsms w !! self with
  | Some (Some a) => (Ret a, w)
  | Some None => (Ret START, w)
  | None => (Stuck, w)
  end.

(** [self.curr_state = a] *)
Definition set_curr_state (self : fsm) (a : addr) : M unit := fun w =>
  (Ret tt, World (heap w) (<[self := Some a]> (fsms w))).

Module RegexFSM.

(** [__init_next_state]: the cases are tried in the order of the
    [match] statement. *)
Definition __init_next_state (next_token : char)
    (prev_state tmp_next_state : addr) : M addr :=
  if N.eqb next_token DOT then new_DotState
  else if N.eqb next_token STAR then new_StarState tmp_next_state prev_state
  else if N.eqb next_token PLUS then new_PlusState tmp_next_state
  else if isascii next_token then new_AsciiState next_token
  else raise (AttributeError "Character is not supported").

(** The loop [for i, char in enumerate(regex_expr)] of [__init__].  The
    argument is the pattern from index [i] on, so [regex_expr[i + 1]]
    is the head of [rest] and [i + 1 < len(regex_expr)] says that
    [rest] is not empty.  The result is the list [states]. *)
Fixpoint build (regex_expr : list char) (prev_state tmp_next_state : addr)
    (states : list addr) : M (list addr) :=
  match regex_expr with
  | [] => ret states
  | char :: rest =>
      if in_star_plus char then
        build rest prev_state tmp_next_state states
      else
        tmp_next_state ← __init_next_state char prev_state tmp_next_state;
        tmp_next_state ←
          match rest with
          | q :: _ =>
              if in_star_plus q
              then __init_next_state q prev_state tmp_next_state
              else ret tmp_next_state
          | [] => ret tmp_next_state
          end;
        append_next_states prev_state tmp_next_state;;
        k ← get_kind prev_state;
        match k with
        | StarState _ pp => append_next_states pp tmp_next_state
        | _ => ret tt
        end;;
        build rest tmp_next_state tmp_next_state (states ++ [tmp_next_state])
  end.

(** [for state in reversed(states)], applied to the reversed list; the
    result is [end_exists]. *)
Fixpoint mark_end (rev_states : list addr) : M bool :=
  match rev_states with
  | [] => ret false
  | state :: rest =>
      st ← isinstance_StarState state;
      if st then set_is_end state true;; mark_end rest
      else set_is_end state true;; ret true
  end.

Definition __init__ (self : fsm) (regex_expr : list char) : M unit :=
  prev_state ← get_curr_state self;
  tmp_next_state ← get_curr_state self;
  curr ← get_curr_state self;
  states ← build regex_expr prev_state tmp_next_state [curr];
  end_exists ← mark_end (rev states);
  if negb end_exists then
    match last states with
    | Some a => set_is_end a true
    | None => raise IndexError
    end
  else ret tt.

(** [RegexFSM(regex_expr)] *)
Definition new (regex_expr : list char) : M fsm :=
  self ← new_instance;
  __init__ self regex_expr;;
  ret self.

(** The [for state in cur_next.next_states] loop inside [while True];
    [l] is the list it walks, and the result is [cur_next] and
    [exit_phrase] when it ends or breaks. *)
Fixpoint collect (l : list addr) (cur_next : addr) (exit_phrase : list char)
    : M (addr * list char) :=
  match l with
  | [] => ret (cur_next, exit_phrase)
  | state :: l' =>
      k ← get_kind state;
      let '(cur_next, exit_phrase) :=
        match k with
        | AsciiState s => (state, exit_phrase ++ [s])
        | _ => (cur_next, exit_phrase)
        end in
      nx ← get_next_states cur_next;
      match nx with
      | [] => ret (cur_next, exit_phrase)
      | _ :: _ => collect l' cur_next exit_phrase
      end
  end.

(** [while True: ...]; every turn costs one unit of fuel. *)
Fixpoint while_true (fuel : nat) (cur_next : addr) (exit_phrase : list char)
    : M (list char) :=
  match fuel with
  | 0 => out_of_fuel
  | S f =>
      l ← get_next_states cur_next;
      r ← collect l cur_next exit_phrase;
      let '(cur_next, exit_phrase) := r in
      nx ← get_next_states cur_next;
      match nx with
      | [] => ret exit_phrase
      | _ :: _ => while_true f cur_next exit_phrase
      end
  end.

(** [isinstance(self.curr_state, (StarState, PlusState)) and
    isinstance(self.curr_state.checking_state, DotState)] *)
Definition on_wildcard_loop (curr : addr) : M bool :=
  k ← get_kind curr;
  match k with
  | StarState ck _ | PlusState ck _ _ =>
      kc ← get_kind ck; ret (is_DotState kc)
  | _ => ret false
  end.

(** One turn of [for i, c in enumerate(reg_string)]; [suffix] is
    [reg_string[i:]], so [reg_string[i: i + 1 + len(exit_phrase)]] is
    its first [1 + len(exit_phrase)] characters. *)
Definition step (fuel : nat) (self : fsm) (c : char) (suffix : list char)
    : M unit :=
  curr ← get_curr_state self;
  wl ← on_wildcard_loop curr;
  if wl then
    nx ← get_next_states curr;
    match nx with
    | [] => raise IndexError
    | cur_next :: _ =>
        s ← get_curr_sym cur_next;
        exit_phrase ← while_true fuel cur_next [s];
        if str_eqb (take (1 + length exit_phrase) suffix) exit_phrase then
          curr ← get_curr_state self;
          nx ← get_next_states curr;
          match nx with
          | [] => raise IndexError
          | n0 :: _ => set_curr_state self n0
          end
        else ret tt
    end
  else
    curr ← get_curr_state self;
    r ← check_next fuel curr c;
    set_curr_state self r.

Fixpoint run (fuel : nat) (self : fsm) (reg_string : list char) : M unit :=
  match reg_string with
  | [] => ret tt
  | c :: rest => step fuel self c reg_string;; run fuel self rest
  end.

(** [fuel] bounds the turns of each [while True] loop and the depth of
    each chain of [check_next] and [check_self] calls. *)
Definition check_string (fuel : nat) (self : fsm) (reg_string : list char)
    : M bool :=
  start_state_ref ← get_curr_state self;
  run fuel self reg_string;;
  curr ← get_curr_state self;
  result ← get_is_end curr;
  set_curr_state self start_state_ref;;
  ret result.

End RegexFSM.

(** The result of a computation, and the store it leaves. *)
Definition result_of {A} (m : M A) (w : world) : outcome A := fst (m w).
Definition world_after {A} (m : M A) (w : world) : world := snd (m w).

(** ** Programs *)

(** Compile a pattern and match one string against it. *)
Definition compile_and_check (fuel : nat) (pattern reg_string : list char)
    : M bool :=
  regex_compiled ← RegexFSM.new pattern;
  RegexFSM.check_string fuel regex_compiled reg_string.

(** The [__main__] block, with the three printed values as its result. *)
Definition main (fuel : nat) : M (bool * bool * bool) :=
  regex_compiled ← RegexFSM.new (str "a*4.+hi");
  r1 ← RegexFSM.check_string fuel regex_compiled (str "4uhi");
  r2 ← RegexFSM.check_string fuel regex_compiled (str "aaaaaa4uhi");
  r3 ← RegexFSM.check_string fuel regex_compiled (str "meow");
  ret (r1, r2, r3).

(** * Notions used in the statements *)

(** ** Fuel

    A computation that ends with some fuel ends in the same way with
    more.  [refines m m'] says that [m'] does what [m] does wherever [m]
    does not run out of fuel. *)

Definition le_out {A} (x y : outcome A * world) : Prop :=
  fst x = OutOfFuel \/ x = y.

Definition refines {A} (m m' : M A) : Prop := forall w, le_out (m w) (m' w).

(** ** An invariant of the heap

    [TerminationState] objects keep the attributes their constructor
    gives them, and the objects that construction writes to (the start
    object, the nodes of a chain, the [prev_state] of a [StarState]) are
    never [TerminationState] objects. *)

(** An object of the heap that is no [TerminationState]. *)
Definition not_sink (h : list obj) (a : addr) : Prop :=
  exists o, h !! a = Some o /\ kind o <> TerminationState.

(** A [TerminationState] object is as its constructor made it, and the
    [prev_state] of a [StarState] is no [TerminationState]. *)
Definition obj_ok (h : list obj) (a : addr) (o : obj) : Prop :=
  match kind o with
  | TerminationState => is_end o = Some false /\ next_states o = [a]
  | StarState _ pv => not_sink h pv
  | _ => True
  end.

(** The invariant: the start object is there, and every object is as
    [obj_ok] says. *)
Definition inv (h : list obj) : Prop :=
  not_sink h START /\ forall a o, h !! a = Some o -> obj_ok h a o.

(** The heap only grows, and no object becomes a [TerminationState]. *)
Definition ext (h h' : list obj) : Prop :=
  forall a, not_sink h a -> not_sink h' a.

(** A computation that keeps the invariant from every state. *)
Definition preserves {A} (m : M A) : Prop :=
  forall w, inv (heap w) ->
    inv (heap (snd (m w))) /\ ext (heap w) (heap (snd (m w))).

(** The exception of [__init_next_state]. *)
Definition unsupported : exn := AttributeError "Character is not supported".

(** What the loop of [__init__] does, from a heap that satisfies the
    invariant: it returns when every character of the pattern is ASCII,
    and raises at the first one that is not. *)
Definition build_post (regex_expr : list char) (states : list addr)
    (w : world) (x : outcome (list addr) * world) : Prop :=
  inv (heap (snd x)) /\ ext (heap w) (heap (snd x)) /\
  match fst x with
  | Ret sts =>
      (forall c, c ∈ regex_expr -> isascii c = true) /\
      Forall (not_sink (heap (snd x))) sts /\
      exists more, sts = states ++ more
  | Raise e => e = unsupported /\ exists c, c ∈ regex_expr /\ isascii c = false
  | _ => False
  end.

(** The same for [__init__] and for the whole construction. *)
Definition new_post {A} (regex_expr : list char) (w : world)
    (x : outcome A * world) : Prop :=
  inv (heap (snd x)) /\ ext (heap w) (heap (snd x)) /\
  match fst x with
  | Ret _ => forall c, c ∈ regex_expr -> isascii c = true
  | Raise e => e = unsupported /\ exists c, c ∈ regex_expr /\ isascii c = false
  | _ => False
  end.

(** ** The states a process goes through *)

(** The heap of a process is changed by the construction of a
    [RegexFSM], by each turn of the loop of [check_string], and by the
    end of [check_string]. *)
Inductive reachable : world -> Prop :=
| reachable_initial : reachable initial
| reachable_new regex_expr w :
    reachable w -> reachable (world_after (RegexFSM.new regex_expr) w)
| reachable_step fuel self c suffix w :
    reachable w -> reachable (world_after (RegexFSM.step fuel self c suffix) w)
| reachable_check_string fuel self reg_string w :
    reachable w ->
    reachable (world_after (RegexFSM.check_string fuel self reg_string) w).

(** The state after [b] is compiled in a fresh process and the loop of
    [check_string] has read [a]: object 2 is a [TerminationState] and the
    cursor is on it. *)
Definition rejected_state : world :=
  world_after (RegexFSM.step 4 0 (chr "a") (str "a"))
    (world_after (RegexFSM.new (str "b")) initial).

(** ** The rest of a match *)

(** What [check_string] does from a turn of its loop on, up to the value
    it reads: the rest of the loop and [self.curr_state.is_end]. *)
Definition finish (fuel : nat) (self : fsm) (reg_string : list char) : M bool :=
  RegexFSM.run fuel self reg_string;;
  curr ← get_curr_state self;
  get_is_end curr.

(** The first turns of the loop of [check_string] on [s1 ++ s2]: those
    that read [s1]. *)
Fixpoint run_prefix (fuel : nat) (self : fsm) (s1 s2 : list char) : M unit :=
  match s1 with
  | [] => ret tt
  | c :: rest =>
      RegexFSM.step fuel self c (s1 ++ s2);; run_prefix fuel self rest s2
  end.

(** The object [TerminationState()] makes at address [t]. *)
Definition sink_at (t : addr) : obj := Obj TerminationState (Some false) [t].

(** An object that is no [AsciiState]. *)
Definition not_ascii (w : world) (a : addr) : Prop :=
  exists o, heap w !! a = Some o /\ forall s, kind o <> AsciiState s.

(** ** Patterns *)

(** An ASCII character other than [.], [*] and [+]. *)
Definition is_literal (x : char) : bool :=
  isascii x && negb (N.eqb x DOT) && negb (in_star_plus x).

(** The heap after [x*] is compiled in a fresh process, and [tail], the
    objects made since. *)
Definition star_heap (x : char) (tail : list obj) : list obj :=
  [Obj StartState (Some true) [2]; Obj (AsciiState x) (Some false) [];
   Obj (StarState 1 0) (Some true) []] ++ tail.

(** The heap after [x+] is compiled in a fresh process, with the flag of
    the [PlusState]. *)
Definition plus_heap (x : char) (minimum_check : bool) (tail : list obj)
    : list obj :=
  [Obj StartState None [2]; Obj (AsciiState x) (Some false) [];
   Obj (PlusState 1 3 minimum_check) (Some true) [];
   Obj (StarState 1 1) (Some false) []] ++ tail.

(** The pattern without the quantifier characters that do not directly
    follow an atom: those at the head of the pattern and those that follow
    another quantifier character. *)
Fixpoint drop_stray (regex_expr : list char) : list char :=
  match regex_expr with
  | [] => []
  | c :: rest =>
      if in_star_plus c then drop_stray rest
      else
        match rest with
        | q :: rest' =>
            if in_star_plus q then c :: q :: drop_stray rest'
            else c :: drop_stray rest
        | [] => [c]
        end
  end.

(** U+00E9, a letter outside ASCII. *)
Definition E_ACUTE : char := 233%N.

(** ** What a computation may change *)

(** [always R m]: whatever the state [m] starts from and however it ends,
    the state it leaves is related to the first by [R]. *)
Definition always {A} (R : world -> world -> Prop) (m : M A) : Prop :=
  forall w, R w (snd (m w)).

(** The class of an object and the attributes that come with the class
    stay as they are, but for [minimum_check], which may go from [False]
    to [True]. *)
Definition kind_evolves (k k' : node) : Prop :=
  k' = k \/ exists ck lp, k = PlusState ck lp false /\ k' = PlusState ck lp true.

Definition obj_evolves (o o' : obj) : Prop :=
  kind_evolves (kind o) (kind o') /\
  is_end o' = is_end o /\ next_states o' = next_states o.

(** What matching does to the heap: every object is still there, changed
    at most in its flag, and every new object is a [TerminationState] as
    its constructor makes it. *)
Definition match_frame (w w' : world) : Prop :=
  (forall a o, heap w !! a = Some o ->
     exists o', heap w' !! a = Some o' /\ obj_evolves o o') /\
  (forall a o', heap w' !! a = Some o' -> length (heap w) <= a ->
     o' = sink_at a).

(** What a method of the instance [self] does to the instances: none is
    made, and the others keep their cursor. *)
Definition fsms_frame (self : fsm) (w w' : world) : Prop :=
  length (fsms w') = length (fsms w) /\
  forall p, p <> self -> fsms w' !! p = fsms w !! p.

(** ** What a construction may change *)

(** An object that a construction may write to, in a heap that had [n]
    objects when it began: the start object, or one it made. *)
Definition own (n : nat) (a : addr) : Prop := a = START \/ n <= a.

(** Successors are appended, and [is_end] is set to [True] or left. *)
Definition obj_grows (o o' : obj) : Prop :=
  kind_evolves (kind o) (kind o') /\
  (exists more, next_states o' = next_states o ++ more) /\
  (is_end o' = is_end o \/ is_end o' = Some true).

(** The heap [h] of a construction that began with the heap [h0]: the
    objects of [h0] are unchanged, but for the start object, which has
    grown; the objects made since are no [TerminationState], and a
    [StarState] among them has a [prev_state] that the construction may
    write to. *)
Definition building (h0 h : list obj) : Prop :=
  (forall a o, h0 !! a = Some o -> a <> START -> h !! a = Some o) /\
  (forall o, h0 !! START = Some o ->
     exists o', h !! START = Some o' /\ kind o' = kind o /\ obj_grows o o') /\
  length h0 <= length h /\
  (forall a o, h !! a = Some o -> length h0 <= a ->
     kind o <> TerminationState /\
     forall ck pv, kind o = StarState ck pv -> own (length h0) pv).

(** What the construction of a [RegexFSM] does to a process. *)
Definition new_frame (w w' : world) : Prop :=
  building (heap w) (heap w') /\ fsms w' = fsms w ++ [None].

(** The start object is a [StartState]. *)
Definition start_ok (h : list obj) : Prop :=
  exists o, h !! START = Some o /\ kind o = StartState.

(** A state of a construction that began with the heap [h0] and the
    instances [f0]. *)
Definition constructing (h0 : list obj) (f0 : list (option addr)) (w : world)
    : Prop :=
  building h0 (heap w) /\ fsms w = f0.

(** [m] keeps [P], and a value it returns satisfies [Q]. *)
Definition keeps {A} (P : world -> Prop) (m : M A) (Q : A -> Prop) : Prop :=
  forall w, P w -> P (snd (m w)) /\ forall a, fst (m w) = Ret a -> Q a.

(** [later w w']: the process goes from the state [w] to the state [w']
    by constructions of [RegexFSM]s, turns of the loop of [check_string]
    and whole calls of [check_string]. *)
Inductive later (w : world) : world -> Prop :=
| later_now : later w w
| later_new regex_expr w' :
    later w w' -> later w (world_after (RegexFSM.new regex_expr) w')
| later_step fuel self c suffix w' :
    later w w' -> later w (world_after (RegexFSM.step fuel self c suffix) w')
| later_check_string fuel self reg_string w' :
    later w w' ->
    later w (world_after (RegexFSM.check_string fuel self reg_string) w').

(** ** Patterns without quantifier *)

(** A character of a pattern that stands for itself or is [.]: ASCII and
    no quantifier. *)
Definition is_atom (c : char) : bool := isascii c && negb (in_star_plus c).

(** The class of the object [__init_next_state] makes for an atom. *)
Definition atom_kind (c : char) : node :=
  if N.eqb c DOT then DotState else AsciiState c.

(** The object as its constructor leaves it. *)
Definition new_atom (c : char) : obj := Obj (atom_kind c) (Some false) [].

(** The atom [x] of a pattern accepts the character [c]. *)
Definition atom_accepts (x c : char) : bool := N.eqb x DOT || N.eqb c x.

(** Character by character, with [.] for any character. *)
Fixpoint plain_matches (p s : list char) : bool :=
  match p, s with
  | [], [] => true
  | x :: p', c :: s' => atom_accepts x c && plain_matches p' s'
  | _, _ => false
  end.

(** The successors of the object at [a] when [rest] is the pattern that
    follows it. *)
Definition succ_of (rest : list char) (a : addr) : list addr :=
  match rest with [] => [] | _ :: _ => [S a] end.

Definition is_nil {A} (l : list A) : bool :=
  match l with [] => true | _ :: _ => false end.

(** The object of the atom [c], at [a], once the pattern [c :: rest] is
    compiled: the last one is accepting. *)
Definition node_of (c : char) (rest : list char) (a : addr) : obj :=
  Obj (atom_kind c) (Some (is_nil rest)) (succ_of rest a).

(** The objects of the atoms of [p], the first at [a]. *)
Fixpoint chain_nodes (p : list char) (a : addr) : list obj :=
  match p with
  | [] => []
  | c :: rest => node_of c rest a :: chain_nodes rest (S a)
  end.

(** The heap after the pattern [p], without quantifier, is compiled in a
    fresh process. *)
Definition plain_heap (p : list char) : list obj :=
  Obj StartState (if is_nil p then Some true else None) (succ_of p 0)
  :: chain_nodes p 1.

(** In the heap [h], the objects of the atoms of [rest] follow the
    object at [a]. *)
Fixpoint chain_at (h : list obj) (a : addr) (rest : list char) : Prop :=
  match rest with
  | [] => True
  | x :: rest' =>
      h !! S a = Some (node_of x rest' (S a)) /\ chain_at h (S a) rest'
  end.

(** A class whose [check_next] only tests its successors with
    [check_self]: the start and the atoms. *)
Definition is_plain (k : node) : bool :=
  match k with
  | StartState | DotState | AsciiState _ => true
  | _ => false
  end.

(** The object [o], at [a], once the loop of [__init__] has gone on with
    the pattern [rest]. *)
Definition linked (o : obj) (rest : list char) (a : addr) : obj :=
  Obj (kind o) (is_end o) (next_states o ++ succ_of rest a).

(** The objects of the atoms of [p] before any is marked. *)
Fixpoint raw_nodes (p : list char) (a : addr) : list obj :=
  match p with
  | [] => []
  | c :: rest => linked (new_atom c) rest a :: raw_nodes rest (S a)
  end.

(** [o.is_end = True] *)
Definition set_end (o : obj) : obj := Obj (kind o) (Some true) (next_states o).

(** The object [o] of [linked], marked when it is the last. *)
Definition marked (o : obj) (rest : list char) (a : addr) : obj :=
  Obj (kind o) (if is_nil rest then Some true else is_end o)
      (next_states o ++ succ_of rest a).

(** The state after [check_next] found no successor for the cursor of
    [self]: a new [TerminationState], and the cursor on it. *)
Definition rejected (self : fsm) (w : world) : world :=
  World (heap w ++ [sink_at (length (heap w))])
        (<[self := Some (length (heap w))]> (fsms w)).

(** ** A quantified [.] before literals *)

(** [l] is the end of [s]. *)
Fixpoint has_suffix (s l : list char) : bool :=
  str_eqb s l ||
  match s with
  | [] => false
  | _ :: s' => has_suffix s' l
  end.

(** The heap after [.+] and the literals [l], and after [.*] and the
    literals [l], are compiled in a fresh process; [flag] is the
    [minimum_check] of the [PlusState]. *)
Definition dot_plus_heap (flag : bool) (l : list char) : list obj :=
  [Obj StartState None [2]; Obj DotState (Some false) [];
   Obj (PlusState 1 3 flag) (Some false) [4];
   Obj (StarState 1 1) (Some false) []] ++ chain_nodes l 4.

Definition dot_star_heap (l : list char) : list obj :=
  [Obj StartState None [2; 3]; Obj DotState (Some false) [];
   Obj (StarState 1 0) (Some false) [3]] ++ chain_nodes l 3.

(** ** The shape of the graph *)

(** The node of a character: a [DotState] or an [AsciiState]. *)
Definition is_char_node (k : node) : bool :=
  match k with
  | DotState | AsciiState _ => true
  | _ => false
  end.

(** The object at [ck] is the node of a character. *)
Definition atom_at (h : list obj) (ck : addr) : Prop :=
  exists oc, h !! ck = Some oc /\ is_char_node (kind oc) = true.

(** The object at [a] is one of the first [n], and so are its
    successors, which all come after it. *)
Definition edges_up (n : nat) (a : addr) (o : obj) : Prop :=
  a < n /\ Forall (fun x => a < x < n) (next_states o).

(** A [TerminationState] has itself as only successor; the successors of
    any other object were made after it; the [checking_state] of a
    quantifier is the node of a character, and the [prev_state] of a
    [StarState] is an older object that is no [TerminationState]. *)
Definition node_ok (n : nat) (h : list obj) (a : addr) (o : obj) : Prop :=
  match kind o with
  | TerminationState => next_states o = [a]
  | StarState ck pv =>
      edges_up n a o /\ atom_at h ck /\ pv < a /\ not_sink h pv
  | PlusState ck _ _ => edges_up n a o /\ atom_at h ck
  | _ => edges_up n a o
  end.

(** The heap [h], whose objects from [n] on are [TerminationState]
    objects. *)
Definition graded (n : nat) (h : list obj) : Prop :=
  n <= length h /\ forall a o, h !! a = Some o -> node_ok n h a o.

(** Every cursor is on an object of the heap. *)
Definition cursors_ok (w : world) : Prop :=
  forall p a, fsms w !! p = Some (Some a) -> a < length (heap w).

Definition sound (w : world) : Prop :=
  graded (length (heap w)) (heap w) /\ cursors_ok w.

(** Every object of [h] is in [h'], of the same class. *)
Definition persists (h h' : list obj) : Prop :=
  forall a o, h !! a = Some o ->
    exists o', h' !! a = Some o' /\ kind_evolves (kind o) (kind o').

(** What a step of a construction does. *)
Definition built (w w' : world) : Prop :=
  graded (length (heap w')) (heap w') /\ persists (heap w) (heap w') /\
  length (heap w) <= length (heap w') /\ fsms w' = fsms w.

(** A [StarState] or [PlusState] over a [DotState]. *)
Definition quantifies_dot (h : list obj) (o : obj) : bool :=
  match kind o with
  | StarState ck _ | PlusState ck _ _ =>
      match h !! ck with
      | Some oc => is_DotState (kind oc)
      | None => false
      end
  | _ => false
  end.

(** No pattern compiled so far has a quantified [.]. *)
Definition no_wildcard (w : world) : bool :=
  forallb (fun o => negb (quantifies_dot (heap w) o)) (heap w).

Definition calm (h : list obj) : Prop :=
  forall a o, h !! a = Some o -> quantifies_dot h o = false.

(** [m] run from [w] returns, with a value and a state that satisfy [Q],
    or runs out of fuel, and then [oof] holds. *)
Definition spec {A} (m : M A) (w : world) (Q : A -> world -> Prop)
    (oof : Prop) : Prop :=
  match m w with
  | (Ret a, w') => Q a w'
  | (OutOfFuel, _) => oof
  | _ => False
  end.

(** What a method of a [State] class does: the heap changes as matching
    changes it, and the instances are left as they are. *)
Definition steady (w w' : world) : Prop :=
  match_frame w w' /\ fsms w' = fsms w.

(** What every state of a process satisfies, [n] being a number of
    objects from which on all are [TerminationState] objects. *)
Definition stable (n : nat) (w : world) : Prop :=
  graded n (heap w) /\ cursors_ok w /\ start_ok (heap w).

(** * Lemmas *)

(** ** Sequencing *)

Lemma bind_run_ret {A B} (m : M A) (f : A -> M B) w a w' :
  m w = (Ret a, w') -> bind m f w = f a w'.
Proof. intros H. unfold bind. rewrite H. reflexivity. Qed.

Lemma bind_run_out_of_fuel {A B} (m : M A) (f : A -> M B) w :
  fst (m w) = OutOfFuel -> fst (bind m f w) = OutOfFuel.
Proof.
  intros H. unfold bind.
  destruct (m w) as [[a | e | |] w']; simpl in H; try discriminate.
  reflexivity.
Qed.

Lemma bind_assoc {A B C} (m : M A) (f : A -> M B) (g : B -> M C) w :
  bind (bind m f) g w = bind m (fun a => bind (f a) g) w.
Proof.
  unfold bind. destruct (m w) as [[a | e | |] w1]; reflexivity.
Qed.

Lemma bind_ext {A B} (m : M A) (f g : A -> M B) w :
  (forall a w', f a w' = g a w') -> bind m f w = bind m g w.
Proof.
  intros H. unfold bind. destruct (m w) as [[a | e | |] w']; auto.
Qed.

Lemma bind_cong {A B} (m m' : M A) (f g : A -> M B) w :
  m w = m' w -> (forall a w', f a w' = g a w') -> bind m f w = bind m' g w.
Proof.
  intros Hm H. unfold bind. rewrite Hm.
  destruct (m' w) as [[a | e | |] w']; auto.
Qed.

Lemma get_obj_run w a o :
  heap w !! a = Some o -> get_obj a w = (Ret o, w).
Proof. intros H. unfold get_obj. rewrite H. reflexivity. Qed.

Lemma get_kind_run w a o :
  heap w !! a = Some o -> get_kind a w = (Ret (kind o), w).
Proof.
  intros H. unfold get_kind.
  rewrite (bind_run_ret _ _ _ _ _ (get_obj_run w a o H)). reflexivity.
Qed.

Lemma get_next_states_run w a o :
  heap w !! a = Some o -> get_next_states a w = (Ret (next_states o), w).
Proof.
  intros H. unfold get_next_states.
  rewrite (bind_run_ret _ _ _ _ _ (get_obj_run w a o H)). reflexivity.
Qed.

Lemma isinstance_StarState_run w a o :
  heap w !! a = Some o ->
  isinstance_StarState a w = (Ret (is_StarState (kind o)), w).
Proof.
  intros H. unfold isinstance_StarState.
  rewrite (bind_run_ret _ _ _ _ _ (get_kind_run w a o H)). reflexivity.
Qed.

Lemma get_curr_state_run w self t :
  fsms w !! self = Some (Some t) -> get_curr_state self w = (Ret t, w).
Proof. intros H. unfold get_curr_state. rewrite H. reflexivity. Qed.

Lemma set_curr_state_same w self t :
  fsms w !! self = Some (Some t) -> set_curr_state self t w = (Ret tt, w).
Proof.
  intros H. unfold set_curr_state. rewrite (list_insert_id _ _ _ H).
  destruct w; reflexivity.
Qed.

(** ** More fuel *)

Lemma refines_refl {A} (m : M A) : refines m m.
Proof. intros w. right. reflexivity. Qed.

Lemma refines_trans {A} (m1 m2 m3 : M A) :
  refines m1 m2 -> refines m2 m3 -> refines m1 m3.
Proof.
  intros H12 H23 w.
  destruct (H12 w) as [H | H]; [left; exact H |].
  rewrite H. apply H23.
Qed.

Lemma refines_out_of_fuel {A} (m : M A) : refines out_of_fuel m.
Proof. intros w. left. reflexivity. Qed.

Lemma refines_bind {A B} (m m' : M A) (f f' : A -> M B) :
  refines m m' -> (forall a, refines (f a) (f' a)) ->
  refines (bind m f) (bind m' f').
Proof.
  intros Hm Hf w. unfold bind.
  destruct (Hm w) as [H | H].
  - left. destruct (m w) as [[a | e | |] w1]; simpl in H; try discriminate.
    reflexivity.
  - rewrite H. destruct (m' w) as [[a | e | |] w1]; try (right; reflexivity).
    apply Hf.
Qed.

Lemma refines_for_return {A} (l : list addr) (body body' : addr -> M (option A))
    (orelse orelse' : M A) :
  (forall x, refines (body x) (body' x)) -> refines orelse orelse' ->
  refines (for_return l body orelse) (for_return l body' orelse').
Proof.
  intros Hb Ho. induction l as [| x l IH]; simpl; [exact Ho |].
  apply refines_bind; [apply Hb |].
  intros [v |]; [apply refines_refl | exact IH].
Qed.

(** Splits a goal [refines m m'] along the shape of [m]. *)
Ltac refines_split :=
  match goal with
  | |- refines ?m ?m => apply refines_refl
  | H : forall a c, refines (?f a c) (?g a c) |- refines (?f _ _) (?g _ _) =>
      apply H
  | H : forall a c e, refines (?f a c e) (?g a c e) |- refines (?f _ _ _) (?g _ _ _) =>
      apply H
  | |- refines (bind _ _) (bind _ _) => apply refines_bind; [| intros ?]
  | |- refines (for_return _ _ _) (for_return _ _ _) =>
      apply refines_for_return; [intros ? |]
  | |- refines (if ?b then _ else _) _ => destruct b
  | |- refines (match ?k with _ => _ end) _ => destruct k
  end.

Ltac refines_auto := repeat refines_split.

Lemma check_self_S d self c :
  check_self (S d) self c =
  (k ← get_kind self;
   match k with
   | StartState => StartState_check_self self c
   | TerminationState => TerminationState_check_self self c
   | DotState => DotState_check_self self c
   | AsciiState s => AsciiState_check_self s self c
   | StarState ck _ => StarState_check_self (check_self d) ck self c
   | PlusState ck lp mc => PlusState_check_self (check_self d) ck lp mc self c
   end).
Proof. reflexivity. Qed.

Lemma check_next_S d self c :
  check_next (S d) self c =
  (k ← get_kind self;
   match k with
   | StartState => StartState_check_next (check_self d) self c
   | TerminationState => TerminationState_check_next (check_self d) self c
   | DotState => DotState_check_next (check_self d) (check_next d) self c
   | AsciiState _ => AsciiState_check_next (check_self d) (check_next d) self c
   | StarState ck _ => StarState_check_next (check_self d) (check_next d) ck self c
   | PlusState ck _ _ => PlusState_check_next (check_self d) (check_next d) ck self c
   end).
Proof. reflexivity. Qed.

Lemma check_self_succ d : forall self c,
  refines (check_self d self c) (check_self (S d) self c).
Proof.
  induction d as [| d IH]; intros self c; [apply refines_out_of_fuel |].
  rewrite (check_self_S d), (check_self_S (S d)).
  unfold StarState_check_self, PlusState_check_self.
  refines_auto.
Qed.

Lemma check_next_succ d : forall self c,
  refines (check_next d self c) (check_next (S d) self c).
Proof.
  induction d as [| d IH]; intros self c; [apply refines_out_of_fuel |].
  rewrite (check_next_S d), (check_next_S (S d)).
  pose proof (check_self_succ d) as Hs.
  unfold StartState_check_next, TerminationState_check_next,
    DotState_check_next, AsciiState_check_next, StarState_check_next,
    PlusState_check_next.
  refines_auto.
Qed.

Lemma while_true_succ f : forall cur_next exit_phrase,
  refines (RegexFSM.while_true f cur_next exit_phrase)
          (RegexFSM.while_true (S f) cur_next exit_phrase).
Proof.
  induction f as [| f IH]; intros cur_next exit_phrase;
    [apply refines_out_of_fuel |].
  change (refines
    (l ← get_next_states cur_next;
     r ← RegexFSM.collect l cur_next exit_phrase;
     let '(cn, ep) := r in
     nx ← get_next_states cn;
     match nx with
     | [] => ret ep
     | _ :: _ => RegexFSM.while_true f cn ep
     end)
    (l ← get_next_states cur_next;
     r ← RegexFSM.collect l cur_next exit_phrase;
     let '(cn, ep) := r in
     nx ← get_next_states cn;
     match nx with
     | [] => ret ep
     | _ :: _ => RegexFSM.while_true (S f) cn ep
     end)).
  refines_auto.
Qed.

Lemma step_succ f self c suffix :
  refines (RegexFSM.step f self c suffix) (RegexFSM.step (S f) self c suffix).
Proof.
  pose proof (check_next_succ f) as Hn.
  pose proof (while_true_succ f) as Hw.
  unfold RegexFSM.step. refines_auto.
Qed.

Lemma run_succ f self reg_string :
  refines (RegexFSM.run f self reg_string) (RegexFSM.run (S f) self reg_string).
Proof.
  induction reg_string as [| c rest IH]; simpl; [apply refines_refl |].
  apply refines_bind; [apply step_succ | intros _; exact IH].
Qed.

Lemma check_string_succ f self reg_string :
  refines (RegexFSM.check_string f self reg_string)
          (RegexFSM.check_string (S f) self reg_string).
Proof.
  pose proof (run_succ f self) as Hr.
  unfold RegexFSM.check_string. refines_auto. apply Hr.
Qed.

Lemma check_string_more n f self reg_string :
  refines (RegexFSM.check_string f self reg_string)
          (RegexFSM.check_string (n + f) self reg_string).
Proof.
  induction n as [| n IH]; simpl; [apply refines_refl |].
  eapply refines_trans; [exact IH | apply check_string_succ].
Qed.

Lemma check_next_more n d self c :
  refines (check_next d self c) (check_next (n + d) self c).
Proof.
  induction n as [| n IH]; simpl; [apply refines_refl |].
  eapply refines_trans; [exact IH | apply check_next_succ].
Qed.

Lemma step_more n f self c suffix :
  refines (RegexFSM.step f self c suffix) (RegexFSM.step (n + f) self c suffix).
Proof.
  induction n as [| n IH]; simpl; [apply refines_refl |].
  eapply refines_trans; [exact IH | apply step_succ].
Qed.

Lemma refines_result {A} (m m' : M A) (w : world) (r : outcome A) :
  refines m m' -> result_of m w = r -> r <> OutOfFuel -> result_of m' w = r.
Proof.
  unfold result_of. intros H Hr Hne.
  destruct (H w) as [Ho | He]; [congruence | rewrite <- He; exact Hr].
Qed.

Lemma refines_run {A} (m m' : M A) (w : world) (x : outcome A * world) :
  refines m m' -> m w = x -> fst x <> OutOfFuel -> m' w = x.
Proof.
  intros H Hr Hne.
  destruct (H w) as [Ho | He]; [congruence | rewrite <- He; exact Hr].
Qed.

(** Proves [refines (prog k) (prog (n + k))] for a program made of
    [check_string] and [check_next] calls. *)
Ltac fuel_mono :=
  repeat first
    [ apply check_string_more
    | apply check_next_more
    | apply refines_refl
    | apply refines_bind; [| intros ?] ].

(** Settles [result_of (prog (n + k)) w = r] by running [prog k]. *)
Ltac run_with_fuel :=
  cbv delta [compile_and_check main]; cbv beta;
  match goal with
  | |- result_of ?m ?w = ?r =>
      match m with
      | context [?n + ?k] =>
          let F := eval pattern (n + k) in m in
          match F with
          | ?f _ =>
              apply (refines_result (f k) m w r);
              [ cbv beta; fuel_mono
              | vm_compute; reflexivity
              | discriminate ]
          end
      end
  end.

(** ** The invariant holds in every state *)

Lemma ext_refl h : ext h h.
Proof. intros a H. exact H. Qed.

Lemma ext_trans h1 h2 h3 : ext h1 h2 -> ext h2 h3 -> ext h1 h3.
Proof. intros H12 H23 a H. apply H23, H12, H. Qed.

Lemma obj_ok_ext h h' a o : ext h h' -> obj_ok h a o -> obj_ok h' a o.
Proof.
  unfold obj_ok. intros He. destruct (kind o); auto.
Qed.

Lemma inv_initial : inv (heap initial).
Proof.
  split.
  - eexists. split; [reflexivity | discriminate].
  - intros [| a] o H; simpl in H; [| discriminate].
    injection H as <-. exact I.
Qed.

(** Writing an object that is no [TerminationState] over another. *)
Lemma inv_insert h a o' :
  inv h -> kind o' <> TerminationState ->
  (forall ck pv, kind o' = StarState ck pv -> not_sink h pv) ->
  inv (<[a := o']> h) /\ ext h (<[a := o']> h).
Proof.
  intros [H0 Hall] Hk Hstar.
  assert (He : ext h (<[a := o']> h)).
  { intros x (ox & Hx & Hkx).
    destruct (decide (a = x)) as [-> | Hne].
    - exists o'. split; [| exact Hk].
      apply list_lookup_insert_eq. eapply lookup_lt_Some, Hx.
    - exists ox. split; [| exact Hkx].
      rewrite list_lookup_insert_ne by exact Hne. exact Hx. }
  split; [| exact He]. split; [apply He, H0 |].
  intros b ob Hb.
  apply list_lookup_insert_Some in Hb as [(-> & <- & _) | (_ & Hb)].
  - unfold obj_ok. destruct (kind o') eqn:Ek; try exact I.
    + congruence.
    + apply He. eapply Hstar. reflexivity.
  - eapply obj_ok_ext; [exact He | apply Hall, Hb].
Qed.

(** A new object at the end of the heap. *)
Lemma inv_snoc h o :
  inv h -> obj_ok (h ++ [o]) (length h) o ->
  inv (h ++ [o]) /\ ext h (h ++ [o]).
Proof.
  intros [H0 Hall] Ho.
  assert (He : ext h (h ++ [o])).
  { intros x (ox & Hx & Hkx). exists ox. split; [| exact Hkx].
    apply lookup_app_l_Some, Hx. }
  split; [| exact He]. split; [apply He, H0 |].
  intros b ob Hb.
  apply lookup_snoc_Some in Hb as [(_ & Hb) | (-> & <-)].
  - eapply obj_ok_ext; [exact He | apply Hall, Hb].
  - exact Ho.
Qed.

Lemma not_sink_snoc h o :
  kind o <> TerminationState -> not_sink (h ++ [o]) (length h).
Proof.
  intros Hk. exists o. split; [| exact Hk].
  apply lookup_snoc_Some. right. split; reflexivity.
Qed.

(** *** Matching keeps the invariant, whatever its arguments *)

Lemma preserves_same_heap {A} (m : M A) :
  (forall w, heap (snd (m w)) = heap w) -> preserves m.
Proof.
  intros H w Hi. rewrite H. split; [exact Hi | apply ext_refl].
Qed.

Lemma preserves_ret {A} (a : A) : preserves (ret a).
Proof. apply preserves_same_heap. reflexivity. Qed.

Lemma preserves_raise {A} e : preserves (@raise A e).
Proof. apply preserves_same_heap. reflexivity. Qed.

Lemma preserves_stuck {A} : preserves (@stuck A).
Proof. apply preserves_same_heap. reflexivity. Qed.

Lemma preserves_out_of_fuel {A} : preserves (@out_of_fuel A).
Proof. apply preserves_same_heap. reflexivity. Qed.

Lemma preserves_bind {A B} (m : M A) (f : A -> M B) :
  preserves m -> (forall a, preserves (f a)) -> preserves (bind m f).
Proof.
  intros Hm Hf w Hi. unfold bind.
  destruct (Hm w Hi) as [Hi1 He1].
  destruct (m w) as [[a | e | |] w1]; simpl in *; try (split; assumption).
  destruct (Hf a w1 Hi1) as [Hi2 He2].
  split; [exact Hi2 | eapply ext_trans; eassumption].
Qed.

Lemma preserves_for_return {A} (l : list addr) (body : addr -> M (option A))
    (orelse : M A) :
  (forall x, preserves (body x)) -> preserves orelse ->
  preserves (for_return l body orelse).
Proof.
  intros Hb Ho. induction l as [| x l IH]; simpl; [exact Ho |].
  apply preserves_bind; [apply Hb |].
  intros [v |]; [apply preserves_ret | exact IH].
Qed.

Lemma preserves_get_obj a : preserves (get_obj a).
Proof.
  apply preserves_same_heap. intros w. unfold get_obj.
  destruct (heap w !! a); reflexivity.
Qed.

Lemma preserves_get_curr_state self : preserves (get_curr_state self).
Proof.
  apply preserves_same_heap. intros w. unfold get_curr_state.
  destruct (fsms w !! self) as [[a |] |]; reflexivity.
Qed.

Lemma preserves_set_curr_state self a : preserves (set_curr_state self a).
Proof. apply preserves_same_heap. reflexivity. Qed.

Lemma preserves_new_TerminationState : preserves new_TerminationState.
Proof.
  intros w Hi. simpl. apply inv_snoc; [exact Hi |].
  split; reflexivity.
Qed.

Lemma preserves_set_minimum_check a b : preserves (set_minimum_check a b).
Proof.
  unfold set_minimum_check.
  apply preserves_bind; [apply preserves_get_obj |].
  intros o. destruct (kind o) eqn:Ek; try apply preserves_stuck.
  intros w Hi. simpl. apply inv_insert; [exact Hi | discriminate | discriminate].
Qed.

(** Splits a goal [preserves m] along the shape of [m]. *)
Ltac preserves_split :=
  match goal with
  | H : forall a c, preserves (?f a c) |- preserves (?f _ _) => apply H
  | H : forall a c e, preserves (?f a c e) |- preserves (?f _ _ _) => apply H
  | |- preserves (bind _ _) => apply preserves_bind; [| intros ?]
  | |- preserves (for_return _ _ _) => apply preserves_for_return; [intros ? |]
  | |- preserves (if ?b then _ else _) => destruct b
  | |- preserves (match ?k with _ => _ end) => destruct k
  | |- preserves (ret _) => apply preserves_ret
  | |- preserves (raise _) => apply preserves_raise
  | |- preserves stuck => apply preserves_stuck
  | |- preserves out_of_fuel => apply preserves_out_of_fuel
  | |- preserves (get_obj _) => apply preserves_get_obj
  | |- preserves (get_curr_state _) => apply preserves_get_curr_state
  | |- preserves (set_curr_state _ _) => apply preserves_set_curr_state
  | |- preserves new_TerminationState => apply preserves_new_TerminationState
  | |- preserves (set_minimum_check _ _) => apply preserves_set_minimum_check
  end.

Ltac preserves_auto :=
  unfold get_next_states, get_is_end, get_curr_sym, get_minimum_check,
    isinstance_StarState;
  unfold get_kind;
  repeat preserves_split.

Lemma preserves_check_self d : forall self c, preserves (check_self d self c).
Proof.
  induction d as [| d IH]; intros self c; [apply preserves_out_of_fuel |].
  rewrite check_self_S.
  unfold StartState_check_self, TerminationState_check_self,
    DotState_check_self, AsciiState_check_self, StarState_check_self,
    PlusState_check_self.
  preserves_auto.
Qed.

Lemma preserves_check_next d : forall self c, preserves (check_next d self c).
Proof.
  induction d as [| d IH]; intros self c; [apply preserves_out_of_fuel |].
  rewrite check_next_S.
  pose proof (preserves_check_self d) as Hs.
  unfold StartState_check_next, TerminationState_check_next,
    DotState_check_next, AsciiState_check_next, StarState_check_next,
    PlusState_check_next.
  preserves_auto.
Qed.

Lemma preserves_collect l : forall cur_next exit_phrase,
  preserves (RegexFSM.collect l cur_next exit_phrase).
Proof.
  induction l as [| x l IH]; intros cur_next exit_phrase; simpl;
    [apply preserves_ret |].
  preserves_auto.
Qed.

Lemma preserves_while_true fuel : forall cur_next exit_phrase,
  preserves (RegexFSM.while_true fuel cur_next exit_phrase).
Proof.
  induction fuel as [| fuel IH]; intros cur_next exit_phrase; simpl;
    [apply preserves_out_of_fuel |].
  pose proof preserves_collect as Hc.
  preserves_auto.
Qed.

Lemma preserves_step fuel self c suffix :
  preserves (RegexFSM.step fuel self c suffix).
Proof.
  pose proof (preserves_check_next fuel) as Hn.
  pose proof (preserves_while_true fuel) as Hw.
  unfold RegexFSM.step, RegexFSM.on_wildcard_loop.
  preserves_auto.
Qed.

Lemma preserves_run fuel self reg_string :
  preserves (RegexFSM.run fuel self reg_string).
Proof.
  induction reg_string as [| c rest IH]; simpl; [apply preserves_ret |].
  apply preserves_bind; [apply preserves_step | intros _; exact IH].
Qed.

Lemma preserves_check_string fuel self reg_string :
  preserves (RegexFSM.check_string fuel self reg_string).
Proof.
  pose proof (preserves_run fuel self) as Hr.
  unfold RegexFSM.check_string.
  preserves_auto. apply Hr.
Qed.

(** *** Construction keeps the invariant *)

Lemma Forall_not_sink_ext h h' l :
  ext h h' -> Forall (not_sink h) l -> Forall (not_sink h') l.
Proof. intros He H. eapply Forall_impl; [exact H | exact He]. Qed.

Lemma append_next_states_run w a x :
  inv (heap w) -> not_sink (heap w) a ->
  exists w', append_next_states a x w = (Ret tt, w') /\
    inv (heap w') /\ ext (heap w) (heap w').
Proof.
  intros Hi (o & Ho & Hk). unfold append_next_states.
  rewrite (bind_run_ret _ _ _ _ _ (get_obj_run w a o Ho)).
  eexists. split; [reflexivity |]. simpl.
  apply inv_insert; [exact Hi | exact Hk |].
  intros ck pv Ek. simpl in Ek.
  destruct Hi as [_ Hall]. specialize (Hall a o Ho).
  unfold obj_ok in Hall. rewrite Ek in Hall. exact Hall.
Qed.

Lemma set_is_end_run w a b :
  inv (heap w) -> not_sink (heap w) a ->
  exists w', set_is_end a b w = (Ret tt, w') /\
    inv (heap w') /\ ext (heap w) (heap w').
Proof.
  intros Hi (o & Ho & Hk). unfold set_is_end.
  rewrite (bind_run_ret _ _ _ _ _ (get_obj_run w a o Ho)).
  eexists. split; [reflexivity |]. simpl.
  apply inv_insert; [exact Hi | exact Hk |].
  intros ck pv Ek. simpl in Ek.
  destruct Hi as [_ Hall]. specialize (Hall a o Ho).
  unfold obj_ok in Hall. rewrite Ek in Hall. exact Hall.
Qed.

(** A constructor of a chain node: the new object is no
    [TerminationState]. *)
Lemma alloc_run w (mk : addr -> obj) :
  inv (heap w) ->
  kind (mk (length (heap w))) <> TerminationState ->
  (forall ck pv, kind (mk (length (heap w))) = StarState ck pv ->
     not_sink (heap w) pv) ->
  exists a w', alloc mk w = (Ret a, w') /\
    inv (heap w') /\ ext (heap w) (heap w') /\ not_sink (heap w') a.
Proof.
  intros Hi Hk Hstar. do 2 eexists. split; [reflexivity |]. simpl.
  assert (Hs : inv (heap w ++ [mk (length (heap w))]) /\
               ext (heap w) (heap w ++ [mk (length (heap w))])).
  { apply inv_snoc; [exact Hi |]. unfold obj_ok.
    destruct (kind (mk (length (heap w)))) eqn:Ek; try exact I.
    - congruence.
    - destruct (Hstar _ _ eq_refl) as (o & Ho & Hko).
      exists o. split; [apply lookup_app_l_Some, Ho | exact Hko]. }
  destruct Hs as [Hi' He].
  split; [exact Hi' | split; [exact He | apply not_sink_snoc, Hk]].
Qed.

Lemma new_DotState_run w :
  inv (heap w) ->
  exists a w', new_DotState w = (Ret a, w') /\
    inv (heap w') /\ ext (heap w) (heap w') /\ not_sink (heap w') a.
Proof. intros Hi. apply alloc_run; [exact Hi | discriminate | discriminate]. Qed.

Lemma new_AsciiState_run w s :
  inv (heap w) ->
  exists a w', new_AsciiState s w = (Ret a, w') /\
    inv (heap w') /\ ext (heap w) (heap w') /\ not_sink (heap w') a.
Proof. intros Hi. apply alloc_run; [exact Hi | discriminate | discriminate]. Qed.

Lemma new_StarState_run w ck pv :
  inv (heap w) -> not_sink (heap w) pv ->
  exists a w', new_StarState ck pv w = (Ret a, w') /\
    inv (heap w') /\ ext (heap w) (heap w') /\ not_sink (heap w') a.
Proof.
  intros Hi Hp. apply alloc_run; [exact Hi | discriminate |].
  intros ck' pv' E. simpl in E. injection E as _ <-. exact Hp.
Qed.

Lemma new_PlusState_run w ck :
  inv (heap w) -> not_sink (heap w) ck ->
  exists a w', new_PlusState ck w = (Ret a, w') /\
    inv (heap w') /\ ext (heap w) (heap w') /\ not_sink (heap w') a.
Proof.
  intros Hi Hc. unfold new_PlusState.
  destruct (alloc_run w
              (fun self => Obj (PlusState ck (S self) false) (Some false) []) Hi)
    as (a & w1 & E1 & Hi1 & He1 & Ha); [discriminate | discriminate |].
  rewrite (bind_run_ret _ _ _ _ _ E1).
  destruct (new_StarState_run w1 ck ck Hi1 (He1 _ Hc))
    as (a2 & w2 & E2 & Hi2 & He2 & _).
  rewrite (bind_run_ret _ _ _ _ _ E2).
  exists a, w2. split; [reflexivity |].
  split; [exact Hi2 |]. split; [eapply ext_trans; eassumption |].
  apply He2, Ha.
Qed.

Lemma in_star_plus_isascii q : in_star_plus q = true -> isascii q = true.
Proof.
  unfold in_star_plus. intros H.
  apply orb_true_iff in H as [H | H]; apply N.eqb_eq in H; subst; reflexivity.
Qed.

Lemma init_next_state_run w token prev tmp :
  inv (heap w) -> not_sink (heap w) prev -> not_sink (heap w) tmp ->
  if isascii token then
    exists a w', RegexFSM.__init_next_state token prev tmp w = (Ret a, w') /\
      inv (heap w') /\ ext (heap w) (heap w') /\ not_sink (heap w') a
  else RegexFSM.__init_next_state token prev tmp w = (Raise unsupported, w).
Proof.
  intros Hi Hp Ht. unfold RegexFSM.__init_next_state.
  destruct (N.eqb token DOT) eqn:Ed.
  { apply N.eqb_eq in Ed as ->. apply new_DotState_run, Hi. }
  destruct (N.eqb token STAR) eqn:Es.
  { apply N.eqb_eq in Es as ->. apply new_StarState_run; assumption. }
  destruct (N.eqb token PLUS) eqn:Ep.
  { apply N.eqb_eq in Ep as ->. apply new_PlusState_run; assumption. }
  destruct (isascii token); [apply new_AsciiState_run, Hi | reflexivity].
Qed.

Lemma lookahead_run w rest prev a :
  inv (heap w) -> not_sink (heap w) prev -> not_sink (heap w) a ->
  exists a' w',
    match rest with
    | q :: _ =>
        if in_star_plus q then RegexFSM.__init_next_state q prev a
        else ret a
    | [] => ret a
    end w = (Ret a', w') /\
    inv (heap w') /\ ext (heap w) (heap w') /\ not_sink (heap w') a'.
Proof.
  intros Hi Hp Ha.
  assert (Hret : exists a' w', ret a w = (Ret a', w') /\
            inv (heap w') /\ ext (heap w) (heap w') /\ not_sink (heap w') a').
  { exists a, w. split; [reflexivity |].
    split; [exact Hi | split; [apply ext_refl | exact Ha]]. }
  destruct rest as [| q rest]; [exact Hret |].
  destruct (in_star_plus q) eqn:Eq; [| exact Hret].
  pose proof (init_next_state_run w q prev a Hi Hp Ha) as H.
  rewrite (in_star_plus_isascii q Eq) in H. exact H.
Qed.

Lemma build_spec regex_expr : forall w prev tmp states,
  inv (heap w) -> not_sink (heap w) prev -> not_sink (heap w) tmp ->
  Forall (not_sink (heap w)) states ->
  build_post regex_expr states w (RegexFSM.build regex_expr prev tmp states w).
Proof.
  induction regex_expr as [| char rest IH]; intros w prev tmp states Hi Hp Ht Hs.
  { simpl. split; [exact Hi |]. split; [apply ext_refl |]. simpl.
    split; [intros c Hc; inversion Hc |]. split; [exact Hs |].
    exists []. symmetry. apply app_nil_r. }
  cbn [RegexFSM.build].
  destruct (in_star_plus char) eqn:Eq.
  { destruct (IH w prev tmp states Hi Hp Ht Hs) as (Hi' & He' & Hr).
    split; [exact Hi' |]. split; [exact He' |].
    destruct (fst (RegexFSM.build rest prev tmp states w)) as [sts | e | |];
      try exact Hr.
    - destruct Hr as (Hasc & Hr). split; [| exact Hr].
      intros c Hc. apply elem_of_cons in Hc as [-> | Hc];
        [apply in_star_plus_isascii, Eq | apply Hasc, Hc].
    - destruct Hr as (-> & c & Hc & Hn). split; [reflexivity |].
      exists c. split; [right; exact Hc | exact Hn]. }
  pose proof (init_next_state_run w char prev tmp Hi Hp Ht) as H1.
  destruct (isascii char) eqn:Ea; cycle 1.
  { unfold bind at 1. rewrite H1. simpl.
    split; [exact Hi |]. split; [apply ext_refl |].
    split; [reflexivity |]. exists char. split; [left | exact Ea]. }
  destruct H1 as (a1 & w1 & E1 & Hi1 & He1 & Ha1).
  rewrite (bind_run_ret _ _ _ _ _ E1).
  destruct (lookahead_run w1 rest prev a1 Hi1 (He1 _ Hp) Ha1)
    as (a2 & w2 & E2 & Hi2 & He2 & Ha2).
  rewrite (bind_run_ret _ _ _ _ _ E2).
  assert (Hp2 : not_sink (heap w2) prev) by (apply He2, He1, Hp).
  destruct (append_next_states_run w2 prev a2 Hi2 Hp2) as (w3 & E3 & Hi3 & He3).
  rewrite (bind_run_ret _ _ _ _ _ E3).
  destruct (He3 _ Hp2) as (o3 & Ho3 & Hk3).
  rewrite (bind_run_ret _ _ _ _ _ (get_kind_run w3 prev o3 Ho3)).
  assert (H4 : exists w4,
    match kind o3 with
    | StarState _ pp => append_next_states pp a2
    | _ => ret tt
    end w3 = (Ret tt, w4) /\ inv (heap w4) /\ ext (heap w3) (heap w4)).
  { destruct (kind o3) eqn:Ek;
      try (exists w3; split; [reflexivity | split; [exact Hi3 | apply ext_refl]]).
    apply append_next_states_run; [exact Hi3 |].
    destruct Hi3 as [_ Hall]. specialize (Hall prev o3 Ho3).
    unfold obj_ok in Hall. rewrite Ek in Hall. exact Hall. }
  destruct H4 as (w4 & E4 & Hi4 & He4).
  rewrite (bind_run_ret _ _ _ _ _ E4).
  assert (He04 : ext (heap w) (heap w4)).
  { repeat (eapply ext_trans; [eassumption |]). apply ext_refl. }
  assert (Ha4 : not_sink (heap w4) a2) by (apply He4, He3, Ha2).
  destruct (IH w4 a2 a2 (states ++ [a2]) Hi4 Ha4 Ha4) as (Hi' & He' & Hr).
  { apply Forall_app. split; [| constructor; [exact Ha4 | constructor]].
    eapply Forall_not_sink_ext; [exact He04 | exact Hs]. }
  split; [exact Hi' |]. split; [eapply ext_trans; eassumption |].
  destruct (fst (RegexFSM.build rest a2 a2 (states ++ [a2]) w4)) as [sts | e | |];
    try exact Hr.
  - destruct Hr as (Hasc & Hf & more & ->). split; [| split; [exact Hf |]].
    + intros c Hc. apply elem_of_cons in Hc as [-> | Hc];
        [exact Ea | apply Hasc, Hc].
    + exists (a2 :: more). rewrite <- app_assoc. reflexivity.
  - destruct Hr as (-> & c & Hc & Hn). split; [reflexivity |].
    exists c. split; [right; exact Hc | exact Hn].
Qed.

Lemma mark_end_run l : forall w,
  inv (heap w) -> Forall (not_sink (heap w)) l ->
  exists b w', RegexFSM.mark_end l w = (Ret b, w') /\
    inv (heap w') /\ ext (heap w) (heap w').
Proof.
  induction l as [| state l IH]; intros w Hi Hl.
  { exists false, w. split; [reflexivity |]. split; [exact Hi | apply ext_refl]. }
  apply Forall_cons in Hl as [Hs Hl].
  cbn [RegexFSM.mark_end].
  destruct Hs as (o & Ho & Hk).
  rewrite (bind_run_ret _ _ _ _ _ (isinstance_StarState_run w state o Ho)).
  destruct (set_is_end_run w state true Hi) as (w1 & E1 & Hi1 & He1).
  { exists o. split; assumption. }
  destruct (is_StarState (kind o)); rewrite (bind_run_ret _ _ _ _ _ E1).
  - destruct (IH w1 Hi1) as (b & w2 & E2 & Hi2 & He2).
    { eapply Forall_not_sink_ext; eassumption. }
    exists b, w2. split; [exact E2 |].
    split; [exact Hi2 | eapply ext_trans; eassumption].
  - exists true, w1. split; [reflexivity |]. split; assumption.
Qed.

Lemma init_spec regex_expr w self :
  inv (heap w) -> get_curr_state self w = (Ret START, w) ->
  new_post regex_expr w (RegexFSM.__init__ self regex_expr w).
Proof.
  intros Hi Hc. unfold RegexFSM.__init__.
  do 3 rewrite (bind_run_ret _ _ _ _ _ Hc).
  assert (H0 : not_sink (heap w) START) by apply Hi.
  pose proof (build_spec regex_expr w START START [START] Hi H0 H0) as Hb.
  unfold build_post in Hb.
  destruct Hb as (Hi1 & He1 & Hr); [repeat constructor; exact H0 |].
  unfold bind at 1.
  destruct (RegexFSM.build regex_expr START START [START] w)
    as [[sts | e | |] w1]; simpl in Hi1, He1, Hr; try contradiction.
  2: { split; [exact Hi1 |]. split; [exact He1 | exact Hr]. }
  destruct Hr as (Hasc & Hf & more & ->).
  destruct (mark_end_run (rev ([START] ++ more)) w1 Hi1)
    as (b & w2 & E2 & Hi2 & He2).
  { apply Forall_rev, Hf. }
  rewrite (bind_run_ret _ _ _ _ _ E2).
  assert (He02 : ext (heap w) (heap w2)) by (eapply ext_trans; eassumption).
  destruct b; simpl.
  { split; [exact Hi2 |]. split; [exact He02 | exact Hasc]. }
  destruct (last (START :: more)) as [a |] eqn:El.
  2: { apply last_None in El. discriminate. }
  destruct (set_is_end_run w2 a true Hi2) as (w3 & E3 & Hi3 & He3).
  { apply He2. eapply Forall_forall; [exact Hf |].
    apply last_Some_elem_of, El. }
  rewrite E3. simpl.
  split; [exact Hi3 |].
  split; [eapply ext_trans; eassumption | exact Hasc].
Qed.

Lemma new_spec regex_expr w :
  inv (heap w) -> new_post regex_expr w (RegexFSM.new regex_expr w).
Proof.
  intros Hi. unfold RegexFSM.new.
  set (w0 := World (heap w) (fsms w ++ [None])).
  set (self := length (fsms w)).
  rewrite (bind_run_ret new_instance _ w self w0 eq_refl).
  assert (Hc : get_curr_state self w0 = (Ret START, w0)).
  { unfold get_curr_state, w0, self. simpl.
    rewrite lookup_app_r by lia. rewrite Nat.sub_diag. reflexivity. }
  pose proof (init_spec regex_expr w0 self Hi Hc) as Hs.
  unfold new_post in *. unfold bind.
  destruct (RegexFSM.__init__ self regex_expr w0) as [[[] | e | |] w1];
    exact Hs.
Qed.

Lemma reachable_inv w : reachable w -> inv (heap w).
Proof.
  induction 1 as [| regex_expr w _ IH | fuel self c suffix w _ IH
                 | fuel self reg_string w _ IH].
  - apply inv_initial.
  - apply (new_spec regex_expr w IH).
  - apply (preserves_step fuel self c suffix w IH).
  - apply (preserves_check_string fuel self reg_string w IH).
Qed.

(** ** The cursor on a [TerminationState] *)

Lemma sink_check_self w t o n c :
  heap w !! t = Some o -> kind o = TerminationState ->
  check_self (S n) t c w = (Ret true, w).
Proof.
  intros Ho Hk. rewrite check_self_S.
  rewrite (bind_run_ret _ _ _ _ _ (get_kind_run w t o Ho)).
  rewrite Hk. reflexivity.
Qed.

Lemma sink_check_next w t o n c :
  heap w !! t = Some o -> kind o = TerminationState -> next_states o = [t] ->
  check_next (S (S n)) t c w = (Ret t, w).
Proof.
  intros Ho Hk Hn. rewrite check_next_S.
  rewrite (bind_run_ret _ _ _ _ _ (get_kind_run w t o Ho)).
  rewrite Hk. unfold TerminationState_check_next.
  rewrite (bind_run_ret _ _ _ _ _ (get_next_states_run w t o Ho)).
  rewrite Hn. cbn [for_return].
  rewrite (bind_run_ret _ _ _ _ _
             (bind_run_ret _ _ _ _ _ (sink_check_self w t o n c Ho Hk))).
  reflexivity.
Qed.

Lemma sink_step w self t o n c suffix :
  fsms w !! self = Some (Some t) ->
  heap w !! t = Some o -> kind o = TerminationState -> next_states o = [t] ->
  RegexFSM.step (S (S n)) self c suffix w = (Ret tt, w).
Proof.
  intros Hs Ho Hk Hn. unfold RegexFSM.step.
  rewrite (bind_run_ret _ _ _ _ _ (get_curr_state_run w self t Hs)).
  assert (Hw : RegexFSM.on_wildcard_loop t w = (Ret false, w)).
  { unfold RegexFSM.on_wildcard_loop.
    rewrite (bind_run_ret _ _ _ _ _ (get_kind_run w t o Ho)).
    rewrite Hk. reflexivity. }
  rewrite (bind_run_ret _ _ _ _ _ Hw).
  rewrite (bind_run_ret _ _ _ _ _ (get_curr_state_run w self t Hs)).
  rewrite (bind_run_ret _ _ _ _ _ (sink_check_next w t o n c Ho Hk Hn)).
  apply set_curr_state_same, Hs.
Qed.

Lemma sink_run w self t o n reg_string :
  fsms w !! self = Some (Some t) ->
  heap w !! t = Some o -> kind o = TerminationState -> next_states o = [t] ->
  RegexFSM.run (S (S n)) self reg_string w = (Ret tt, w).
Proof.
  intros Hs Ho Hk Hn.
  induction reg_string as [| c rest IH]; [reflexivity |].
  cbn [RegexFSM.run].
  rewrite (bind_run_ret _ _ _ _ _ (sink_step w self t o n c _ Hs Ho Hk Hn)).
  exact IH.
Qed.

Lemma run_app fuel self s1 : forall s2 w,
  RegexFSM.run fuel self (s1 ++ s2) w
  = bind (run_prefix fuel self s1 s2) (fun _ => RegexFSM.run fuel self s2) w.
Proof.
  induction s1 as [| c rest IH]; intros s2 w; [reflexivity |].
  cbn [app RegexFSM.run run_prefix]. rewrite bind_assoc.
  apply bind_ext. intros _ w'. apply IH.
Qed.

Lemma preserves_run_prefix fuel self s1 s2 :
  preserves (run_prefix fuel self s1 s2).
Proof.
  induction s1 as [| c rest IH]; simpl; [apply preserves_ret |].
  apply preserves_bind; [apply preserves_step | intros _; exact IH].
Qed.

Lemma finish_cons fuel self c rest w w' :
  RegexFSM.step fuel self c (c :: rest) w = (Ret tt, w') ->
  finish fuel self (c :: rest) w = finish fuel self rest w'.
Proof.
  intros H. unfold finish. cbn [RegexFSM.run].
  rewrite bind_assoc. rewrite (bind_run_ret _ _ _ _ _ H). reflexivity.
Qed.

Lemma check_string_result fuel self reg_string w a :
  get_curr_state self w = (Ret a, w) ->
  result_of (RegexFSM.check_string fuel self reg_string) w
  = fst (finish fuel self reg_string w).
Proof.
  intros Hc. unfold result_of, RegexFSM.check_string, finish.
  rewrite (bind_run_ret _ _ _ _ _ Hc). unfold bind.
  destruct (RegexFSM.run fuel self reg_string w) as [[[] | e | |] w1];
    try reflexivity.
  destruct (get_curr_state self w1) as [[curr | e | |] w2]; try reflexivity.
  destruct (get_is_end curr w2) as [[b | e | |] w3]; reflexivity.
Qed.

Lemma sink_finish w self t n reg_string :
  fsms w !! self = Some (Some t) -> heap w !! t = Some (sink_at t) ->
  finish (S (S n)) self reg_string w = (Ret false, w).
Proof.
  intros Hs Ho. unfold finish.
  rewrite (bind_run_ret _ _ _ _ _
             (sink_run w self t _ n reg_string Hs Ho eq_refl eq_refl)).
  rewrite (bind_run_ret _ _ _ _ _ (get_curr_state_run w self t Hs)).
  unfold get_is_end.
  rewrite (bind_run_ret _ _ _ _ _ (get_obj_run w t _ Ho)).
  reflexivity.
Qed.

(** ** A literal under a quantifier *)

Lemma is_literal_inv x :
  is_literal x = true ->
  isascii x = true /\ N.eqb x DOT = false /\
  N.eqb x STAR = false /\ N.eqb x PLUS = false.
Proof.
  unfold is_literal, in_star_plus. intros H.
  apply andb_true_iff in H as [H Hq]. apply andb_true_iff in H as [Ha Hd].
  apply negb_true_iff in Hq, Hd. apply orb_false_iff in Hq as [Hs Hp].
  repeat split; assumption.
Qed.

Section Literal.
Variable x : char.
Hypothesis Hx : is_literal x = true.

Lemma new_star :
  RegexFSM.new [x; STAR] initial = (Ret 0, World (star_heap x []) [None]).
Proof.
  destruct (is_literal_inv x Hx) as (Ha & Hd & Hs & Hp).
  unfold RegexFSM.new, RegexFSM.__init__.
  cbn [RegexFSM.build]. unfold in_star_plus, RegexFSM.__init_next_state.
  rewrite Hd, Hs, Hp, Ha. reflexivity.
Qed.

Lemma new_plus :
  RegexFSM.new [x; PLUS] initial = (Ret 0, World (plus_heap x false []) [None]).
Proof.
  destruct (is_literal_inv x Hx) as (Ha & Hd & Hs & Hp).
  unfold RegexFSM.new, RegexFSM.__init__.
  cbn [RegexFSM.build]. unfold in_star_plus, RegexFSM.__init_next_state.
  rewrite Hd, Hs, Hp, Ha. reflexivity.
Qed.

(** One turn of the loop on [x*], from the start object and from the
    [StarState]: the cursor is the [StarState] after [x] and a new
    [TerminationState] after any other character. *)
Lemma star_step n c suffix tail (cursor : option addr) :
  cursor = None \/ cursor = Some 2 ->
  RegexFSM.step (S (S (S n))) 0 c suffix (World (star_heap x tail) [cursor])
  = (Ret tt,
     if N.eqb c x then World (star_heap x tail) [Some 2]
     else World (star_heap x (tail ++ [sink_at (3 + length tail)]))
                [Some (3 + length tail)]).
Proof.
  intros [-> | ->]; unfold RegexFSM.step, star_heap, sink_at;
    cbv -[N.eqb]; destruct (N.eqb c x); reflexivity.
Qed.

Lemma star_heap_sink tail :
  star_heap x (tail ++ [sink_at (3 + length tail)]) !! (3 + length tail)
  = Some (sink_at (3 + length tail)).
Proof. unfold star_heap. simpl. apply list_lookup_middle. reflexivity. Qed.

Lemma star_finish n reg_string : forall tail cursor,
  cursor = None \/ cursor = Some 2 ->
  fst (finish (S (S (S n))) 0 reg_string (World (star_heap x tail) [cursor]))
  = Ret (forallb (fun c => N.eqb c x) reg_string).
Proof.
  induction reg_string as [| c rest IH]; intros tail cursor Hc.
  { destruct Hc as [-> | ->]; reflexivity. }
  rewrite (finish_cons _ _ _ _ _ _ (star_step n c (c :: rest) tail cursor Hc)).
  cbn [forallb]. destruct (N.eqb c x).
  - apply (IH tail (Some 2)). right. reflexivity.
  - erewrite sink_finish; [reflexivity | reflexivity |].
    apply star_heap_sink.
Qed.

(** One turn of the loop on [x+]: from the start object, and from the
    [PlusState] once its flag is set. *)
Lemma plus_step_at_start n c suffix tail :
  RegexFSM.step (S (S (S n))) 0 c suffix (World (plus_heap x false tail) [None])
  = (Ret tt,
     if N.eqb c x then World (plus_heap x true tail) [Some 2]
     else World (plus_heap x false (tail ++ [sink_at (4 + length tail)]))
                [Some (4 + length tail)]).
Proof.
  unfold RegexFSM.step, plus_heap, sink_at.
  cbv -[N.eqb]. destruct (N.eqb c x); reflexivity.
Qed.

Lemma plus_step_at_plus n c suffix tail :
  RegexFSM.step (S (S (S n))) 0 c suffix (World (plus_heap x true tail) [Some 2])
  = (Ret tt,
     if N.eqb c x then World (plus_heap x true tail) [Some 2]
     else World (plus_heap x true (tail ++ [sink_at (4 + length tail)]))
                [Some (4 + length tail)]).
Proof.
  unfold RegexFSM.step, plus_heap, sink_at.
  cbv -[N.eqb]. destruct (N.eqb c x); reflexivity.
Qed.

Lemma plus_heap_sink b tail :
  plus_heap x b (tail ++ [sink_at (4 + length tail)]) !! (4 + length tail)
  = Some (sink_at (4 + length tail)).
Proof. unfold plus_heap. simpl. apply list_lookup_middle. reflexivity. Qed.

Lemma plus_finish_at_plus n reg_string : forall tail,
  fst (finish (S (S (S n))) 0 reg_string (World (plus_heap x true tail) [Some 2]))
  = Ret (forallb (fun c => N.eqb c x) reg_string).
Proof.
  induction reg_string as [| c rest IH]; intros tail; [reflexivity |].
  rewrite (finish_cons _ _ _ _ _ _ (plus_step_at_plus n c (c :: rest) tail)).
  cbn [forallb]. destruct (N.eqb c x).
  - apply IH.
  - erewrite sink_finish; [reflexivity | reflexivity |].
    apply plus_heap_sink.
Qed.

Lemma plus_finish_at_start n reg_string :
  fst (finish (S (S (S n))) 0 reg_string (World (plus_heap x false []) [None]))
  = match reg_string with
    | [] => Raise (AttributeError "is_end")
    | _ :: _ => Ret (forallb (fun c => N.eqb c x) reg_string)
    end.
Proof.
  destruct reg_string as [| c rest]; [reflexivity |].
  rewrite (finish_cons _ _ _ _ _ _ (plus_step_at_start n c (c :: rest) [])).
  cbn [forallb]. destruct (N.eqb c x).
  - apply plus_finish_at_plus.
  - erewrite sink_finish; [reflexivity | reflexivity |].
    apply plus_heap_sink.
Qed.

(** For a literal [x], in a fresh process: [x*] accepts exactly the
    strings made of [x] alone, the empty one included; [x+] accepts
    exactly the strings of one or more [x], rejects every other string
    that is not empty, and raises on the empty string. *)
Lemma literal_quantifier (n : nat) (reg_string : list char) :
  result_of (compile_and_check (n + 4) [x; STAR] reg_string) initial
    = Ret (forallb (fun c => N.eqb c x) reg_string) /\
  result_of (compile_and_check (n + 4) [x; PLUS] reg_string) initial
    = match reg_string with
      | [] => Raise (AttributeError "is_end")
      | _ :: _ => Ret (forallb (fun c => N.eqb c x) reg_string)
      end.
Proof.
  replace (n + 4) with (S (S (S (S n)))) by lia.
  unfold compile_and_check, result_of. split.
  - rewrite (bind_run_ret _ _ _ _ _ new_star).
    change (result_of (RegexFSM.check_string (S (S (S (S n)))) 0 reg_string)
              (World (star_heap x []) [None])
            = Ret (forallb (fun c => N.eqb c x) reg_string)).
    rewrite (check_string_result _ 0 _ (World (star_heap x []) [None]) START eq_refl).
    apply star_finish. left. reflexivity.
  - rewrite (bind_run_ret _ _ _ _ _ new_plus).
    change (result_of (RegexFSM.check_string (S (S (S (S n)))) 0 reg_string)
              (World (plus_heap x false []) [None]) = 
            match reg_string with
            | [] => Raise (AttributeError "is_end")
            | _ :: _ => Ret (forallb (fun c => N.eqb c x) reg_string)
            end).
    rewrite (check_string_result _ 0 _ (World (plus_heap x false []) [None]) START eq_refl).
    apply plus_finish_at_start.
Qed.

End Literal.

(** ** The loop of the wildcard shortcut *)

(** While [cur_next] has successors, a walk over objects that are no
    [AsciiState] changes neither [cur_next] nor [exit_phrase], and never
    breaks. *)
Lemma collect_no_ascii w cur_next exit_phrase o :
  heap w !! cur_next = Some o -> next_states o <> [] ->
  forall l, Forall (not_ascii w) l ->
  RegexFSM.collect l cur_next exit_phrase w = (Ret (cur_next, exit_phrase), w).
Proof.
  intros Ho Hne l Hl.
  induction Hl as [| x l [ox [Hx Hk]] _ IH]; [reflexivity |].
  cbn [RegexFSM.collect].
  rewrite (bind_run_ret _ _ _ _ _ (get_kind_run w x ox Hx)).
  assert (Hsame :
    match kind ox with
    | AsciiState s => (x, exit_phrase ++ [s])
    | _ => (cur_next, exit_phrase)
    end = (cur_next, exit_phrase)).
  { destruct (kind ox) eqn:Ek; try reflexivity. exfalso. eapply Hk. reflexivity. }
  rewrite Hsame.
  rewrite (bind_run_ret _ _ _ _ _ (get_next_states_run w cur_next o Ho)).
  destruct (next_states o) eqn:En; [congruence | exact IH].
Qed.

(** A node with successors, none of them an [AsciiState], keeps
    [while True] turning for ever. *)
Lemma while_true_diverges w cur_next o :
  heap w !! cur_next = Some o -> next_states o <> [] ->
  Forall (not_ascii w) (next_states o) ->
  forall fuel exit_phrase,
    RegexFSM.while_true fuel cur_next exit_phrase w = (OutOfFuel, w).
Proof.
  intros Ho Hne Hl fuel.
  induction fuel as [| fuel IH]; intros exit_phrase; [reflexivity |].
  cbn [RegexFSM.while_true].
  rewrite (bind_run_ret _ _ _ _ _ (get_next_states_run w cur_next o Ho)).
  rewrite (bind_run_ret _ _ _ _ _
             (collect_no_ascii w cur_next exit_phrase o Ho Hne _ Hl)).
  rewrite (bind_run_ret _ _ _ _ _ (get_next_states_run w cur_next o Ho)).
  destruct (next_states o) eqn:En; [congruence | apply IH].
Qed.

(** ** Quantifier characters that follow no atom *)

Lemma build_skip q rest prev tmp states w :
  in_star_plus q = true ->
  RegexFSM.build (q :: rest) prev tmp states w
  = RegexFSM.build rest prev tmp states w.
Proof. intros H. cbn [RegexFSM.build]. rewrite H. reflexivity. Qed.

(** After an atom the loop looks at the next character only to see
    whether it is a quantifier, and goes on with the rest. *)
Lemma build_atom c rest rest2 prev tmp states w :
  in_star_plus c = false ->
  match rest, rest2 with
  | q :: _, q2 :: _ => q = q2
  | [], [] => True
  | _, _ => False
  end ->
  (forall prev' tmp' states' w',
     RegexFSM.build rest prev' tmp' states' w'
     = RegexFSM.build rest2 prev' tmp' states' w') ->
  RegexFSM.build (c :: rest) prev tmp states w
  = RegexFSM.build (c :: rest2) prev tmp states w.
Proof.
  intros Hc Hhead Htail. cbn [RegexFSM.build]. rewrite Hc.
  apply bind_ext. intros a1 w1.
  assert (Hl : forall w',
    match rest with
    | q :: _ =>
        if in_star_plus q then RegexFSM.__init_next_state q prev a1
        else ret a1
    | [] => ret a1
    end w' =
    match rest2 with
    | q :: _ =>
        if in_star_plus q then RegexFSM.__init_next_state q prev a1
        else ret a1
    | [] => ret a1
    end w').
  { intros w'. destruct rest as [| q r], rest2 as [| q2 r2];
      try contradiction; [reflexivity | subst q2; reflexivity]. }
  apply bind_cong; [apply Hl |]. intros a2 w2.
  repeat (apply bind_ext; intros ? ?).
  apply Htail.
Qed.

Lemma drop_stray_atom q rest :
  in_star_plus q = false -> exists t, drop_stray (q :: rest) = q :: t.
Proof.
  intros Hq. cbn [drop_stray]. rewrite Hq.
  destruct rest as [| q' rest']; [eexists; reflexivity |].
  destruct (in_star_plus q'); eexists; reflexivity.
Qed.

Lemma build_drop_stray regex_expr : forall prev tmp states w,
  RegexFSM.build regex_expr prev tmp states w
  = RegexFSM.build (drop_stray regex_expr) prev tmp states w.
Proof.
  induction regex_expr as [| c rest IH]; intros prev tmp states w;
    [reflexivity |].
  destruct (in_star_plus c) eqn:Ec.
  { rewrite (build_skip c rest) by exact Ec.
    cbn [drop_stray]. rewrite Ec. apply IH. }
  destruct rest as [| q rest'].
  { cbn [drop_stray]. rewrite Ec. reflexivity. }
  destruct (in_star_plus q) eqn:Eq.
  - replace (drop_stray (c :: q :: rest')) with (c :: q :: drop_stray rest')
      by (cbn [drop_stray]; rewrite Ec, Eq; reflexivity).
    apply build_atom; [exact Ec | reflexivity |].
    intros prev' tmp' states' w'.
    rewrite IH. cbn [drop_stray]. rewrite Eq.
    symmetry. apply build_skip, Eq.
  - replace (drop_stray (c :: q :: rest')) with (c :: drop_stray (q :: rest'))
      by (cbn [drop_stray]; rewrite Ec, Eq; reflexivity).
    apply build_atom; [exact Ec | | exact IH].
    destruct (drop_stray_atom q rest' Eq) as [t ->]. reflexivity.
Qed.

Lemma new_drop_stray regex_expr w :
  RegexFSM.new regex_expr w = RegexFSM.new (drop_stray regex_expr) w.
Proof.
  unfold RegexFSM.new, RegexFSM.__init__.
  apply bind_ext. intros self w0.
  apply bind_cong; [| reflexivity].
  repeat (apply bind_ext; intros ? ?).
  apply bind_cong; [apply build_drop_stray | reflexivity].
Qed.

Lemma compile_and_check_drop_stray fuel regex_expr reg_string w :
  compile_and_check fuel regex_expr reg_string w
  = compile_and_check fuel (drop_stray regex_expr) reg_string w.
Proof.
  unfold compile_and_check.
  apply bind_cong; [apply new_drop_stray | reflexivity].
Qed.

(** * The claims *)

(** C1: for the pattern [a*4.+hi] compiled in a fresh process, the match
    of [4uhi] is true, of [aaaaaa4uhi] true and of [meow] false, each on
    its own and in the three successive calls of [__main__]; any fuel from
    4 on is enough. *)
Theorem demo_pattern_scenarios (n : nat) :
  result_of (compile_and_check (n + 4) (str "a*4.+hi") (str "4uhi")) initial
    = Ret true /\
  result_of (compile_and_check (n + 4) (str "a*4.+hi") (str "aaaaaa4uhi")) initial
    = Ret true /\
  result_of (compile_and_check (n + 4) (str "a*4.+hi") (str "meow")) initial
    = Ret false /\
  result_of (main (n + 4)) initial = Ret (true, true, false).
Proof. repeat split; run_with_fuel. Qed.

(** C2: in a fresh process and for a literal [x], [x*] is true exactly
    of the strings made of [x] alone, the empty one included, and [x+]
    exactly of the strings of one or more [x].  So [a*] accepts the
    empty string and [a+] accepts [a] and [aaa].  But matching the empty
    string against [x+] raises [AttributeError], because the cursor is
    still the [StartState] object, which has no [is_end]; and for the
    atom [.] both [.*] and [.+] accept [x] and raise [IndexError], on
    [next_states[0]], at the second character of [xy]. *)
Theorem quantifier_semantics (n : nat) :
  (forall x reg_string, is_literal x = true ->
     result_of (compile_and_check (n + 4) [x; STAR] reg_string) initial
       = Ret (forallb (fun c => N.eqb c x) reg_string) /\
     result_of (compile_and_check (n + 4) [x; PLUS] reg_string) initial
       = match reg_string with
         | [] => Raise (AttributeError "is_end")
         | _ :: _ => Ret (forallb (fun c => N.eqb c x) reg_string)
         end) /\
  result_of (compile_and_check (n + 4) (str "a*") (str "")) initial = Ret true /\
  result_of (compile_and_check (n + 4) (str "a+") (str "")) initial
    = Raise (AttributeError "is_end") /\
  result_of (compile_and_check (n + 4) (str "a+") (str "a")) initial = Ret true /\
  result_of (compile_and_check (n + 4) (str "a+") (str "aaa")) initial = Ret true /\
  result_of (compile_and_check (n + 4) (str ".*") (str "x")) initial = Ret true /\
  result_of (compile_and_check (n + 4) (str ".*") (str "xy")) initial
    = Raise IndexError /\
  result_of (compile_and_check (n + 4) (str ".+") (str "x")) initial = Ret true /\
  result_of (compile_and_check (n + 4) (str ".+") (str "xy")) initial
    = Raise IndexError.
Proof.
  split; [intros x reg_string Hx; apply (literal_quantifier x Hx) |].
  repeat split; run_with_fuel.
Qed.

Lemma quantifier_semantics_witness :
  is_literal (chr "a") = true /\
  result_of (compile_and_check 4 [chr "a"; STAR] (str "aab")) initial = Ret false /\
  result_of (compile_and_check 4 [chr "a"; PLUS] (str "aaa")) initial = Ret true.
Proof.
  assert (Hx : is_literal (chr "a") = true) by reflexivity.
  split; [exact Hx |].
  split.
  - exact (proj1 (proj1 (quantifier_semantics 0) (chr "a") (str "aab") Hx)).
  - exact (proj2 (proj1 (quantifier_semantics 0) (chr "a") (str "aaa") Hx)).
Defined.

(** C3, as stated, fails: [#] is an ASCII character, so [a#] compiles, to
    a graph with an [AsciiState] for [#]. *)
Lemma compile_hash_does_not_raise :
  ~ (exists e, result_of (RegexFSM.new (str "a#")) initial = Raise e).
Proof. intros [e H]. vm_compute in H. discriminate. Qed.

(** C3, amended: in every state of the process, the construction of a
    [RegexFSM] from a pattern that holds a character that is not ASCII
    raises [AttributeError("Character is not supported")]; the call
    returns no [RegexFSM]. *)
Theorem compile_rejects_non_ascii w regex_expr c :
  reachable w -> c ∈ regex_expr -> isascii c = false ->
  result_of (RegexFSM.new regex_expr) w
    = Raise (AttributeError "Character is not supported").
Proof.
  intros Hw Hc Ha. unfold result_of.
  destruct (new_spec regex_expr w (reachable_inv w Hw)) as (_ & _ & Hr).
  destruct (fst (RegexFSM.new regex_expr w)) as [p | e | |];
    try contradiction.
  - rewrite (Hr c Hc) in Ha. discriminate.
  - destruct Hr as [-> _]. reflexivity.
Qed.

Lemma compile_rejects_non_ascii_witness :
  reachable initial /\ E_ACUTE ∈ [chr "a"; E_ACUTE] /\
  isascii E_ACUTE = false /\
  result_of (RegexFSM.new [chr "a"; E_ACUTE]) initial
    = Raise (AttributeError "Character is not supported").
Proof.
  assert (Hr : reachable initial) by constructor.
  assert (Hc : E_ACUTE ∈ [chr "a"; E_ACUTE]) by (right; left).
  assert (Ha : isascii E_ACUTE = false) by reflexivity.
  split; [exact Hr |]. split; [exact Hc |]. split; [exact Ha |].
  exact (compile_rejects_non_ascii initial [chr "a"; E_ACUTE] E_ACUTE Hr Hc Ha).
Defined.

(** C4: [check_string] raises on some inputs.  The empty string against
    [a+], compiled in a fresh process, reads [is_end] on the
    [StartState] object; the shortcut for a quantified [.] reads
    [next_states[0]] of a node without successor, and [curr_sym] of a
    successor that is no [AsciiState]. *)
Theorem check_string_raises (n : nat) :
  result_of (compile_and_check (n + 4) (str "a+") (str "")) initial
    = Raise (AttributeError "is_end") /\
  result_of (compile_and_check (n + 4) (str "ab") (str "")) initial
    = Raise (AttributeError "is_end") /\
  result_of (compile_and_check (n + 4) (str ".*") (str "xy")) initial
    = Raise IndexError /\
  result_of (compile_and_check (n + 4) (str ".+b+") (str "xy")) initial
    = Raise (AttributeError "curr_sym").
Proof. repeat split; run_with_fuel. Qed.

(** C5: matching [xy] against [.+a.], compiled in a fresh process, does
    not return, whatever the fuel.  After [x] the cursor is the
    [PlusState] over [.]; at [y] the shortcut starts from the node of [a],
    whose only successor is a [DotState], and its [while True] loop
    neither moves nor breaks. *)
Theorem wildcard_shortcut_diverges (fuel : nat) :
  result_of (compile_and_check fuel (str ".+a.") (str "xy")) initial = OutOfFuel.
Proof.
  destruct (Nat.le_gt_cases 4 fuel) as [H | H].
  - destruct (Nat.le_exists_sub 4 fuel H) as [f [-> _]].
    unfold result_of, compile_and_check.
    erewrite bind_run_ret by (vm_compute; reflexivity).
    unfold RegexFSM.check_string.
    erewrite bind_run_ret by (vm_compute; reflexivity).
    apply bind_run_out_of_fuel.
    change (str "xy") with [chr "x"; chr "y"].
    cbn [RegexFSM.run].
    erewrite bind_run_ret; cycle 1.
    { eapply refines_run; [apply step_more | vm_compute; reflexivity | discriminate]. }
    apply bind_run_out_of_fuel.
    unfold RegexFSM.step.
    do 2 (erewrite bind_run_ret by (vm_compute; reflexivity)).
    cbv iota.
    erewrite bind_run_ret by (vm_compute; reflexivity).
    cbv iota.
    erewrite bind_run_ret by (vm_compute; reflexivity).
    apply bind_run_out_of_fuel.
    erewrite while_true_diverges; [reflexivity | reflexivity | discriminate |].
    repeat constructor.
    eexists; split; [reflexivity | discriminate].
  - do 4 (destruct fuel as [| fuel]; [vm_compute; reflexivity |]). lia.
Qed.

(** C6: [minimum_check] lives on the [PlusState] object and no call
    resets it.  Against [a+] compiled in a fresh process, [b] is rejected,
    then [a] is accepted, then the same [b] is accepted; after the three
    calls the object still carries the flag. *)
Theorem plus_flag_outlives_call (n : nat) :
  result_of
    (p ← RegexFSM.new (str "a+");
     r1 ← RegexFSM.check_string (n + 4) p (str "b");
     r2 ← RegexFSM.check_string (n + 4) p (str "a");
     r3 ← RegexFSM.check_string (n + 4) p (str "b");
     plus ← get_obj 2;
     ret (r1, r2, r3, kind plus)) initial
  = Ret (false, true, true, PlusState 1 3 true).
Proof. run_with_fuel. Qed.

(** C7: after [a*b] is compiled in a fresh process, object 2 is the
    [StarState] and object 3 its successor [b].  On [a] the
    [StarState] answers itself.  On [c] the successor resolves to a
    [TerminationState], and still [StarState.check_next] answers the
    successor: the test [if state.check_next(next_char)] is true of every
    object.  So [ac] is accepted. *)
Theorem star_moves_to_unmatched_successor (n : nat) :
  result_of
    (p ← RegexFSM.new (str "a*b");
     star ← get_obj 2;
     stay ← check_next (n + 4) 2 (chr "a");
     r ← check_next (n + 4) 3 (chr "c");
     k ← get_kind r;
     r' ← check_next (n + 4) 2 (chr "c");
     ret (kind star, next_states star, stay, k, r')) initial
  = Ret (StarState 1 0, [3], 2, TerminationState, 3) /\
  result_of (compile_and_check (n + 4) (str "a*b") (str "ac")) initial = Ret true.
Proof. split; run_with_fuel. Qed.

(** C8: in every state a process goes through, a [TerminationState]
    object has [is_end = False] and itself as only successor; its
    [check_next] answers the object itself; when the cursor of a
    [RegexFSM] is such an object, the rest of the loop of [check_string],
    whatever input is left, keeps it there, and the value read from
    [is_end] at the end is [False]; so a call of [check_string] whose
    first turns put the cursor on such an object returns [False].  Any
    fuel from 2 on is enough. *)
Theorem termination_is_rejection w :
  reachable w ->
  (forall t o, heap w !! t = Some o -> kind o = TerminationState ->
     is_end o = Some false /\ next_states o = [t]) /\
  (forall t o n c, heap w !! t = Some o -> kind o = TerminationState ->
     check_next (S (S n)) t c w = (Ret t, w)) /\
  (forall self t o n reg_string,
     fsms w !! self = Some (Some t) ->
     heap w !! t = Some o -> kind o = TerminationState ->
     (RegexFSM.run (S (S n)) self reg_string;;
      curr ← get_curr_state self;
      get_is_end curr) w = (Ret false, w)) /\
  (forall self start n s1 s2 w1 t o,
     get_curr_state self w = (Ret start, w) ->
     run_prefix (S (S n)) self s1 s2 w = (Ret tt, w1) ->
     fsms w1 !! self = Some (Some t) ->
     heap w1 !! t = Some o -> kind o = TerminationState ->
     result_of (RegexFSM.check_string (S (S n)) self (s1 ++ s2)) w = Ret false).
Proof.
  intros Hw. pose proof (reachable_inv w Hw) as Hi.
  assert (Hsink : forall h t o, inv h -> h !! t = Some o ->
                    kind o = TerminationState ->
                    is_end o = Some false /\ next_states o = [t]).
  { intros h t o [_ Hall] Ho Hk. specialize (Hall t o Ho). unfold obj_ok in Hall.
    rewrite Hk in Hall. exact Hall. }
  split; [intros t o; apply Hsink, Hi |]. split; [| split].
  - intros t o n c Ho Hk. destruct (Hsink _ t o Hi Ho Hk) as [_ Hn].
    apply (sink_check_next w t o n c Ho Hk Hn).
  - intros self t o n reg_string Hs Ho Hk.
    destruct (Hsink _ t o Hi Ho Hk) as [He Hn].
    rewrite (bind_run_ret _ _ _ _ _ (sink_run w self t o n reg_string Hs Ho Hk Hn)).
    rewrite (bind_run_ret _ _ _ _ _ (get_curr_state_run w self t Hs)).
    unfold get_is_end.
    rewrite (bind_run_ret _ _ _ _ _ (get_obj_run w t o Ho)).
    rewrite He. reflexivity.
  - intros self start n s1 s2 w1 t o Hc Hp Hs Ho Hk.
    assert (Hi1 : inv (heap w1)).
    { pose proof (preserves_run_prefix (S (S n)) self s1 s2 w Hi) as [H _].
      rewrite Hp in H. exact H. }
    destruct (Hsink _ t o Hi1 Ho Hk) as [He Hn].
    rewrite (check_string_result _ _ _ _ start Hc).
    unfold finish.
    rewrite (bind_cong _ _ _ _ w (run_app (S (S n)) self s1 s2 w)
               (fun _ _ => eq_refl)).
    rewrite bind_assoc.
    rewrite (bind_run_ret _ _ _ _ _ Hp).
    rewrite (bind_run_ret _ _ _ _ _ (sink_run w1 self t o n s2 Hs Ho Hk Hn)).
    rewrite (bind_run_ret _ _ _ _ _ (get_curr_state_run w1 self t Hs)).
    unfold get_is_end.
    rewrite (bind_run_ret _ _ _ _ _ (get_obj_run w1 t o Ho)).
    rewrite He. reflexivity.
Qed.

(** [b], compiled in a fresh process, against [azz]: the first turn puts
    the cursor on a new [TerminationState], object 2. *)
Lemma termination_is_rejection_witness :
  result_of (RegexFSM.check_string 2 0 (str "azz"))
    (world_after (RegexFSM.new (str "b")) initial) = Ret false.
Proof.
  assert (Hr : reachable (world_after (RegexFSM.new (str "b")) initial)).
  { apply reachable_new, reachable_initial. }
  assert (Hc : get_curr_state 0 (world_after (RegexFSM.new (str "b")) initial)
               = (Ret START, world_after (RegexFSM.new (str "b")) initial))
    by reflexivity.
  assert (Hp : run_prefix 2 0 [chr "a"] (str "zz")
                 (world_after (RegexFSM.new (str "b")) initial)
               = (Ret tt, rejected_state)) by reflexivity.
  assert (Hs : fsms rejected_state !! 0 = Some (Some 2)) by reflexivity.
  assert (Ho : heap rejected_state !! 2 = Some (sink_at 2)) by reflexivity.
  exact (proj2 (proj2 (proj2 (termination_is_rejection _ Hr)))
           0 START 0 [chr "a"] (str "zz") rejected_state 2 (sink_at 2)
           Hc Hp Hs Ho eq_refl).
Defined.

(** C9: every [RegexFSM] starts from the one [StartState] object, and
    each compilation appends to its [next_states].  In a fresh process
    the pattern [b] rejects [a]; once the pattern [a] has been compiled
    too, the first pattern accepts [a], and the start object lists the
    first nodes of both. *)
Theorem second_compile_changes_first (n : nat) :
  result_of
    (p ← RegexFSM.new (str "b");
     RegexFSM.check_string (n + 4) p (str "a")) initial
  = Ret false /\
  result_of
    (p ← RegexFSM.new (str "b");
     before ← get_next_states START;
     q ← RegexFSM.new (str "a");
     after ← get_next_states START;
     r ← RegexFSM.check_string (n + 4) p (str "a");
     ret (before, after, r)) initial
  = Ret ([1], [1; 2], true).
Proof. split; run_with_fuel. Qed.

(** C10: a quantifier character that follows no atom is skipped.  In any
    state, constructing a [RegexFSM] from a pattern does what constructing
    it from the pattern without these characters does: the same result or
    exception and the same heap, hence the same matches afterwards; so
    [*b] behaves as [b] and [a*+] as [a*].  And in every state a process
    goes through, a pattern of ASCII characters, wherever its quantifier
    characters stand, compiles without exception. *)
Theorem stray_quantifiers_are_skipped :
  (forall w regex_expr,
     RegexFSM.new regex_expr w = RegexFSM.new (drop_stray regex_expr) w) /\
  drop_stray (str "*b") = str "b" /\
  drop_stray (str "a*+") = str "a*" /\
  (forall w fuel reg_string,
     compile_and_check fuel (str "*b") reg_string w
     = compile_and_check fuel (str "b") reg_string w) /\
  (forall w fuel reg_string,
     compile_and_check fuel (str "a*+") reg_string w
     = compile_and_check fuel (str "a*") reg_string w) /\
  (forall w regex_expr,
     reachable w -> (forall c, c ∈ regex_expr -> isascii c = true) ->
     exists p, result_of (RegexFSM.new regex_expr) w = Ret p).
Proof.
  split; [intros w regex_expr; apply new_drop_stray |].
  split; [reflexivity |]. split; [reflexivity |].
  split; [intros w fuel s; apply (compile_and_check_drop_stray fuel (str "*b")) |].
  split; [intros w fuel s; apply (compile_and_check_drop_stray fuel (str "a*+")) |].
  intros w regex_expr Hw Hasc. unfold result_of.
  destruct (new_spec regex_expr w (reachable_inv w Hw)) as (_ & _ & Hr).
  destruct (fst (RegexFSM.new regex_expr w)) as [p | e | |];
    try contradiction.
  - exists p. reflexivity.
  - destruct Hr as (_ & c & Hc & Hn). rewrite (Hasc c Hc) in Hn. discriminate.
Qed.

Lemma stray_quantifiers_are_skipped_witness :
  exists p, result_of (RegexFSM.new (str "+*b*+")) initial = Ret p.
Proof.
  refine (proj2 (proj2 (proj2 (proj2 (proj2 stray_quantifiers_are_skipped))))
            initial (str "+*b*+") reachable_initial _).
  intros c Hc.
  repeat (apply elem_of_cons in Hc as [-> | Hc]; [reflexivity |]).
  inversion Hc.
Defined.

(** * Further properties *)

(** ** What matching changes *)

Section Always.
Context (R : world -> world -> Prop).
Hypothesis R_refl : forall w, R w w.
Hypothesis R_trans : forall w1 w2 w3, R w1 w2 -> R w2 w3 -> R w1 w3.

Lemma always_same {A} (m : M A) :
  (forall w, snd (m w) = w) -> always R m.
Proof. intros H w. rewrite H. apply R_refl. Qed.

Lemma always_ret {A} (a : A) : always R (ret a).
Proof. apply always_same. reflexivity. Qed.

Lemma always_raise {A} e : always R (@raise A e).
Proof. apply always_same. reflexivity. Qed.

Lemma always_stuck {A} : always R (@stuck A).
Proof. apply always_same. reflexivity. Qed.

Lemma always_out_of_fuel {A} : always R (@out_of_fuel A).
Proof. apply always_same. reflexivity. Qed.

Lemma always_get_obj a : always R (get_obj a).
Proof.
  apply always_same. intros w. unfold get_obj.
  destruct (heap w !! a); reflexivity.
Qed.

Lemma always_get_curr_state self : always R (get_curr_state self).
Proof.
  apply always_same. intros w. unfold get_curr_state.
  destruct (fsms w !! self) as [[a |] |]; reflexivity.
Qed.

Lemma always_bind {A B} (m : M A) (f : A -> M B) :
  always R m -> (forall a, always R (f a)) -> always R (bind m f).
Proof.
  intros Hm Hf w. unfold bind. specialize (Hm w).
  destruct (m w) as [[a | e | |] w1]; simpl in *; try exact Hm.
  eapply R_trans; [exact Hm | apply Hf].
Qed.

Lemma always_for_return {A} (l : list addr) (body : addr -> M (option A))
    (orelse : M A) :
  (forall x, always R (body x)) -> always R orelse ->
  always R (for_return l body orelse).
Proof.
  intros Hb Ho. induction l as [| x l IH]; simpl; [exact Ho |].
  apply always_bind; [apply Hb |].
  intros [v |]; [apply always_ret | exact IH].
Qed.

(** What is left to show for the computations of matching: the three
    that write. *)
Hypothesis R_new_TerminationState : always R new_TerminationState.
Hypothesis R_set_minimum_check : forall a, always R (set_minimum_check a true).
Variable self : fsm.
Hypothesis R_set_curr_state : forall a, always R (set_curr_state self a).

Ltac always_split :=
  match goal with
  | H : forall a c, always R (?f a c) |- always R (?f _ _) => apply H
  | H : forall a c e, always R (?f a c e) |- always R (?f _ _ _) => apply H
  | |- always R (bind _ _) => apply always_bind; [| intros ?]
  | |- always R (for_return _ _ _) => apply always_for_return; [intros ? |]
  | |- always R (if ?b then _ else _) => destruct b
  | |- always R (match ?k with _ => _ end) => destruct k
  | |- always R (ret _) => apply always_ret
  | |- always R (raise _) => apply always_raise
  | |- always R stuck => apply always_stuck
  | |- always R out_of_fuel => apply always_out_of_fuel
  | |- always R (get_obj _) => apply always_get_obj
  | |- always R (get_curr_state _) => apply always_get_curr_state
  | |- always R new_TerminationState => apply R_new_TerminationState
  | |- always R (set_minimum_check _ true) => apply R_set_minimum_check
  | |- always R (set_curr_state self _) => apply R_set_curr_state
  end.

Ltac always_auto :=
  unfold get_next_states, get_is_end, get_curr_sym, get_minimum_check,
    isinstance_StarState;
  unfold get_kind;
  repeat always_split.

Lemma always_check_self d : forall a c, always R (check_self d a c).
Proof.
  induction d as [| d IH]; intros a c; [apply always_out_of_fuel |].
  rewrite check_self_S.
  unfold StartState_check_self, TerminationState_check_self,
    DotState_check_self, AsciiState_check_self, StarState_check_self,
    PlusState_check_self.
  always_auto.
Qed.

Lemma always_check_next d : forall a c, always R (check_next d a c).
Proof.
  induction d as [| d IH]; intros a c; [apply always_out_of_fuel |].
  rewrite check_next_S.
  pose proof (always_check_self d) as Hs.
  unfold StartState_check_next, TerminationState_check_next,
    DotState_check_next, AsciiState_check_next, StarState_check_next,
    PlusState_check_next.
  always_auto.
Qed.

Lemma always_collect l : forall cur_next exit_phrase,
  always R (RegexFSM.collect l cur_next exit_phrase).
Proof.
  induction l as [| x l IH]; intros cur_next exit_phrase; simpl;
    [apply always_ret |].
  always_auto.
Qed.

Lemma always_while_true fuel : forall cur_next exit_phrase,
  always R (RegexFSM.while_true fuel cur_next exit_phrase).
Proof.
  induction fuel as [| fuel IH]; intros cur_next exit_phrase; simpl;
    [apply always_out_of_fuel |].
  pose proof always_collect as Hc.
  always_auto.
Qed.

Lemma always_step fuel c suffix :
  always R (RegexFSM.step fuel self c suffix).
Proof.
  pose proof (always_check_next fuel) as Hn.
  pose proof (always_while_true fuel) as Hw.
  unfold RegexFSM.step, RegexFSM.on_wildcard_loop.
  always_auto.
Qed.

Lemma always_run fuel reg_string :
  always R (RegexFSM.run fuel self reg_string).
Proof.
  induction reg_string as [| c rest IH]; simpl; [apply always_ret |].
  apply always_bind; [apply always_step | intros _; exact IH].
Qed.

Lemma always_check_string fuel reg_string :
  always R (RegexFSM.check_string fuel self reg_string).
Proof.
  pose proof (always_run fuel) as Hr.
  unfold RegexFSM.check_string.
  always_auto. apply Hr.
Qed.

End Always.

Lemma kind_evolves_refl k : kind_evolves k k.
Proof. left. reflexivity. Qed.

Lemma kind_evolves_trans k1 k2 k3 :
  kind_evolves k1 k2 -> kind_evolves k2 k3 -> kind_evolves k1 k3.
Proof.
  intros [-> | (ck & lp & -> & ->)] [-> | (ck' & lp' & E & ->)].
  - left. reflexivity.
  - right. eauto.
  - right. eauto.
  - discriminate.
Qed.

Lemma obj_evolves_refl o : obj_evolves o o.
Proof. split; [apply kind_evolves_refl | split; reflexivity]. Qed.

Lemma obj_evolves_trans o1 o2 o3 :
  obj_evolves o1 o2 -> obj_evolves o2 o3 -> obj_evolves o1 o3.
Proof.
  intros (Hk & He & Hn) (Hk' & He' & Hn').
  split; [eapply kind_evolves_trans; eassumption |].
  split; congruence.
Qed.

Lemma obj_evolves_sink t o : obj_evolves (sink_at t) o -> o = sink_at t.
Proof.
  intros ([Hk | (ck & lp & Hk & _)] & He & Hn); [| discriminate].
  destruct o as [k e n]. simpl in *. subst. reflexivity.
Qed.

Lemma match_frame_refl w : match_frame w w.
Proof.
  split.
  - intros a o Ho. exists o. split; [exact Ho | apply obj_evolves_refl].
  - intros a o Ho Hl. apply lookup_lt_Some in Ho. lia.
Qed.

Lemma match_frame_trans w1 w2 w3 :
  match_frame w1 w2 -> match_frame w2 w3 -> match_frame w1 w3.
Proof.
  intros [H12 N12] [H23 N23]. split.
  - intros a o Ho. destruct (H12 a o Ho) as (o2 & Ho2 & E2).
    destruct (H23 a o2 Ho2) as (o3 & Ho3 & E3).
    exists o3. split; [exact Ho3 | eapply obj_evolves_trans; eassumption].
  - intros a o3 Ho3 Hl.
    destruct (heap w2 !! a) as [o2 |] eqn:Ho2.
    + pose proof (N12 a o2 Ho2 Hl) as ->.
      destruct (H23 a _ Ho2) as (o3' & Ho3' & E3).
      rewrite Ho3 in Ho3'. injection Ho3' as <-.
      apply obj_evolves_sink, E3.
    + apply N23; [exact Ho3 |]. apply lookup_ge_None, Ho2.
Qed.

Lemma match_frame_same_heap w w' : heap w' = heap w -> match_frame w w'.
Proof.
  intros H. destruct (match_frame_refl w) as [H1 H2].
  split; rewrite H; assumption.
Qed.

Lemma match_frame_new_TerminationState : always match_frame new_TerminationState.
Proof.
  intros w. simpl. split.
  - intros a o Ho. exists o.
    split; [apply lookup_app_l_Some, Ho | apply obj_evolves_refl].
  - intros a o' Ho' Hl. simpl in Ho'.
    apply lookup_snoc_Some in Ho' as [(Hlt & _) | (-> & <-)]; [lia | reflexivity].
Qed.

Lemma match_frame_insert w a o o' :
  heap w !! a = Some o -> obj_evolves o o' ->
  match_frame w (World (<[a := o']> (heap w)) (fsms w)).
Proof.
  intros Ho He. split; simpl.
  - intros b ob Hb. destruct (decide (a = b)) as [-> | Hne].
    + exists o'. split; [apply list_lookup_insert_eq; eapply lookup_lt_Some, Ho |].
      rewrite Ho in Hb. injection Hb as <-. exact He.
    + exists ob. split; [| apply obj_evolves_refl].
      rewrite list_lookup_insert_ne by exact Hne. exact Hb.
  - intros b ob Hb Hl. apply lookup_lt_Some in Hb.
    rewrite length_insert in Hb. lia.
Qed.

Lemma match_frame_set_minimum_check a :
  always match_frame (set_minimum_check a true).
Proof.
  intros w. unfold set_minimum_check, bind, get_obj.
  destruct (heap w !! a) as [o |] eqn:Ho; [| apply match_frame_refl].
  destruct (kind o) eqn:Ek; try apply match_frame_refl.
  simpl. apply (match_frame_insert w a o); [exact Ho |].
  split; [| split; reflexivity]. simpl. rewrite Ek.
  destruct minimum_check; [left; reflexivity | right; eauto].
Qed.

Lemma match_frame_set_curr_state self a :
  always match_frame (set_curr_state self a).
Proof. intros w. apply match_frame_same_heap. reflexivity. Qed.

Lemma fsms_frame_refl self w : fsms_frame self w w.
Proof. split; [reflexivity | intros p _; reflexivity]. Qed.

Lemma fsms_frame_trans self w1 w2 w3 :
  fsms_frame self w1 w2 -> fsms_frame self w2 w3 -> fsms_frame self w1 w3.
Proof.
  intros [L12 H12] [L23 H23]. split; [congruence |].
  intros p Hp. rewrite H23, H12 by exact Hp. reflexivity.
Qed.

Lemma fsms_frame_same_fsms self w w' : fsms w' = fsms w -> fsms_frame self w w'.
Proof. intros H. unfold fsms_frame. rewrite H. apply fsms_frame_refl. Qed.

Lemma fsms_frame_new_TerminationState self :
  always (fsms_frame self) new_TerminationState.
Proof. intros w. apply fsms_frame_same_fsms. reflexivity. Qed.

Lemma fsms_frame_set_minimum_check self a :
  always (fsms_frame self) (set_minimum_check a true).
Proof.
  intros w. apply fsms_frame_same_fsms.
  unfold set_minimum_check, bind, get_obj.
  destruct (heap w !! a) as [o |]; [| reflexivity].
  destruct (kind o); reflexivity.
Qed.

Lemma fsms_frame_set_curr_state self a :
  always (fsms_frame self) (set_curr_state self a).
Proof.
  intros w. split; simpl; [apply length_insert |].
  intros p Hp. apply list_lookup_insert_ne. congruence.
Qed.

(** X1: whatever its arguments and however it ends, a call of
    [check_string] leaves every object of the heap in place with its
    class, its [is_end] and its [next_states]; the only attribute it
    writes is [minimum_check], from [False] to [True]; the objects it
    makes are [TerminationState] objects; and it makes no [RegexFSM] and
    leaves the cursor of every other one alone. *)
Theorem check_string_keeps_graph fuel self reg_string w :
  match_frame w (world_after (RegexFSM.check_string fuel self reg_string) w) /\
  fsms_frame self w (world_after (RegexFSM.check_string fuel self reg_string) w).
Proof.
  split.
  - apply (always_check_string match_frame match_frame_refl match_frame_trans
             match_frame_new_TerminationState match_frame_set_minimum_check
             self (match_frame_set_curr_state self)).
  - apply (always_check_string (fsms_frame self) (fsms_frame_refl self)
             (fsms_frame_trans self) (fsms_frame_new_TerminationState self)
             (fsms_frame_set_minimum_check self)
             self (fsms_frame_set_curr_state self)).
Qed.

(** ** What a construction changes *)

Lemma obj_grows_refl o : obj_grows o o.
Proof.
  split; [apply kind_evolves_refl |].
  split; [exists []; symmetry; apply app_nil_r | left; reflexivity].
Qed.

Lemma obj_grows_trans o1 o2 o3 :
  obj_grows o1 o2 -> obj_grows o2 o3 -> obj_grows o1 o3.
Proof.
  intros (Hk & (m & Hn) & He) (Hk' & (m' & Hn') & He').
  split; [eapply kind_evolves_trans; eassumption |]. split.
  - exists (m ++ m'). rewrite Hn', Hn, app_assoc. reflexivity.
  - destruct He' as [He' | He']; [rewrite He'; exact He | right; exact He'].
Qed.

Lemma building_refl h : building h h.
Proof.
  split; [intros a o Ho _; exact Ho |].
  split; [intros o Ho; exists o; split; [exact Ho |]; split;
            [reflexivity | apply obj_grows_refl] |].
  split; [lia |].
  intros a o Ho Hl. apply lookup_lt_Some in Ho. lia.
Qed.

(** A new object. *)
Lemma building_snoc h0 h o :
  building h0 h -> kind o <> TerminationState ->
  (forall ck pv, kind o = StarState ck pv -> own (length h0) pv) ->
  building h0 (h ++ [o]).
Proof.
  intros (H1 & H2 & H3 & H4) Hk Hs.
  split; [intros a oa Ha Hne; apply lookup_app_l_Some; apply (H1 a oa Ha Hne) |].
  split.
  { intros o0 Ho0. destruct (H2 o0 Ho0) as (o' & Ho' & E).
    exists o'. split; [apply lookup_app_l_Some, Ho' | exact E]. }
  split; [rewrite length_app; simpl; lia |].
  intros a oa Ha Hl.
  apply lookup_snoc_Some in Ha as [(_ & Ha) | (_ & <-)].
  - apply (H4 a oa Ha Hl).
  - split; assumption.
Qed.

(** A write to an object the construction may write to. *)
Lemma building_insert h0 h a o o' :
  1 <= length h0 ->
  building h0 h -> h !! a = Some o -> own (length h0) a ->
  kind o' = kind o -> obj_grows o o' ->
  building h0 (<[a := o']> h).
Proof.
  intros Hpos (H1 & H2 & H3 & H4) Ho Ha Hk Hg.
  assert (Hlt : a < length h) by (eapply lookup_lt_Some, Ho).
  split.
  { intros b ob Hb Hne. rewrite list_lookup_insert_ne; [apply (H1 b ob Hb Hne) |].
    apply lookup_lt_Some in Hb. destruct Ha as [-> | Ha]; [congruence | lia]. }
  split.
  { intros o0 Ho0. destruct (H2 o0 Ho0) as (oc & Hoc & Hkc & Hgc).
    destruct (decide (a = START)) as [-> | Hne].
    - exists o'. split; [apply list_lookup_insert_eq, Hlt |].
      rewrite Ho in Hoc. injection Hoc as <-.
      split; [congruence | eapply obj_grows_trans; eassumption].
    - exists oc. split; [| split; assumption].
      rewrite list_lookup_insert_ne by exact Hne. exact Hoc. }
  split; [rewrite length_insert; exact H3 |].
  intros b ob Hb Hl.
  apply list_lookup_insert_Some in Hb as [(-> & <- & _) | (_ & Hb)].
  - destruct (H4 b o Ho Hl) as [Hn Hs]. rewrite Hk. split; assumption.
  - apply (H4 b ob Hb Hl).
Qed.

Lemma keeps_ret {A} (P : world -> Prop) (a : A) (Q : A -> Prop) :
  Q a -> keeps P (ret a) Q.
Proof.
  intros Hq w Hp. split; [exact Hp |].
  intros a' E. injection E as <-. exact Hq.
Qed.

Lemma keeps_raise {A} (P : world -> Prop) e (Q : A -> Prop) :
  keeps P (raise e) Q.
Proof. intros w Hp. split; [exact Hp | intros a E; discriminate]. Qed.

Lemma keeps_bind {A B} (P : world -> Prop) (m : M A) (f : A -> M B)
    (Q : A -> Prop) (Q' : B -> Prop) :
  keeps P m Q -> (forall a, Q a -> keeps P (f a) Q') -> keeps P (bind m f) Q'.
Proof.
  intros Hm Hf w Hp. unfold bind. destruct (Hm w Hp) as [Hp1 Hq].
  destruct (m w) as [[a | e | |] w1]; simpl in *;
    try (split; [exact Hp1 | intros b E; discriminate]).
  apply (Hf a (Hq a eq_refl) w1 Hp1).
Qed.

Lemma keeps_weaken {A} (P : world -> Prop) (m : M A) (Q Q' : A -> Prop) :
  keeps P m Q -> (forall a, Q a -> Q' a) -> keeps P m Q'.
Proof.
  intros Hm Hq w Hp. destruct (Hm w Hp) as [Hp1 H].
  split; [exact Hp1 | intros a E; apply Hq, H, E].
Qed.

Section Constructing.
Variable h0 : list obj.
Variable f0 : list (option addr).
Hypothesis Hstart : start_ok h0.

Lemma start_ok_length : 1 <= length h0.
Proof.
  destruct Hstart as (o & Ho & _). apply lookup_lt_Some in Ho.
  unfold START in Ho. lia.
Qed.

Lemma keeps_alloc (mk : addr -> obj) :
  (forall a, kind (mk a) <> TerminationState) ->
  (forall a ck pv, kind (mk a) = StarState ck pv -> own (length h0) pv) ->
  keeps (constructing h0 f0) (alloc mk) (own (length h0)).
Proof.
  intros Hk Hs w [Hb Hf]. simpl. split.
  - split; [| exact Hf]. simpl. apply building_snoc; [exact Hb | apply Hk | apply Hs].
  - intros a E. simpl in E. assert (a = length (heap w)) as -> by congruence.
    right. apply Hb.
Qed.

Lemma keeps_write a (upd : obj -> obj) :
  own (length h0) a ->
  (forall o, kind (upd o) = kind o /\ obj_grows o (upd o)) ->
  keeps (constructing h0 f0) (o ← get_obj a; put_obj a (upd o)) (fun _ => True).
Proof.
  intros Ha Hu w [Hb Hf]. unfold bind, get_obj.
  destruct (heap w !! a) as [o |] eqn:Ho; simpl.
  - split; [| intros _ _; exact I]. split; [| exact Hf]. simpl.
    destruct (Hu o) as [Hk Hg].
    apply (building_insert h0 (heap w) a o); auto using start_ok_length.
  - split; [split; assumption | intros ? E; discriminate].
Qed.

Lemma keeps_append_next_states a x :
  own (length h0) a -> keeps (constructing h0 f0) (append_next_states a x) (fun _ => True).
Proof.
  intros Ha. apply (keeps_write a (fun o => Obj (kind o) (is_end o) (next_states o ++ [x])) Ha).
  intros o. split; [reflexivity |].
  split; [apply kind_evolves_refl |].
  split; [exists [x]; reflexivity | left; reflexivity].
Qed.

Lemma keeps_mark a :
  own (length h0) a -> keeps (constructing h0 f0) (set_is_end a true) (fun _ => True).
Proof.
  intros Ha. apply (keeps_write a (fun o => Obj (kind o) (Some true) (next_states o)) Ha).
  intros o. split; [reflexivity |].
  split; [apply kind_evolves_refl |].
  split; [exists []; symmetry; apply app_nil_r | right; reflexivity].
Qed.

(** The class read from an object the construction may write to. *)
Lemma keeps_get_kind a :
  own (length h0) a ->
  keeps (constructing h0 f0) (get_kind a)
    (fun k => forall ck pv, k = StarState ck pv -> own (length h0) pv).
Proof.
  intros Ha w [Hb Hf]. unfold get_kind, bind, get_obj.
  destruct (heap w !! a) as [o |] eqn:Ho; simpl.
  2: { split; [split; assumption | intros ? E; discriminate]. }
  split; [split; assumption |].
  intros k E ck pv Ek. injection E as <-.
  destruct Hb as (_ & H2 & _ & H4).
  destruct Ha as [-> | Ha].
  - destruct Hstart as (os & Hos & Hks).
    destruct (H2 os Hos) as (o' & Ho' & Hk' & _).
    rewrite Ho in Ho'. injection Ho' as <-. congruence.
  - apply (proj2 (H4 a o Ho Ha) ck pv Ek).
Qed.

Lemma keeps_init_next_state token prev tmp :
  own (length h0) prev -> own (length h0) tmp ->
  keeps (constructing h0 f0) (RegexFSM.__init_next_state token prev tmp) (own (length h0)).
Proof.
  intros Hp Ht. unfold RegexFSM.__init_next_state.
  destruct (N.eqb token DOT);
    [apply keeps_alloc; [discriminate | discriminate] |].
  destruct (N.eqb token STAR).
  { apply keeps_alloc; [discriminate |].
    intros a ck pv E. simpl in E. injection E as _ <-. exact Hp. }
  destruct (N.eqb token PLUS).
  { unfold new_PlusState.
    eapply keeps_bind; [apply keeps_alloc; [discriminate | discriminate] |].
    intros self Hs.
    eapply keeps_bind; [| intros _ _; apply keeps_ret, Hs].
    apply keeps_alloc; [discriminate |].
    intros a ck pv E. simpl in E. injection E as _ <-. exact Ht. }
  destruct (isascii token);
    [apply keeps_alloc; [discriminate | discriminate] | apply keeps_raise].
Qed.

Lemma keeps_build regex_expr : forall prev tmp states,
  own (length h0) prev -> own (length h0) tmp -> Forall (own (length h0)) states ->
  keeps (constructing h0 f0) (RegexFSM.build regex_expr prev tmp states) (Forall (own (length h0))).
Proof.
  induction regex_expr as [| char rest IH]; intros prev tmp states Hp Ht Hs;
    cbn [RegexFSM.build]; [apply keeps_ret, Hs |].
  destruct (in_star_plus char); [apply IH; assumption |].
  eapply keeps_bind; [apply keeps_init_next_state; assumption |].
  intros a1 Ha1.
  eapply keeps_bind with (Q := own (length h0)).
  { destruct rest as [| q rest']; [apply keeps_ret, Ha1 |].
    destruct (in_star_plus q); [| apply keeps_ret, Ha1].
    apply keeps_init_next_state; assumption. }
  intros a2 Ha2.
  eapply keeps_bind; [apply keeps_append_next_states, Hp |].
  intros _ _.
  eapply keeps_bind; [apply keeps_get_kind, Hp |].
  intros k Hk.
  eapply keeps_bind with (Q := fun _ => True).
  { destruct k; try (apply keeps_ret; exact I).
    apply keeps_append_next_states. eapply Hk. reflexivity. }
  intros _ _.
  apply IH; try assumption.
  apply Forall_app. split; [exact Hs | constructor; [exact Ha2 | constructor]].
Qed.

Lemma keeps_mark_end l :
  Forall (own (length h0)) l -> keeps (constructing h0 f0) (RegexFSM.mark_end l) (fun _ => True).
Proof.
  induction 1 as [| a l Ha _ IH]; cbn [RegexFSM.mark_end];
    [apply keeps_ret; exact I |].
  unfold isinstance_StarState.
  eapply keeps_bind.
  { eapply keeps_bind; [apply keeps_get_kind, Ha |].
    intros k _. apply keeps_ret with (Q := fun _ => True). exact I. }
  intros st _.
  destruct st.
  - eapply keeps_bind; [apply keeps_mark, Ha | intros _ _; exact IH].
  - eapply keeps_bind; [apply keeps_mark, Ha |].
    intros _ _. apply keeps_ret. exact I.
Qed.

Lemma keeps_get_curr_state_fresh self :
  f0 !! self = Some None ->
  keeps (constructing h0 f0) (get_curr_state self) (fun a => a = START).
Proof.
  intros Hself w [Hb Hf]. unfold get_curr_state. rewrite Hf, Hself. simpl.
  split; [split; assumption |]. intros a E. congruence.
Qed.

Lemma keeps_init self regex_expr :
  f0 !! self = Some None ->
  keeps (constructing h0 f0) (RegexFSM.__init__ self regex_expr) (fun _ => True).
Proof.
  intros Hself. unfold RegexFSM.__init__.
  assert (H0 : own (length h0) START) by (left; reflexivity).
  eapply keeps_bind; [apply keeps_get_curr_state_fresh, Hself |].
  intros prev ->.
  eapply keeps_bind; [apply keeps_get_curr_state_fresh, Hself |].
  intros tmp ->.
  eapply keeps_bind; [apply keeps_get_curr_state_fresh, Hself |].
  intros curr ->.
  eapply keeps_bind.
  { apply keeps_build; try assumption. constructor; [exact H0 | constructor]. }
  intros states Hs.
  eapply keeps_bind; [apply keeps_mark_end, Forall_rev, Hs |].
  intros end_exists _.
  destruct (negb end_exists); [| apply keeps_ret; exact I].
  destruct (last states) as [a |] eqn:El; [| apply keeps_raise].
  apply keeps_mark. eapply Forall_forall; [exact Hs |].
  apply last_Some_elem_of, El.
Qed.

End Constructing.

Lemma new_frame_holds w regex_expr :
  start_ok (heap w) -> new_frame w (snd (RegexFSM.new regex_expr w)).
Proof.
  intros Hs. unfold RegexFSM.new.
  rewrite (bind_run_ret new_instance _ w (length (fsms w))
             (World (heap w) (fsms w ++ [None])) eq_refl).
  assert (Hk : keeps (constructing (heap w) (fsms w ++ [None]))
                 (RegexFSM.__init__ (length (fsms w)) regex_expr;;
                  ret (length (fsms w))) (fun _ => True)).
  { eapply keeps_bind; [apply keeps_init; [exact Hs |] |].
    - rewrite lookup_app_r by lia. rewrite Nat.sub_diag. reflexivity.
    - intros _ _. apply keeps_ret. exact I. }
  apply Hk. split; [apply building_refl | reflexivity].
Qed.

Lemma start_ok_initial : start_ok (heap initial).
Proof. eexists. split; reflexivity. Qed.

Lemma start_ok_match_frame w w' :
  match_frame w w' -> start_ok (heap w) -> start_ok (heap w').
Proof.
  intros [H _] (o & Ho & Hk). destruct (H START o Ho) as (o' & Ho' & Hke & _).
  exists o'. split; [exact Ho' |].
  destruct Hke as [E | (ck & lp & E & _)]; congruence.
Qed.

Lemma start_ok_new_frame w w' :
  new_frame w w' -> start_ok (heap w) -> start_ok (heap w').
Proof.
  intros [(_ & H & _) _] (o & Ho & Hk).
  destruct (H o Ho) as (o' & Ho' & Hk' & _).
  exists o'. split; [exact Ho' | congruence].
Qed.

Lemma match_frame_step fuel self c suffix w :
  match_frame w (snd (RegexFSM.step fuel self c suffix w)).
Proof.
  apply (always_step match_frame match_frame_refl match_frame_trans
           match_frame_new_TerminationState match_frame_set_minimum_check
           self (match_frame_set_curr_state self)).
Qed.

Lemma match_frame_check_string fuel self reg_string w :
  match_frame w (snd (RegexFSM.check_string fuel self reg_string w)).
Proof.
  apply (always_check_string match_frame match_frame_refl match_frame_trans
           match_frame_new_TerminationState match_frame_set_minimum_check
           self (match_frame_set_curr_state self)).
Qed.

Lemma reachable_start_ok w : reachable w -> start_ok (heap w).
Proof.
  induction 1 as [| regex_expr w _ IH | fuel self c suffix w _ IH
                 | fuel self reg_string w _ IH].
  - apply start_ok_initial.
  - eapply start_ok_new_frame; [apply new_frame_holds, IH | exact IH].
  - eapply start_ok_match_frame; [apply match_frame_step | exact IH].
  - eapply start_ok_match_frame; [apply match_frame_check_string | exact IH].
Qed.

(** X3: in every state a process goes through, the construction of a
    [RegexFSM], whether it returns or raises, leaves every object but the
    start object as it was; the start object keeps its class, gains
    successors at the end of [next_states], and has [is_end] set to [True]
    or left; the objects made are no [TerminationState]; and one
    [RegexFSM], without cursor of its own, is added to the instances. *)
Theorem new_changes_start_only w regex_expr :
  reachable w -> new_frame w (world_after (RegexFSM.new regex_expr) w).
Proof. intros Hw. apply new_frame_holds, reachable_start_ok, Hw. Qed.

Lemma new_changes_start_only_witness :
  new_frame initial (world_after (RegexFSM.new (str "a*b")) initial).
Proof. exact (new_changes_start_only initial (str "a*b") reachable_initial). Defined.

(** ** The cursor after a call *)

Lemma bind_ret_inv {A B} (m : M A) (f : A -> M B) w b w' :
  bind m f w = (Ret b, w') ->
  exists a w1, m w = (Ret a, w1) /\ f a w1 = (Ret b, w').
Proof.
  unfold bind. destruct (m w) as [[a | e | |] w1]; try discriminate.
  intros H. exists a, w1. split; [reflexivity | exact H].
Qed.

Lemma get_curr_state_inv self w a w' :
  get_curr_state self w = (Ret a, w') ->
  w' = w /\ self < length (fsms w).
Proof.
  unfold get_curr_state.
  destruct (fsms w !! self) as [[c |] |] eqn:E; try discriminate;
    intros H; injection H as _ <-;
    (split; [reflexivity | eapply lookup_lt_Some, E]).
Qed.

Lemma get_is_end_inv a w b w' : get_is_end a w = (Ret b, w') -> w' = w.
Proof.
  unfold get_is_end, bind, get_obj.
  destruct (heap w !! a) as [o |]; [| discriminate].
  destruct (is_end o); [| discriminate].
  intros H. injection H as _ <-. reflexivity.
Qed.

Lemma fsms_frame_run fuel self reg_string w :
  fsms_frame self w (snd (RegexFSM.run fuel self reg_string w)).
Proof.
  apply (always_run (fsms_frame self) (fsms_frame_refl self)
           (fsms_frame_trans self) (fsms_frame_new_TerminationState self)
           (fsms_frame_set_minimum_check self)
           self (fsms_frame_set_curr_state self)).
Qed.

(** X2: when a call of [check_string] returns, the cursor of the
    [RegexFSM] is the object it was before the call, whichever that was. *)
Theorem check_string_restores_cursor fuel self reg_string w b w' :
  RegexFSM.check_string fuel self reg_string w = (Ret b, w') ->
  exists a, get_curr_state self w = (Ret a, w) /\
            get_curr_state self w' = (Ret a, w').
Proof.
  unfold RegexFSM.check_string. intros H.
  apply bind_ret_inv in H as (a & w0 & Hc & H).
  destruct (get_curr_state_inv _ _ _ _ Hc) as [-> Hlt].
  apply bind_ret_inv in H as ([] & w1 & Hr & H).
  apply bind_ret_inv in H as (curr & w2 & Hc2 & H).
  destruct (get_curr_state_inv _ _ _ _ Hc2) as [-> _].
  apply bind_ret_inv in H as (r & w3 & He & H).
  apply get_is_end_inv in He as ->.
  apply bind_ret_inv in H as ([] & w4 & Hs & H).
  unfold set_curr_state in Hs. injection Hs as <-.
  injection H as _ <-.
  exists a. split; [exact Hc |].
  pose proof (fsms_frame_run fuel self reg_string w) as [Hl _].
  rewrite Hr in Hl. simpl in Hl.
  unfold get_curr_state. simpl.
  rewrite list_lookup_insert_eq by lia. reflexivity.
Qed.

Lemma check_string_restores_cursor_witness :
  exists a,
    get_curr_state 0 (world_after (RegexFSM.new (str "ab")) initial)
    = (Ret a, world_after (RegexFSM.new (str "ab")) initial) /\
    get_curr_state 0
      (world_after (RegexFSM.check_string 4 0 (str "ab"))
         (world_after (RegexFSM.new (str "ab")) initial))
    = (Ret a,
       world_after (RegexFSM.check_string 4 0 (str "ab"))
         (world_after (RegexFSM.new (str "ab")) initial)).
Proof.
  exact (check_string_restores_cursor 4 0 (str "ab")
           (world_after (RegexFSM.new (str "ab")) initial) true
           (world_after (RegexFSM.check_string 4 0 (str "ab"))
              (world_after (RegexFSM.new (str "ab")) initial))
           eq_refl).
Defined.

(** ** The graph over the life of a process *)

Lemma obj_evolves_grows o o' : obj_evolves o o' -> obj_grows o o'.
Proof.
  intros (Hk & He & Hn). split; [exact Hk |].
  split; [exists []; rewrite Hn, app_nil_r; reflexivity | left; exact He].
Qed.

Lemma match_frame_grows w w' a o :
  match_frame w w' -> heap w !! a = Some o ->
  exists o', heap w' !! a = Some o' /\ obj_grows o o'.
Proof.
  intros [H _] Ho. destruct (H a o Ho) as (o' & Ho' & E).
  exists o'. split; [exact Ho' | apply obj_evolves_grows, E].
Qed.

Lemma new_frame_grows w w' a o :
  new_frame w w' -> heap w !! a = Some o ->
  exists o', heap w' !! a = Some o' /\ obj_grows o o'.
Proof.
  intros [(H1 & H2 & _) _] Ho.
  destruct (decide (a = START)) as [-> | Hne].
  - destruct (H2 o Ho) as (o' & Ho' & _ & Hg). exists o'. split; assumption.
  - exists o. split; [apply H1; assumption | apply obj_grows_refl].
Qed.

Lemma later_reachable w w' : reachable w -> later w w' -> reachable w'.
Proof.
  intros Hw. induction 1; [exact Hw | | |]; constructor; assumption.
Qed.

(** X4: over the life of a process no object is deleted and none changes
    class; the successors of an object are only appended to; [is_end] is
    only set to [True]; [minimum_check] is only set to [True]. *)
Theorem graph_only_grows w w' a o :
  reachable w -> later w w' -> heap w !! a = Some o ->
  exists o', heap w' !! a = Some o' /\ obj_grows o o'.
Proof.
  intros Hw Hl Ho.
  induction Hl as [| regex_expr w' Hl IH | fuel self c suffix w' Hl IH
                  | fuel self reg_string w' Hl IH].
  - exists o. split; [exact Ho | apply obj_grows_refl].
  - destruct IH as (o1 & Ho1 & Hg1).
    destruct (new_frame_grows w' _ a o1
                (new_frame_holds w' regex_expr
                   (reachable_start_ok w' (later_reachable w w' Hw Hl))) Ho1)
      as (o2 & Ho2 & Hg2).
    exists o2. split; [exact Ho2 | eapply obj_grows_trans; eassumption].
  - destruct IH as (o1 & Ho1 & Hg1).
    destruct (match_frame_grows w' _ a o1
                (match_frame_step fuel self c suffix w') Ho1)
      as (o2 & Ho2 & Hg2).
    exists o2. split; [exact Ho2 | eapply obj_grows_trans; eassumption].
  - destruct IH as (o1 & Ho1 & Hg1).
    destruct (match_frame_grows w' _ a o1
                (match_frame_check_string fuel self reg_string w') Ho1)
      as (o2 & Ho2 & Hg2).
    exists o2. split; [exact Ho2 | eapply obj_grows_trans; eassumption].
Qed.

Lemma graph_only_grows_witness :
  exists o',
    heap (world_after (RegexFSM.check_string 4 0 (str "a"))
            (world_after (RegexFSM.new (str "a+")) initial)) !! 2 = Some o' /\
    obj_grows (Obj (PlusState 1 3 false) (Some true) []) o'.
Proof.
  apply (graph_only_grows (world_after (RegexFSM.new (str "a+")) initial)).
  - apply reachable_new, reachable_initial.
  - apply later_check_string, later_now.
  - reflexivity.
Defined.

(** ** Patterns without quantifier *)

Lemma is_atom_inv c :
  is_atom c = true -> isascii c = true /\ in_star_plus c = false /\
  N.eqb c STAR = false /\ N.eqb c PLUS = false.
Proof.
  unfold is_atom. intros H. apply andb_true_iff in H as [Ha Hq].
  apply negb_true_iff in Hq. split; [exact Ha |]. split; [exact Hq |].
  unfold in_star_plus in Hq. apply orb_false_iff in Hq. exact Hq.
Qed.

Lemma atom_kind_plain c : is_plain (atom_kind c) = true.
Proof. unfold atom_kind. destruct (N.eqb c DOT); reflexivity. Qed.

Lemma is_plain_not_star k : is_plain k = true -> is_StarState k = false.
Proof. destruct k; simpl; congruence. Qed.

Lemma init_atom c prev tmp w :
  is_atom c = true ->
  RegexFSM.__init_next_state c prev tmp w
  = (Ret (length (heap w)), World (heap w ++ [new_atom c]) (fsms w)).
Proof.
  intros H. destruct (is_atom_inv c H) as (Ha & _ & Hs & Hp).
  unfold RegexFSM.__init_next_state, new_atom, atom_kind.
  destruct (N.eqb c DOT); [reflexivity |].
  rewrite Hs, Hp, Ha. reflexivity.
Qed.

Lemma append_next_states_exact w a o x :
  heap w !! a = Some o ->
  append_next_states a x w
  = (Ret tt,
     World (<[a := Obj (kind o) (is_end o) (next_states o ++ [x])]> (heap w))
           (fsms w)).
Proof.
  intros Ho. unfold append_next_states.
  rewrite (bind_run_ret _ _ _ _ _ (get_obj_run w a o Ho)). reflexivity.
Qed.

Lemma set_is_end_exact w a o :
  heap w !! a = Some o ->
  set_is_end a true w = (Ret tt, World (<[a := set_end o]> (heap w)) (fsms w)).
Proof.
  intros Ho. unfold set_is_end.
  rewrite (bind_run_ret _ _ _ _ _ (get_obj_run w a o Ho)). reflexivity.
Qed.

Lemma lookahead_plain rest prev a w :
  forallb is_atom rest = true ->
  match rest with
  | q :: _ =>
      if in_star_plus q then RegexFSM.__init_next_state q prev a else ret a
  | [] => ret a
  end w = (Ret a, w).
Proof.
  destruct rest as [| q rest]; [reflexivity |]. simpl. intros H.
  apply andb_true_iff in H as [Hq _].
  destruct (is_atom_inv q Hq) as (_ & -> & _). reflexivity.
Qed.

Lemma build_plain rest : forall H P tmp states f,
  forallb is_atom rest = true -> is_StarState (kind P) = false ->
  RegexFSM.build rest (length H) tmp states (World (H ++ [P]) f)
  = (Ret (states ++ seq (S (length H)) (length rest)),
     World (H ++ linked P rest (length H) :: raw_nodes rest (S (length H))) f).
Proof.
  induction rest as [| c rest IH]; intros H P tmp states f Hp HP.
  { simpl. unfold ret, linked. simpl. rewrite !app_nil_r.
    destruct P; reflexivity. }
  simpl in Hp. apply andb_true_iff in Hp as [Hc Hrest].
  destruct (is_atom_inv c Hc) as (_ & Hq & _).
  cbn [RegexFSM.build]. rewrite Hq.
  rewrite (bind_run_ret _ _ _ _ _ (init_atom c (length H) tmp _ Hc)).
  cbn [heap fsms].
  rewrite (bind_run_ret _ _ _ _ _ (lookahead_plain rest (length H) _ _ Hrest)).
  assert (Hlen : length (H ++ [P]) = S (length H))
    by (rewrite length_app; simpl; lia).
  rewrite Hlen.
  assert (HP' : ((H ++ [P]) ++ [new_atom c]) !! length H = Some P).
  { rewrite lookup_app_l by lia. apply list_lookup_middle. reflexivity. }
  rewrite (bind_run_ret _ _ _ _ _
             (append_next_states_exact (World _ f) (length H) P _ HP')).
  cbn [heap fsms].
  rewrite insert_app_l by lia.
  replace (<[length H := Obj (kind P) (is_end P) (next_states P ++ [S (length H)])]>
             (H ++ [P]))
    with (H ++ [linked P (c :: rest) (length H)]).
  2: { rewrite <- (Nat.add_0_r (length H)) at 2. rewrite insert_app_r. reflexivity. }
  set (P' := linked P (c :: rest) (length H)).
  assert (HP'' : ((H ++ [P']) ++ [new_atom c]) !! length H = Some P').
  { rewrite lookup_app_l by (rewrite length_app; simpl; lia).
    apply list_lookup_middle. reflexivity. }
  rewrite (bind_run_ret _ _ _ _ _ (get_kind_run (World _ f) (length H) P' HP'')).
  replace (match kind P' with
           | StarState _ pp => append_next_states pp (S (length H))
           | _ => ret tt
           end) with (@ret unit tt).
  2: { unfold P'. simpl. destruct (kind P); try reflexivity. discriminate. }
  rewrite (bind_run_ret _ _ _ _ _ (eq_refl : ret tt (World _ f) = (Ret tt, World _ f))).
  assert (Hlen' : length (H ++ [P']) = S (length H))
    by (rewrite length_app; simpl; lia).
  rewrite <- Hlen' at 1 2.
  rewrite (IH (H ++ [P']) (new_atom c) _ _ f Hrest
             (is_plain_not_star _ (atom_kind_plain c))).
  rewrite Hlen'. simpl. rewrite <- !app_assoc. reflexivity.
Qed.

Lemma mark_last rest : forall o a,
  is_StarState (kind o) = false ->
  exists ol,
    (linked o rest a :: raw_nodes rest (S a)) !! length rest = Some ol /\
    is_StarState (kind ol) = false /\
    <[length rest := set_end ol]> (linked o rest a :: raw_nodes rest (S a))
    = marked o rest a :: chain_nodes rest (S a).
Proof.
  induction rest as [| c rest IH]; intros o a Ho.
  { exists (linked o [] a). split; [reflexivity |]. split; [exact Ho | reflexivity]. }
  destruct (IH (new_atom c) (S a) (is_plain_not_star _ (atom_kind_plain c)))
    as (ol & Hl & Hk & Hi).
  exists ol. split; [exact Hl |]. split; [exact Hk |].
  cbn [length raw_nodes chain_nodes]. 
  change (<[S (length rest) := set_end ol]>
            (linked o (c :: rest) a
             :: linked (new_atom c) rest (S a) :: raw_nodes rest (S (S a))))
    with (linked o (c :: rest) a
          :: <[length rest := set_end ol]>
               (linked (new_atom c) rest (S a) :: raw_nodes rest (S (S a)))).
  rewrite Hi. unfold marked, linked, node_of, new_atom. simpl.
  destruct rest; reflexivity.
Qed.

Lemma mark_end_last l a w o :
  heap w !! a = Some o -> is_StarState (kind o) = false ->
  RegexFSM.mark_end (rev (l ++ [a])) w
  = (Ret true, World (<[a := set_end o]> (heap w)) (fsms w)).
Proof.
  intros Ho Hk. rewrite rev_unit. cbn [RegexFSM.mark_end].
  rewrite (bind_run_ret _ _ _ _ _ (isinstance_StarState_run w a o Ho)).
  rewrite Hk.
  rewrite (bind_run_ret _ _ _ _ _ (set_is_end_exact w a o Ho)).
  reflexivity.
Qed.

Lemma new_plain p :
  forallb is_atom p = true ->
  RegexFSM.new p initial = (Ret 0, World (plain_heap p) [None]).
Proof.
  intros Hp. unfold RegexFSM.new.
  set (w0 := World [Obj StartState None []] [None]).
  rewrite (bind_run_ret new_instance _ initial 0 w0 eq_refl).
  unfold RegexFSM.__init__.
  rewrite bind_assoc.
  rewrite (bind_run_ret (get_curr_state 0) _ w0 START w0 eq_refl).
  rewrite bind_assoc.
  rewrite (bind_run_ret (get_curr_state 0) _ w0 START w0 eq_refl).
  rewrite bind_assoc.
  rewrite (bind_run_ret (get_curr_state 0) _ w0 START w0 eq_refl).
  rewrite bind_assoc.
  pose proof (build_plain p [] (Obj StartState None []) START [START] [None]
                Hp eq_refl) as Hb.
  simpl in Hb. unfold START at 1 2 3.
  rewrite (bind_run_ret _ _ _ _ _ Hb).
  destruct (mark_last p (Obj StartState None []) 0 eq_refl) as (ol & Hl & Hk & Hi).
  assert (Hseq : START :: seq 1 (length p) = seq 0 (length p) ++ [length p])
    by (rewrite <- seq_S; reflexivity).
  rewrite Hseq, bind_assoc.
  rewrite (bind_run_ret _ _ _ _ _
             (mark_end_last (seq 0 (length p)) (length p) (World _ [None]) ol Hl Hk)).
  cbn [heap fsms]. rewrite Hi. reflexivity.
Qed.

Lemma check_self_atom w a o x d c :
  heap w !! a = Some o -> kind o = atom_kind x ->
  check_self (S d) a c w = (Ret (atom_accepts x c), w).
Proof.
  intros Ho Hk. rewrite check_self_S.
  rewrite (bind_run_ret _ _ _ _ _ (get_kind_run w a o Ho)). rewrite Hk.
  unfold atom_kind, atom_accepts. destruct (N.eqb x DOT); reflexivity.
Qed.

Lemma is_StarState_atom x : is_StarState (atom_kind x) = false.
Proof. apply is_plain_not_star, atom_kind_plain. Qed.

(** [check_next] of the start object or of an atom, with one successor
    that is an atom. *)
Lemma check_next_plain w a cur b nxt x d c :
  heap w !! a = Some cur -> is_plain (kind cur) = true ->
  next_states cur = [b] ->
  heap w !! b = Some nxt -> kind nxt = atom_kind x ->
  check_next (S (S d)) a c w
  = if atom_accepts x c then (Ret b, w) else new_TerminationState w.
Proof.
  intros Ha Hp Hn Hb Hk. rewrite check_next_S.
  rewrite (bind_run_ret _ _ _ _ _ (get_kind_run w a cur Ha)).
  pose proof (check_self_atom w b nxt x d c Hb Hk) as Hs.
  pose proof (isinstance_StarState_run w b nxt Hb) as Hi.
  rewrite Hk, is_StarState_atom in Hi.
  destruct (kind cur) eqn:Ek; try discriminate.
  - unfold StartState_check_next.
    rewrite (bind_run_ret _ _ _ _ _ (get_next_states_run w a cur Ha)), Hn.
    cbn [for_return].
    rewrite bind_assoc, (bind_run_ret _ _ _ _ _ Hs).
    destruct (atom_accepts x c); reflexivity.
  - unfold DotState_check_next.
    rewrite (bind_run_ret _ _ _ _ _ (get_next_states_run w a cur Ha)), Hn.
    cbn [for_return].
    rewrite bind_assoc, (bind_run_ret _ _ _ _ _ Hs).
    destruct (atom_accepts x c); [reflexivity |].
    rewrite bind_assoc, (bind_run_ret _ _ _ _ _ Hi). reflexivity.
  - unfold AsciiState_check_next.
    rewrite (bind_run_ret _ _ _ _ _ (get_next_states_run w a cur Ha)), Hn.
    cbn [for_return].
    rewrite bind_assoc, (bind_run_ret _ _ _ _ _ Hi).
    rewrite bind_assoc, (bind_run_ret _ _ _ _ _ Hs).
    destruct (atom_accepts x c); reflexivity.
Qed.

(** [check_next] of the start object or of an atom without successor. *)
Lemma check_next_alone w a cur d c :
  heap w !! a = Some cur -> is_plain (kind cur) = true ->
  next_states cur = [] ->
  check_next (S d) a c w = new_TerminationState w.
Proof.
  intros Ha Hp Hn. rewrite check_next_S.
  rewrite (bind_run_ret _ _ _ _ _ (get_kind_run w a cur Ha)).
  destruct (kind cur) eqn:Ek; try discriminate;
    unfold StartState_check_next, DotState_check_next, AsciiState_check_next;
    rewrite (bind_run_ret _ _ _ _ _ (get_next_states_run w a cur Ha)), Hn;
    reflexivity.
Qed.

Lemma step_plain fuel self c suffix w a cur :
  get_curr_state self w = (Ret a, w) ->
  heap w !! a = Some cur -> is_plain (kind cur) = true ->
  RegexFSM.step fuel self c suffix w
  = bind (check_next fuel a c) (fun r => set_curr_state self r) w.
Proof.
  intros Hc Ha Hp. unfold RegexFSM.step.
  rewrite (bind_run_ret _ _ _ _ _ Hc).
  assert (Hw : RegexFSM.on_wildcard_loop a w = (Ret false, w)).
  { unfold RegexFSM.on_wildcard_loop.
    rewrite (bind_run_ret _ _ _ _ _ (get_kind_run w a cur Ha)).
    destruct (kind cur); try discriminate; reflexivity. }
  rewrite (bind_run_ret _ _ _ _ _ Hw).
  rewrite (bind_run_ret _ _ _ _ _ Hc). reflexivity.
Qed.

(** One turn of the loop with the cursor on the start object or on an
    atom, followed by the atoms of [rest]. *)
Lemma plain_turn d self c suffix w a cur rest :
  get_curr_state self w = (Ret a, w) ->
  heap w !! a = Some cur -> is_plain (kind cur) = true ->
  next_states cur = succ_of rest a -> chain_at (heap w) a rest ->
  RegexFSM.step (S (S d)) self c suffix w
  = (Ret tt,
     match rest with
     | x :: _ =>
         if atom_accepts x c
         then World (heap w) (<[self := Some (S a)]> (fsms w))
         else rejected self w
     | [] => rejected self w
     end).
Proof.
  intros Hc Ha Hp Hn Hch.
  rewrite (step_plain _ _ _ _ _ a cur Hc Ha Hp).
  destruct rest as [| x rest].
  - rewrite (bind_run_ret _ _ _ _ _ (check_next_alone w a cur _ c Ha Hp Hn)).
    reflexivity.
  - destruct Hch as [Hb _].
    unfold bind.
    rewrite (check_next_plain w a cur (S a) _ x d c Ha Hp Hn Hb eq_refl).
    destruct (atom_accepts x c); reflexivity.
Qed.

Lemma rejected_finish d self reg_string w :
  self < length (fsms w) ->
  finish (S (S d)) self reg_string (rejected self w)
  = (Ret false, rejected self w).
Proof.
  intros Hlt. apply (sink_finish _ self (length (heap w))).
  - simpl. apply list_lookup_insert_eq, Hlt.
  - simpl. apply list_lookup_middle. reflexivity.
Qed.

Lemma get_curr_state_lt self w a :
  get_curr_state self w = (Ret a, w) -> self < length (fsms w).
Proof.
  unfold get_curr_state.
  destruct (fsms w !! self) as [o |] eqn:E; [| discriminate].
  intros _. eapply lookup_lt_Some, E.
Qed.

Lemma plain_finish d self reg_string : forall rest a cur w,
  fsms w !! self = Some (Some a) ->
  heap w !! a = Some cur -> is_plain (kind cur) = true ->
  next_states cur = succ_of rest a -> is_end cur = Some (is_nil rest) ->
  chain_at (heap w) a rest ->
  fst (finish (S (S d)) self reg_string w) = Ret (plain_matches rest reg_string).
Proof.
  induction reg_string as [| c s IH]; intros rest a cur w Hs Ha Hp Hn He Hch.
  { unfold finish. cbn [RegexFSM.run].
    rewrite (bind_run_ret _ _ _ _ _ (eq_refl : ret tt w = (Ret tt, w))).
    rewrite (bind_run_ret _ _ _ _ _ (get_curr_state_run w self a Hs)).
    unfold get_is_end.
    rewrite (bind_run_ret _ _ _ _ _ (get_obj_run w a cur Ha)), He.
    destruct rest; reflexivity. }
  pose proof (get_curr_state_run w self a Hs) as Hc.
  pose proof (get_curr_state_lt self w a Hc) as Hlt.
  rewrite (finish_cons _ _ _ _ _ _
             (plain_turn d self c (c :: s) w a cur rest Hc Ha Hp Hn Hch)).
  destruct rest as [| x rest].
  { rewrite rejected_finish by exact Hlt. reflexivity. }
  cbn [plain_matches]. destruct (atom_accepts x c).
  - destruct Hch as [Hb Hch].
    apply (IH rest (S a) (node_of x rest (S a))).
    + simpl. apply list_lookup_insert_eq, Hlt.
    + exact Hb.
    + apply atom_kind_plain.
    + reflexivity.
    + reflexivity.
    + exact Hch.
  - rewrite rejected_finish by exact Hlt. reflexivity.
Qed.

Lemma chain_at_nodes rest : forall H o tail,
  chain_at ((H ++ o :: chain_nodes rest (S (length H))) ++ tail) (length H) rest.
Proof.
  induction rest as [| x rest IH]; intros H o tail; [exact I |].
  cbn [chain_at chain_nodes].
  assert (Hlen : length (H ++ [o]) = S (length H))
    by (rewrite length_app; simpl; lia).
  assert (Heq : H ++ o :: node_of x rest (S (length H))
                       :: chain_nodes rest (S (S (length H)))
                = (H ++ [o]) ++ node_of x rest (S (length H))
                       :: chain_nodes rest (S (S (length H))))
    by (rewrite <- app_assoc; reflexivity).
  rewrite Heq. split.
  - rewrite <- app_assoc. apply list_lookup_middle. symmetry. exact Hlen.
  - specialize (IH (H ++ [o]) (node_of x rest (S (length H))) tail).
    rewrite Hlen in IH. exact IH.
Qed.

Lemma plain_semantics d p reg_string :
  forallb is_atom p = true ->
  result_of (compile_and_check (S (S d)) p reg_string) initial
  = match reg_string with
    | [] => if is_nil p then Ret true else Raise (AttributeError "is_end")
    | _ :: _ => Ret (plain_matches p reg_string)
    end.
Proof.
  intros Hp. unfold compile_and_check, result_of.
  rewrite (bind_run_ret _ _ _ _ _ (new_plain p Hp)).
  set (w := World (plain_heap p) [None]).
  change (result_of (RegexFSM.check_string (S (S d)) 0 reg_string) w = 
          match reg_string with
          | [] => if is_nil p then Ret true else Raise (AttributeError "is_end")
          | _ :: _ => Ret (plain_matches p reg_string)
          end).
  rewrite (check_string_result _ 0 _ w START eq_refl).
  destruct reg_string as [| c s].
  { destruct p; reflexivity. }
  assert (Hch : chain_at (heap w) 0 p).
  { pose proof (chain_at_nodes p [] (Obj StartState (if is_nil p then Some true else None) (succ_of p 0)) []) as H.
    simpl in H. rewrite app_nil_r in H. exact H. }
  rewrite (finish_cons _ _ _ _ _ _
             (plain_turn d 0 c (c :: s) w 0 _ p eq_refl eq_refl eq_refl eq_refl Hch)).
  destruct p as [| x p].
  { rewrite rejected_finish by (simpl; lia). reflexivity. }
  cbn [plain_matches]. destruct (atom_accepts x c).
  - destruct Hch as [Hb Hch].
    assert (Hs : fsms (World (heap w) (<[0 := Some 1]> (fsms w))) !! 0
                 = Some (Some 1)) by reflexivity.
    apply (plain_finish d 0 s p 1 (node_of x p 1) _ Hs Hb
             (atom_kind_plain x) eq_refl eq_refl Hch).
  - rewrite rejected_finish by (simpl; lia). reflexivity.
Qed.

(** X5: for a pattern without quantifier, a sequence of ASCII characters
    other than [*] and [+], compiled in a fresh process: a string that is
    not empty is accepted exactly when it has the length of the pattern
    and each character is the character of the pattern at its place, or
    stands where the pattern has [.]; the empty string is accepted by the
    empty pattern and raises [AttributeError] on any other, because the
    start object has no [is_end]. *)
Theorem plain_pattern_semantics n p reg_string :
  forallb is_atom p = true ->
  result_of (compile_and_check (n + 2) p reg_string) initial
  = match reg_string with
    | [] => if is_nil p then Ret true else Raise (AttributeError "is_end")
    | _ :: _ => Ret (plain_matches p reg_string)
    end.
Proof.
  replace (n + 2) with (S (S n)) by lia. apply plain_semantics.
Qed.

Lemma plain_pattern_semantics_witness :
  result_of (compile_and_check 2 (str "a.c") (str "abc")) initial = Ret true.
Proof.
  exact (plain_pattern_semantics 0 (str "a.c") (str "abc") eq_refl).
Defined.

(** ** A quantified [.] before literals *)

Lemma str_eqb_eq a : forall b, str_eqb a b = true <-> a = b.
Proof.
  induction a as [| x a IH]; intros [| y b]; simpl; split; try congruence.
  - intros H. apply andb_true_iff in H as [Hx Hr].
    apply N.eqb_eq in Hx. apply IH in Hr. congruence.
  - intros H. injection H as -> ->. rewrite N.eqb_refl. simpl. apply IH. reflexivity.
Qed.

Lemma str_eqb_length a : forall b, str_eqb a b = true -> length a = length b.
Proof. intros b H. apply str_eqb_eq in H. congruence. Qed.

(** The slice [reg_string[i: i + 1 + len(exit_phrase)]] equals
    [exit_phrase] exactly when the whole rest of the input does. *)
Lemma str_eqb_take s l :
  str_eqb (take (1 + length l) s) l = str_eqb s l.
Proof.
  destruct (str_eqb s l) eqn:E.
  - apply str_eqb_eq in E as ->. rewrite take_ge by lia. apply str_eqb_eq. reflexivity.
  - destruct (str_eqb (take (1 + length l) s) l) eqn:E'; [| reflexivity].
    apply str_eqb_eq in E'.
    assert (Hl : length (take (1 + length l) s) = length l) by congruence.
    rewrite length_take in Hl.
    rewrite take_ge in E' by lia. subst. 
    assert (str_eqb l l = true) by (apply str_eqb_eq; reflexivity). congruence.
Qed.

Lemma is_literal_atom x : is_literal x = true -> is_atom x = true.
Proof.
  unfold is_literal, is_atom. intros H.
  apply andb_true_iff in H as [H Hq]. apply andb_true_iff in H as [Ha _].
  rewrite Ha, Hq. reflexivity.
Qed.

Lemma literals_atoms l :
  forallb is_literal l = true -> forallb is_atom l = true.
Proof.
  induction l as [| x l IH]; simpl; [reflexivity |]. intros H.
  apply andb_true_iff in H as [Hx Hl].
  rewrite (is_literal_atom x Hx), (IH Hl). reflexivity.
Qed.

Lemma atom_kind_literal x : is_literal x = true -> atom_kind x = AsciiState x.
Proof.
  intros H. destruct (is_literal_inv x H) as (_ & Hd & _).
  unfold atom_kind. rewrite Hd. reflexivity.
Qed.

Lemma plain_matches_refl l :
  forallb is_literal l = true -> plain_matches l l = true.
Proof.
  induction l as [| x l IH]; simpl; [reflexivity |]. intros H.
  apply andb_true_iff in H as [_ Hl]. unfold atom_accepts.
  rewrite N.eqb_refl, orb_true_r. simpl. apply IH, Hl.
Qed.

(** The [while True] loop along literal nodes gathers their characters:
    [cur_next] is the node at [a], followed by the nodes of [rest]. *)
Lemma while_true_chain rest : forall n a cur exit_phrase w,
  forallb is_literal rest = true ->
  heap w !! a = Some cur -> next_states cur = succ_of rest a ->
  chain_at (heap w) a rest ->
  RegexFSM.while_true (S (length rest + n)) a exit_phrase w
  = (Ret (exit_phrase ++ rest), w).
Proof.
  induction rest as [| x rest IH]; intros n a cur exit_phrase w Hl Ha Hn Hch.
  { cbn [RegexFSM.while_true].
    rewrite (bind_run_ret _ _ _ _ _ (get_next_states_run w a cur Ha)), Hn.
    cbn [succ_of RegexFSM.collect].
    rewrite (bind_run_ret _ _ w (a, exit_phrase) w eq_refl).
    rewrite (bind_run_ret _ _ _ _ _ (get_next_states_run w a cur Ha)), Hn.
    rewrite app_nil_r. reflexivity. }
  simpl in Hl. apply andb_true_iff in Hl as [Hx Hl].
  destruct Hch as [Hb Hch].
  cbn [length Nat.add RegexFSM.while_true].
  rewrite (bind_run_ret _ _ _ _ _ (get_next_states_run w a cur Ha)), Hn.
  assert (Hc : RegexFSM.collect [S a] a exit_phrase w
               = (Ret (S a, exit_phrase ++ [x]), w)).
  { cbn [RegexFSM.collect].
    rewrite (bind_run_ret _ _ _ _ _ (get_kind_run w (S a) _ Hb)).
    cbn [kind node_of]. rewrite (atom_kind_literal x Hx).
    rewrite (bind_run_ret _ _ _ _ _ (get_next_states_run w (S a) _ Hb)).
    cbn [next_states node_of]. destruct rest; reflexivity. }
  cbn [succ_of]. rewrite (bind_run_ret _ _ _ _ _ Hc).
  rewrite (bind_run_ret _ _ _ _ _ (get_next_states_run w (S a) _ Hb)).
  cbn [next_states node_of].
  destruct rest as [| y rest].
  { cbn [succ_of]. reflexivity. }
  cbn [succ_of].
  change (RegexFSM.while_true (S (length (y :: rest) + n)) (S a)
            (exit_phrase ++ [x]) w
          = (Ret (exit_phrase ++ x :: y :: rest), w)).
  rewrite (IH n (S a) _ (exit_phrase ++ [x]) w Hl Hb eq_refl Hch).
  rewrite <- app_assoc. reflexivity.
Qed.

Lemma while_true_chain_fuel fuel rest a cur exit_phrase w :
  length rest < fuel ->
  forallb is_literal rest = true ->
  heap w !! a = Some cur -> next_states cur = succ_of rest a ->
  chain_at (heap w) a rest ->
  RegexFSM.while_true fuel a exit_phrase w = (Ret (exit_phrase ++ rest), w).
Proof.
  intros Hf. replace fuel with (S (length rest + (fuel - S (length rest)))) by lia.
  apply while_true_chain.
Qed.

(** One turn of the loop with the cursor on a quantified [.] whose first
    successor is the literal [x], followed by the literals [rest]: the
    cursor goes to that successor when the input left is exactly these
    literals, and nothing changes otherwise. *)
Lemma wild_turn fuel self c suffix w a o n x rest more :
  length rest < fuel ->
  forallb is_literal (x :: rest) = true ->
  fsms w !! self = Some (Some a) ->
  RegexFSM.on_wildcard_loop a w = (Ret true, w) ->
  heap w !! a = Some o -> next_states o = n :: more ->
  heap w !! n = Some (node_of x rest n) -> chain_at (heap w) n rest ->
  RegexFSM.step fuel self c suffix w
  = (Ret tt,
     if str_eqb suffix (x :: rest)
     then World (heap w) (<[self := Some n]> (fsms w))
     else w).
Proof.
  intros Hf Hl Hs Hw Ha Hn Hb Hch.
  simpl in Hl. apply andb_true_iff in Hl as [Hx Hl].
  pose proof (get_curr_state_run w self a Hs) as Hc.
  unfold RegexFSM.step.
  rewrite (bind_run_ret _ _ _ _ _ Hc), (bind_run_ret _ _ _ _ _ Hw).
  rewrite (bind_run_ret _ _ _ _ _ (get_next_states_run w a o Ha)), Hn.
  assert (Hsym : get_curr_sym n w = (Ret x, w)).
  { unfold get_curr_sym.
    rewrite (bind_run_ret _ _ _ _ _ (get_kind_run w n _ Hb)).
    cbn [kind node_of]. rewrite (atom_kind_literal x Hx). reflexivity. }
  rewrite (bind_run_ret _ _ _ _ _ Hsym).
  rewrite (bind_run_ret _ _ _ _ _
             (while_true_chain_fuel fuel rest n _ [x] w Hf Hl Hb eq_refl Hch)).
  change ([x] ++ rest) with (x :: rest).
  rewrite str_eqb_take.
  destruct (str_eqb suffix (x :: rest)); [| reflexivity].
  rewrite (bind_run_ret _ _ _ _ _ Hc).
  rewrite (bind_run_ret _ _ _ _ _ (get_next_states_run w a o Ha)), Hn.
  reflexivity.
Qed.

Lemma wild_finish d self x rest reg_string : forall w a o n more,
  length rest < S (S d) ->
  forallb is_literal (x :: rest) = true ->
  fsms w !! self = Some (Some a) ->
  RegexFSM.on_wildcard_loop a w = (Ret true, w) ->
  heap w !! a = Some o -> next_states o = n :: more ->
  is_end o = Some false ->
  heap w !! n = Some (node_of x rest n) -> chain_at (heap w) n rest ->
  fst (finish (S (S d)) self reg_string w)
  = Ret (has_suffix reg_string (x :: rest)).
Proof.
  induction reg_string as [| c s IH]; intros w a o n more Hf Hl Hs Hw Ha Hn He Hb Hch.
  { unfold finish. cbn [RegexFSM.run].
    rewrite (bind_run_ret _ _ w tt w eq_refl).
    rewrite (bind_run_ret _ _ _ _ _ (get_curr_state_run w self a Hs)).
    unfold get_is_end.
    rewrite (bind_run_ret _ _ _ _ _ (get_obj_run w a o Ha)), He. reflexivity. }
  rewrite (finish_cons _ _ _ _ _ _
             (wild_turn (S (S d)) self c (c :: s) w a o n x rest more
                Hf Hl Hs Hw Ha Hn Hb Hch)).
  cbn [has_suffix].
  destruct (str_eqb (c :: s) (x :: rest)) eqn:E.
  - apply str_eqb_eq in E. injection E as -> ->.
    simpl in Hl. apply andb_true_iff in Hl as [Hx Hl].
    erewrite (plain_finish d self rest rest n (node_of x rest n)).
    + rewrite (plain_matches_refl rest Hl). reflexivity.
    + simpl. apply list_lookup_insert_eq. eapply lookup_lt_Some, Hs.
    + exact Hb.
    + apply atom_kind_plain.
    + reflexivity.
    + reflexivity.
    + exact Hch.
  - simpl. eapply IH; eassumption.
Qed.

Lemma bind_eq {A B} (m m' : M A) (k : A -> M B) w w' :
  m w = m' w' -> bind m k w = bind m' k w'.
Proof. intros H. unfold bind. rewrite H. reflexivity. Qed.

(** One turn of the loop of [__init__] for an atom that no quantifier
    follows, when [prev_state] is no [StarState]. *)
Lemma build_link c rest prev tmp states w P :
  is_atom c = true -> forallb is_atom rest = true ->
  heap w !! prev = Some P -> is_StarState (kind P) = false ->
  RegexFSM.build (c :: rest) prev tmp states w
  = RegexFSM.build rest (length (heap w)) (length (heap w))
      (states ++ [length (heap w)])
      (World (<[prev := Obj (kind P) (is_end P)
                           (next_states P ++ [length (heap w)])]> (heap w)
              ++ [new_atom c]) (fsms w)).
Proof.
  intros Hc Hrest HP Hk.
  destruct (is_atom_inv c Hc) as (_ & Hq & _).
  assert (Hlt : prev < length (heap w)) by (eapply lookup_lt_Some, HP).
  cbn [RegexFSM.build]. rewrite Hq.
  rewrite (bind_run_ret _ _ _ _ _ (init_atom c prev tmp w Hc)).
  rewrite (bind_run_ret _ _ _ _ _ (lookahead_plain rest prev _ _ Hrest)).
  assert (HP' : heap (World (heap w ++ [new_atom c]) (fsms w)) !! prev = Some P)
    by (apply lookup_app_l_Some, HP).
  rewrite (bind_run_ret _ _ _ _ _ (append_next_states_exact _ prev P _ HP')).
  cbn [heap fsms]. rewrite insert_app_l by exact Hlt.
  set (P' := Obj (kind P) (is_end P) (next_states P ++ [length (heap w)])).
  assert (HP'' : heap (World (<[prev := P']> (heap w) ++ [new_atom c]) (fsms w))
                 !! prev = Some P').
  { apply lookup_app_l_Some. apply list_lookup_insert_eq, Hlt. }
  rewrite (bind_run_ret _ _ _ _ _ (get_kind_run _ prev P' HP'')).
  replace (match kind P' with
           | StarState _ pp => append_next_states pp (length (heap w))
           | _ => ret tt
           end) with (@ret unit tt).
  2: { unfold P'. simpl. destruct (kind P); try reflexivity. discriminate. }
  rewrite (bind_run_ret _ _ _ tt _ eq_refl). reflexivity.
Qed.

(** The same when [prev_state] is a [StarState]: its [prev_state] gets
    the new node as well. *)
Lemma build_link_star c rest prev tmp states w P ck pp PP :
  is_atom c = true -> forallb is_atom rest = true ->
  heap w !! prev = Some P -> kind P = StarState ck pp ->
  pp <> prev -> heap w !! pp = Some PP ->
  RegexFSM.build (c :: rest) prev tmp states w
  = RegexFSM.build rest (length (heap w)) (length (heap w))
      (states ++ [length (heap w)])
      (World (<[pp := Obj (kind PP) (is_end PP)
                         (next_states PP ++ [length (heap w)])]>
                (<[prev := Obj (kind P) (is_end P)
                             (next_states P ++ [length (heap w)])]> (heap w))
              ++ [new_atom c]) (fsms w)).
Proof.
  intros Hc Hrest HP Hk Hne HPP.
  destruct (is_atom_inv c Hc) as (_ & Hq & _).
  assert (Hlt : prev < length (heap w)) by (eapply lookup_lt_Some, HP).
  assert (Hlt' : pp < length (heap w)) by (eapply lookup_lt_Some, HPP).
  cbn [RegexFSM.build]. rewrite Hq.
  rewrite (bind_run_ret _ _ _ _ _ (init_atom c prev tmp w Hc)).
  rewrite (bind_run_ret _ _ _ _ _ (lookahead_plain rest prev _ _ Hrest)).
  assert (HP' : heap (World (heap w ++ [new_atom c]) (fsms w)) !! prev = Some P)
    by (apply lookup_app_l_Some, HP).
  rewrite (bind_run_ret _ _ _ _ _ (append_next_states_exact _ prev P _ HP')).
  cbn [heap fsms]. rewrite insert_app_l by exact Hlt.
  set (P' := Obj (kind P) (is_end P) (next_states P ++ [length (heap w)])).
  assert (HP'' : heap (World (<[prev := P']> (heap w) ++ [new_atom c]) (fsms w))
                 !! prev = Some P').
  { apply lookup_app_l_Some. apply list_lookup_insert_eq, Hlt. }
  rewrite (bind_run_ret _ _ _ _ _ (get_kind_run _ prev P' HP'')).
  change (kind P') with (kind P). rewrite Hk.
  assert (HPP' : heap (World (<[prev := P']> (heap w) ++ [new_atom c]) (fsms w))
                 !! pp = Some PP).
  { apply lookup_app_l_Some. rewrite list_lookup_insert_ne by congruence. exact HPP. }
  rewrite (bind_run_ret _ _ _ _ _ (append_next_states_exact _ pp PP _ HPP')).
  cbn [heap fsms]. rewrite insert_app_l by (rewrite length_insert; exact Hlt').
  reflexivity.
Qed.

(** The end of [__init__] from a turn of its loop on, when only atoms
    are left: the object [P], the last made, is at the end of the heap. *)
Lemma init_tail rest H P tmp st0 f :
  forallb is_atom rest = true -> is_StarState (kind P) = false ->
  (states ← RegexFSM.build rest (length H) tmp (st0 ++ [length H]);
   end_exists ← RegexFSM.mark_end (rev states);
   if negb end_exists then
     match last states with
     | Some a => set_is_end a true
     | None => raise IndexError
     end
   else ret tt) (World (H ++ [P]) f)
  = (Ret tt,
     World (H ++ marked P rest (length H) :: chain_nodes rest (S (length H))) f).
Proof.
  intros Hp Hk.
  rewrite (bind_run_ret _ _ _ _ _ (build_plain rest H P tmp _ f Hp Hk)).
  destruct (mark_last rest P (length H) Hk) as (ol & Hl & Hkl & Hi).
  assert (Hst : (st0 ++ [length H]) ++ seq (S (length H)) (length rest)
                = (st0 ++ seq (length H) (length rest)) ++ [length H + length rest]).
  { rewrite <- !app_assoc. f_equal. rewrite <- seq_S. reflexivity. }
  rewrite Hst.
  assert (Hlast : heap (World (H ++ linked P rest (length H)
                                 :: raw_nodes rest (S (length H))) f)
                  !! (length H + length rest) = Some ol).
  { simpl. rewrite lookup_app_r by lia.
    replace (length H + length rest - length H) with (length rest) by lia.
    exact Hl. }
  rewrite (bind_run_ret _ _ _ _ _ (mark_end_last _ _ _ ol Hlast Hkl)).
  cbn [negb heap fsms]. rewrite insert_app_r, Hi. reflexivity.
Qed.

Lemma marked_new_atom x rest a :
  marked (new_atom x) rest a = node_of x rest a.
Proof. unfold marked, node_of, new_atom. simpl. destruct rest; reflexivity. Qed.

Section QuantifiedDot.
Variable x : char.
Variable rest : list char.
Hypothesis Hlit : forallb is_literal (x :: rest) = true.

Lemma literal_head : is_atom x = true /\ forallb is_atom rest = true.
Proof.
  pose proof (literals_atoms _ Hlit) as H. simpl in H.
  apply andb_true_iff in H. exact H.
Qed.

Lemma new_dot_plus :
  RegexFSM.new (DOT :: PLUS :: x :: rest) initial
  = (Ret 0, World (dot_plus_heap false (x :: rest)) [None]).
Proof.
  destruct literal_head as [Hx Hr].
  unfold RegexFSM.new.
  set (w0 := World [Obj StartState None []] [None]).
  rewrite (bind_run_ret new_instance _ initial 0 w0 eq_refl).
  unfold RegexFSM.__init__.
  rewrite bind_assoc, (bind_run_ret (get_curr_state 0) _ w0 START w0 eq_refl).
  rewrite bind_assoc, (bind_run_ret (get_curr_state 0) _ w0 START w0 eq_refl).
  rewrite bind_assoc, (bind_run_ret (get_curr_state 0) _ w0 START w0 eq_refl).
  set (w1 := World [Obj StartState None [2]; Obj DotState (Some false) [];
                    Obj (PlusState 1 3 false) (Some false) [];
                    Obj (StarState 1 1) (Some false) []] [None]).
  set (H4 := [Obj StartState None [2]; Obj DotState (Some false) [];
               Obj (PlusState 1 3 false) (Some false) [4];
               Obj (StarState 1 1) (Some false) []]).
  assert (H1 : RegexFSM.build (DOT :: PLUS :: x :: rest) START START [START] w0
               = RegexFSM.build rest (length H4) 4 ([0; 2] ++ [length H4])
                   (World (H4 ++ [new_atom x]) [None])).
  { transitivity (RegexFSM.build (x :: rest) 2 2 [0; 2] w1); [reflexivity |].
    rewrite (build_link x rest 2 2 [0; 2] w1 _ Hx Hr eq_refl eq_refl).
    reflexivity. }
  rewrite (bind_eq _ _ _ _ _ (bind_eq _ _ _ _ _ H1)).
  rewrite (bind_run_ret _ _ _ _ _
             (init_tail rest _ (new_atom x) 4 [0; 2] [None] Hr
                (is_StarState_atom x))).
  rewrite marked_new_atom. reflexivity.
Qed.

Lemma new_dot_star :
  RegexFSM.new (DOT :: STAR :: x :: rest) initial
  = (Ret 0, World (dot_star_heap (x :: rest)) [None]).
Proof.
  destruct literal_head as [Hx Hr].
  unfold RegexFSM.new.
  set (w0 := World [Obj StartState None []] [None]).
  rewrite (bind_run_ret new_instance _ initial 0 w0 eq_refl).
  unfold RegexFSM.__init__.
  rewrite bind_assoc, (bind_run_ret (get_curr_state 0) _ w0 START w0 eq_refl).
  rewrite bind_assoc, (bind_run_ret (get_curr_state 0) _ w0 START w0 eq_refl).
  rewrite bind_assoc, (bind_run_ret (get_curr_state 0) _ w0 START w0 eq_refl).
  set (w1 := World [Obj StartState None [2]; Obj DotState (Some false) [];
                    Obj (StarState 1 0) (Some false) []] [None]).
  set (H3 := [Obj StartState None [2; 3]; Obj DotState (Some false) [];
               Obj (StarState 1 0) (Some false) [3]]).
  assert (H1 : RegexFSM.build (DOT :: STAR :: x :: rest) START START [START] w0
               = RegexFSM.build rest (length H3) 3 ([0; 2] ++ [length H3])
                   (World (H3 ++ [new_atom x]) [None])).
  { transitivity (RegexFSM.build (x :: rest) 2 2 [0; 2] w1); [reflexivity |].
    rewrite (build_link_star x rest 2 2 [0; 2] w1 _ 1 0 _ Hx Hr eq_refl eq_refl
               ltac:(discriminate) eq_refl).
    reflexivity. }
  rewrite (bind_eq _ _ _ _ _ (bind_eq _ _ _ _ _ H1)).
  rewrite (bind_run_ret _ _ _ _ _
             (init_tail rest _ (new_atom x) 3 [0; 2] [None] Hr
                (is_StarState_atom x))).
  rewrite marked_new_atom. reflexivity.
Qed.

(** The first turn of the loop: the start object hands any character to
    the quantified [.]. *)
Lemma dot_plus_first m c suffix :
  RegexFSM.step (S (S (S m))) 0 c suffix
    (World (dot_plus_heap false (x :: rest)) [None])
  = (Ret tt, World (dot_plus_heap true (x :: rest)) [Some 2]).
Proof. unfold RegexFSM.step, dot_plus_heap. cbv -[chain_nodes]. reflexivity. Qed.

Lemma dot_star_first m c suffix :
  RegexFSM.step (S (S (S m))) 0 c suffix
    (World (dot_star_heap (x :: rest)) [None])
  = (Ret tt, World (dot_star_heap (x :: rest)) [Some 2]).
Proof. unfold RegexFSM.step, dot_star_heap. cbv -[chain_nodes]. reflexivity. Qed.

Lemma chain_at_after (H : list obj) :
  chain_at (H ++ chain_nodes (x :: rest) (length H)) (length H) rest.
Proof.
  pose proof (chain_at_nodes rest H (node_of x rest (length H)) []) as Hc.
  rewrite app_nil_r in Hc. exact Hc.
Qed.

Lemma quantified_dot m reg_string :
  length rest < S (S (S m)) ->
  result_of (compile_and_check (S (S (S m))) (DOT :: PLUS :: x :: rest) reg_string)
    initial
  = match reg_string with
    | [] => Raise (AttributeError "is_end")
    | _ :: s => Ret (has_suffix s (x :: rest))
    end /\
  result_of (compile_and_check (S (S (S m))) (DOT :: STAR :: x :: rest) reg_string)
    initial
  = match reg_string with
    | [] => Raise (AttributeError "is_end")
    | _ :: s => Ret (has_suffix s (x :: rest))
    end.
Proof.
  intros Hf. unfold compile_and_check, result_of. split.
  - rewrite (bind_run_ret _ _ _ _ _ new_dot_plus).
    set (w := World (dot_plus_heap false (x :: rest)) [None]).
    change (result_of (RegexFSM.check_string (S (S (S m))) 0 reg_string) w
            = match reg_string with
              | [] => Raise (AttributeError "is_end")
              | _ :: s => Ret (has_suffix s (x :: rest))
              end).
    rewrite (check_string_result _ 0 _ w START eq_refl).
    destruct reg_string as [| c s]; [reflexivity |].
    rewrite (finish_cons _ 0 c s w _ (dot_plus_first m c (c :: s))).
    apply (wild_finish (S m) 0 x rest s _ 2
             (Obj (PlusState 1 3 true) (Some false) [4]) 4 []);
      try reflexivity; try assumption.
    apply (chain_at_after [Obj StartState None [2]; Obj DotState (Some false) [];
                           Obj (PlusState 1 3 true) (Some false) [4];
                           Obj (StarState 1 1) (Some false) []]).
  - rewrite (bind_run_ret _ _ _ _ _ new_dot_star).
    set (w := World (dot_star_heap (x :: rest)) [None]).
    change (result_of (RegexFSM.check_string (S (S (S m))) 0 reg_string) w
            = match reg_string with
              | [] => Raise (AttributeError "is_end")
              | _ :: s => Ret (has_suffix s (x :: rest))
              end).
    rewrite (check_string_result _ 0 _ w START eq_refl).
    destruct reg_string as [| c s]; [reflexivity |].
    rewrite (finish_cons _ 0 c s w _ (dot_star_first m c (c :: s))).
    apply (wild_finish (S m) 0 x rest s _ 2
             (Obj (StarState 1 0) (Some false) [3]) 3 []);
      try reflexivity; try assumption.
    apply (chain_at_after [Obj StartState None [2; 3]; Obj DotState (Some false) [];
                           Obj (StarState 1 0) (Some false) [3]]).
Qed.

End QuantifiedDot.

(** X6: for [.+] or [.*] followed by one or more literals, compiled in
    a fresh process, a string that is not empty is accepted exactly when
    the literals end it and at least one character comes before them,
    [.*] not differing from [.+]; the empty string raises
    [AttributeError].  The fuel is the length of the pattern or more. *)
Theorem quantified_dot_before_literals n q l reg_string :
  q = STAR \/ q = PLUS -> l <> [] -> forallb is_literal l = true ->
  result_of (compile_and_check (n + length l + 2) (DOT :: q :: l) reg_string)
    initial
  = match reg_string with
    | [] => Raise (AttributeError "is_end")
    | _ :: s => Ret (has_suffix s l)
    end.
Proof.
  intros Hq Hne Hl. destruct l as [| x rest]; [congruence |].
  replace (n + length (x :: rest) + 2) with (S (S (S (n + length rest))))
    by (simpl; lia).
  destruct (quantified_dot x rest Hl (n + length rest) reg_string) as [Hp Hs];
    [lia |].
  destruct Hq as [-> | ->]; assumption.
Qed.

Lemma quantified_dot_before_literals_witness :
  result_of (compile_and_check 4 (str ".*hi") (str "hi")) initial = Ret false /\
  result_of (compile_and_check 4 (str ".+hi") (str "oh hi")) initial = Ret true.
Proof.
  split.
  - exact (quantified_dot_before_literals 0 STAR (str "hi") (str "hi")
             (or_introl eq_refl) ltac:(discriminate) eq_refl).
  - exact (quantified_dot_before_literals 0 PLUS (str "hi") (str "oh hi")
             (or_intror eq_refl) ltac:(discriminate) eq_refl).
Defined.

(** ** The shape of the graph *)

Lemma persists_refl h : persists h h.
Proof. intros a o Ho. exists o. split; [exact Ho | apply kind_evolves_refl]. Qed.

Lemma persists_trans h1 h2 h3 :
  persists h1 h2 -> persists h2 h3 -> persists h1 h3.
Proof.
  intros H12 H23 a o Ho. destruct (H12 a o Ho) as (o2 & Ho2 & E2).
  destruct (H23 a o2 Ho2) as (o3 & Ho3 & E3).
  exists o3. split; [exact Ho3 | eapply kind_evolves_trans; eassumption].
Qed.

Lemma persists_snoc h o : persists h (h ++ [o]).
Proof.
  intros a oa Ha. exists oa.
  split; [apply lookup_app_l_Some, Ha | apply kind_evolves_refl].
Qed.

Lemma persists_insert h a o o' :
  h !! a = Some o -> kind_evolves (kind o) (kind o') ->
  persists h (<[a := o']> h).
Proof.
  intros Ho Hk b ob Hb. destruct (decide (b = a)) as [-> | Hne].
  - exists o'. rewrite Ho in Hb. injection Hb as <-.
    split; [apply list_lookup_insert_eq; eapply lookup_lt_Some, Ho | exact Hk].
  - exists ob. split; [| apply kind_evolves_refl].
    rewrite list_lookup_insert_ne by congruence. exact Hb.
Qed.

Lemma persists_match_frame w w' :
  match_frame w w' -> persists (heap w) (heap w').
Proof.
  intros [H _] a o Ho. destruct (H a o Ho) as (o' & Ho' & Hk & _).
  exists o'. split; assumption.
Qed.

Lemma persists_length h h' : persists h h' -> length h <= length h'.
Proof.
  intros H. destruct (decide (length h <= length h')) as [Hl | Hl]; [exact Hl |].
  destruct (lookup_lt_is_Some_2 h (length h')) as [o Ho]; [lia |].
  destruct (H _ o Ho) as (o' & Ho' & _). apply lookup_lt_Some in Ho'. lia.
Qed.

Lemma kind_evolves_char k k' :
  kind_evolves k k' -> is_char_node k = true -> k' = k.
Proof. intros [-> | (ck & lp & -> & _)]; [reflexivity | discriminate]. Qed.

Lemma kind_evolves_sink k k' :
  kind_evolves k k' -> k <> TerminationState -> k' <> TerminationState.
Proof. intros [-> | (ck & lp & -> & ->)] H; [exact H | discriminate]. Qed.

Lemma atom_at_persists h h' ck : persists h h' -> atom_at h ck -> atom_at h' ck.
Proof.
  intros H (oc & Hc & Hp). destruct (H ck oc Hc) as (oc' & Hc' & Hk).
  exists oc'. split; [exact Hc' |].
  rewrite (kind_evolves_char _ _ Hk Hp). exact Hp.
Qed.

Lemma not_sink_persists h h' a : persists h h' -> not_sink h a -> not_sink h' a.
Proof.
  intros H (o & Ho & Hk). destruct (H a o Ho) as (o' & Ho' & Hk').
  exists o'. split; [exact Ho' | eapply kind_evolves_sink; eassumption].
Qed.

Lemma edges_up_le n n' a o : n <= n' -> edges_up n a o -> edges_up n' a o.
Proof.
  intros Hn [Ha Hf]. split; [lia |].
  eapply Forall_impl; [exact Hf |]. simpl. intros x Hx. lia.
Qed.

Lemma node_ok_mono n n' h h' a o :
  n <= n' -> persists h h' -> node_ok n h a o -> node_ok n' h' a o.
Proof.
  intros Hn Hp. unfold node_ok. destruct (kind o); try (apply edges_up_le, Hn).
  - exact (fun H => H).
  - intros (He & Ha & Hlt & Hs).
    split; [eapply edges_up_le; eassumption |].
    split; [eapply atom_at_persists; eassumption |].
    split; [exact Hlt | eapply not_sink_persists; eassumption].
  - intros (He & Ha).
    split; [eapply edges_up_le; eassumption | eapply atom_at_persists; eassumption].
Qed.

(** The conditions of [node_ok] speak of the class and of the
    successors only. *)
Lemma node_ok_evolves n h a o o' :
  kind_evolves (kind o) (kind o') -> next_states o' = next_states o ->
  node_ok n h a o -> node_ok n h a o'.
Proof.
  unfold node_ok, edges_up. intros [-> | (ck & lp & -> & ->)] ->; exact (fun H => H).
Qed.

Lemma node_ok_append n h a o x :
  kind o <> TerminationState -> a < x < n ->
  node_ok n h a o ->
  node_ok n h a (Obj (kind o) (is_end o) (next_states o ++ [x])).
Proof.
  intros Hk Hx. unfold node_ok, edges_up. simpl.
  assert (Hf : Forall (fun y => a < y < n) (next_states o) ->
               Forall (fun y => a < y < n) (next_states o ++ [x])).
  { intros H. apply Forall_app. split; [exact H | constructor; [exact Hx | constructor]]. }
  destruct (kind o); try congruence; intuition.
Qed.

Lemma graded_le n n' h : graded n h -> n <= n' <= length h -> graded n' h.
Proof.
  intros [_ H] Hn. split; [lia |].
  intros a o Ho. eapply node_ok_mono; [| apply persists_refl | apply H, Ho]. lia.
Qed.

Lemma graded_snoc h o :
  graded (length h) h ->
  node_ok (S (length h)) (h ++ [o]) (length h) o ->
  graded (length (h ++ [o])) (h ++ [o]).
Proof.
  intros [_ H] Ho. split; [lia |].
  rewrite length_app. simpl.
  replace (length h + 1) with (S (length h)) by lia.
  intros a oa Ha. apply lookup_snoc_Some in Ha as [[Hl Ha] | [-> <-]].
  - eapply node_ok_mono; [| apply persists_snoc | apply H, Ha]. lia.
  - exact Ho.
Qed.

Lemma graded_insert n h a o o' :
  graded n h -> h !! a = Some o -> kind_evolves (kind o) (kind o') ->
  node_ok n h a o' -> graded n (<[a := o']> h).
Proof.
  intros [Hn H] Ho Hk Ho'. split; [rewrite length_insert; exact Hn |].
  intros b ob Hb.
  assert (Hp : persists h (<[a := o']> h)) by (eapply persists_insert; eassumption).
  apply list_lookup_insert_Some in Hb as [(-> & <- & _) | (_ & Hb)].
  - eapply node_ok_mono; [| exact Hp | exact Ho']. lia.
  - eapply node_ok_mono; [| exact Hp | apply H, Hb]. lia.
Qed.

Lemma graded_match_frame n w w' :
  graded n (heap w) -> match_frame w w' -> graded n (heap w').
Proof.
  intros [Hn H] Hm. pose proof (persists_match_frame w w' Hm) as Hp.
  pose proof (persists_length _ _ Hp) as Hl.
  split; [lia |]. intros a o' Ho'.
  destruct (heap w !! a) as [o |] eqn:Ho.
  - destruct Hm as [Hm _]. destruct (Hm a o Ho) as (o2 & Ho2 & Hk & _ & Hnx).
    rewrite Ho' in Ho2. injection Ho2 as <-.
    eapply node_ok_mono; [| exact Hp |].
    + apply Nat.le_refl.
    + eapply node_ok_evolves; [exact Hk | exact Hnx | apply H, Ho].
  - destruct Hm as [_ Hm]. apply lookup_ge_None in Ho.
    rewrite (Hm a o' Ho' Ho). reflexivity.
Qed.

Lemma graded_succ n h a o x :
  graded n h -> h !! a = Some o -> x ∈ next_states o -> x < length h.
Proof.
  intros [Hn H] Ho Hx. specialize (H a o Ho). unfold node_ok, edges_up in H.
  assert (Hf : Forall (fun y => a < y < n) (next_states o) -> x < length h).
  { intros Hf. rewrite Forall_forall in Hf. specialize (Hf x Hx). lia. }
  destruct (kind o); try (apply Hf; tauto).
  rewrite H in Hx. apply list_elem_of_singleton in Hx as ->.
  eapply lookup_lt_Some, Ho.
Qed.

Lemma graded_initial : graded (length (heap initial)) (heap initial).
Proof.
  split; [lia |]. intros a o Ho.
  destruct a as [| a]; [| destruct a; discriminate].
  injection Ho as <-. unfold node_ok, edges_up. simpl. split; [lia | constructor].
Qed.

(** ** What a construction keeps *)

Lemma built_refl w : graded (length (heap w)) (heap w) -> built w w.
Proof.
  intros Hg. split; [exact Hg |]. split; [apply persists_refl |].
  split; [lia | reflexivity].
Qed.

Lemma built_trans w1 w2 w3 : built w1 w2 -> built w2 w3 -> built w1 w3.
Proof.
  intros (_ & Hp & Hl & Hf) (Hg & Hp' & Hl' & Hf').
  split; [exact Hg |]. split; [eapply persists_trans; eassumption |].
  split; [lia | congruence].
Qed.

Lemma built_bind {A B} (m : M A) (f : A -> M B) w :
  built w (snd (m w)) ->
  (forall a w1, m w = (Ret a, w1) -> built w1 (snd (f a w1))) ->
  built w (snd (bind m f w)).
Proof.
  unfold bind. destruct (m w) as [[a | e | |] w1]; simpl; intros H Hf;
    try exact H.
  eapply built_trans; [exact H | apply Hf; reflexivity].
Qed.

Lemma built_alloc (mk : addr -> obj) w :
  graded (length (heap w)) (heap w) ->
  node_ok (S (length (heap w))) (heap w ++ [mk (length (heap w))])
    (length (heap w)) (mk (length (heap w))) ->
  built w (snd (alloc mk w)).
Proof.
  intros Hg Ho. simpl. split; [simpl; apply graded_snoc; assumption |].
  split; [apply persists_snoc |]. simpl. rewrite length_app. simpl.
  split; [lia | reflexivity].
Qed.

Lemma built_put a o o' w :
  graded (length (heap w)) (heap w) -> heap w !! a = Some o ->
  kind o' = kind o -> node_ok (length (heap w)) (heap w) a o' ->
  built w (snd (put_obj a o' w)).
Proof.
  intros Hg Ho Hk Ho'.
  assert (Hke : kind_evolves (kind o) (kind o')) by (left; exact Hk).
  simpl. split.
  - simpl. rewrite length_insert. eapply graded_insert; eassumption.
  - split; [eapply persists_insert; eassumption |]. simpl.
    rewrite length_insert. split; [lia | reflexivity].
Qed.

Lemma built_append_next_states a x w :
  graded (length (heap w)) (heap w) -> not_sink (heap w) a ->
  a < x < length (heap w) ->
  built w (snd (append_next_states a x w)) /\
  exists w', append_next_states a x w = (Ret tt, w').
Proof.
  intros Hg (o & Ho & Hk) Hx. unfold append_next_states.
  rewrite (bind_run_ret _ _ _ _ _ (get_obj_run w a o Ho)).
  split; [| eexists; reflexivity].
  eapply built_put; [exact Hg | exact Ho | reflexivity |].
  apply node_ok_append; [exact Hk | exact Hx |]. apply Hg, Ho.
Qed.

Lemma built_set_is_end a b w :
  graded (length (heap w)) (heap w) -> built w (snd (set_is_end a b w)).
Proof.
  intros Hg. unfold set_is_end, bind, get_obj.
  destruct (heap w !! a) as [o |] eqn:Ho; [| apply built_refl, Hg].
  eapply built_put; [exact Hg | exact Ho | reflexivity |].
  eapply (node_ok_evolves _ _ _ o); [left; reflexivity | reflexivity |].
  apply Hg, Ho.
Qed.

Lemma atom_not_sink h a : atom_at h a -> not_sink h a.
Proof.
  intros (o & Ho & Hp). exists o. split; [exact Ho |].
  intros E. rewrite E in Hp. discriminate.
Qed.

Lemma not_sink_lt h a : not_sink h a -> a < length h.
Proof. intros (o & Ho & _). eapply lookup_lt_Some, Ho. Qed.

Lemma atom_at_snoc h o :
  is_char_node (kind o) = true -> atom_at (h ++ [o]) (length h).
Proof.
  intros Hp. exists o. split; [| exact Hp].
  apply lookup_snoc_Some. right. split; reflexivity.
Qed.

(** The node of a character that is no quantifier. *)
Lemma init_atom_built char prev tmp w :
  in_star_plus char = false -> graded (length (heap w)) (heap w) ->
  built w (snd (RegexFSM.__init_next_state char prev tmp w)) /\
  forall a w', RegexFSM.__init_next_state char prev tmp w = (Ret a, w') ->
    atom_at (heap w') a /\ a = length (heap w) /\ length (heap w') = S a.
Proof.
  intros Hq Hg. unfold in_star_plus in Hq. apply orb_false_iff in Hq as [Hs Hp].
  unfold RegexFSM.__init_next_state. rewrite Hs, Hp.
  assert (Hmk : forall k, is_char_node k = true ->
            built w (snd (alloc (fun _ => Obj k (Some false) []) w)) /\
            forall a w', alloc (fun _ => Obj k (Some false) []) w = (Ret a, w') ->
              atom_at (heap w') a /\ a = length (heap w) /\ length (heap w') = S a).
  { intros k Hk. split.
    - apply built_alloc; [exact Hg |]. unfold node_ok, edges_up. simpl.
      destruct k; try discriminate; (split; [lia | constructor]).
    - intros a w' E. injection E as <- <-. simpl.
      split; [apply atom_at_snoc, Hk |]. split; [reflexivity |].
      rewrite length_app. simpl. lia. }
  destruct (N.eqb char DOT); [apply Hmk; reflexivity |].
  destruct (isascii char); [apply Hmk; reflexivity |].
  split; [apply built_refl, Hg | intros a w' E; discriminate].
Qed.

(** The node of a quantifier. *)
Lemma init_quantifier_built q prev a1 w :
  in_star_plus q = true -> graded (length (heap w)) (heap w) ->
  atom_at (heap w) a1 -> not_sink (heap w) prev ->
  exists a2 w', RegexFSM.__init_next_state q prev a1 w = (Ret a2, w') /\
    built w w' /\ length (heap w) <= a2 < length (heap w') /\
    not_sink (heap w') a2.
Proof.
  intros Hq Hg Ha Hp. unfold RegexFSM.__init_next_state.
  assert (Hd : N.eqb q DOT = false).
  { unfold in_star_plus in Hq.
    apply orb_true_iff in Hq as [H | H]; apply N.eqb_eq in H; subst; reflexivity. }
  rewrite Hd.
  pose proof (not_sink_lt _ _ (atom_not_sink _ _ Ha)) as Hlt.
  destruct (N.eqb q STAR) eqn:Es.
  - exists (length (heap w)). eexists. split; [reflexivity |].
    split; [| split].
    + apply (built_alloc (fun _ => Obj (StarState a1 prev) (Some false) []) w Hg).
      unfold node_ok, edges_up. simpl.
      split; [split; [lia | constructor] |].
      split; [eapply atom_at_persists; [apply persists_snoc | exact Ha] |].
      split; [apply not_sink_lt, Hp |].
      eapply not_sink_persists; [apply persists_snoc | exact Hp].
    + simpl. rewrite length_app. simpl. lia.
    + simpl. exists (Obj (StarState a1 prev) (Some false) []).
      split; [| discriminate]. apply lookup_snoc_Some. right. split; reflexivity.
  - unfold in_star_plus in Hq. rewrite Es in Hq. simpl in Hq. rewrite Hq.
    unfold new_PlusState.
    set (mk := fun self : addr => Obj (PlusState a1 (S self) false) (Some false) []).
    set (w1 := World (heap w ++ [mk (length (heap w))]) (fsms w)).
    assert (H1 : built w w1).
    { apply (built_alloc mk w Hg). unfold node_ok, edges_up. simpl.
      split; [split; [lia | constructor] |].
      eapply atom_at_persists; [apply persists_snoc | exact Ha]. }
    rewrite (bind_run_ret (alloc mk) _ w (length (heap w)) w1 eq_refl).
    set (w2 := World (heap w1 ++ [Obj (StarState a1 a1) (Some false) []]) (fsms w1)).
    assert (Ha1 : atom_at (heap w1) a1).
    { eapply atom_at_persists; [apply H1 | exact Ha]. }
    assert (H2 : built w1 w2).
    { apply (built_alloc (fun _ => Obj (StarState a1 a1) (Some false) []) w1);
        [apply H1 |].
      unfold node_ok, edges_up. simpl.
      split; [split; [lia | constructor] |].
      split; [eapply atom_at_persists; [apply persists_snoc | exact Ha1] |].
      split; [apply not_sink_lt, atom_not_sink, Ha1 |].
      eapply not_sink_persists; [apply persists_snoc | apply atom_not_sink, Ha1]. }
    rewrite (bind_run_ret (new_StarState a1 a1) _ w1 (length (heap w1)) w2 eq_refl).
    exists (length (heap w)), w2. split; [reflexivity |].
    split; [eapply built_trans; eassumption |].
    split.
    + unfold w2, w1. simpl. rewrite !length_app. simpl. lia.
    + eapply not_sink_persists; [apply H2 |].
      exists (mk (length (heap w))). split; [| discriminate].
      unfold w1. simpl. apply lookup_snoc_Some. right. split; reflexivity.
Qed.

Lemma lookahead_built rest prev a1 w :
  graded (length (heap w)) (heap w) ->
  atom_at (heap w) a1 -> S a1 = length (heap w) -> not_sink (heap w) prev ->
  exists a2 w',
    match rest with
    | q :: _ =>
        if in_star_plus q then RegexFSM.__init_next_state q prev a1
        else ret a1
    | [] => ret a1
    end w = (Ret a2, w') /\
    built w w' /\ a1 <= a2 < length (heap w') /\ not_sink (heap w') a2.
Proof.
  intros Hg Ha Hl Hp.
  assert (Hret : exists a2 w', ret a1 w = (Ret a2, w') /\
            built w w' /\ a1 <= a2 < length (heap w') /\ not_sink (heap w') a2).
  { exists a1, w. split; [reflexivity |]. split; [apply built_refl, Hg |].
    split; [lia | apply atom_not_sink, Ha]. }
  destruct rest as [| q rest]; [exact Hret |].
  destruct (in_star_plus q) eqn:Eq; [| exact Hret].
  destruct (init_quantifier_built q prev a1 w Eq Hg Ha Hp)
    as (a2 & w' & E & Hb & Hr & Hs).
  exists a2, w'. split; [exact E |]. split; [exact Hb |].
  split; [lia | exact Hs].
Qed.

Lemma build_built regex_expr : forall w prev tmp states,
  graded (length (heap w)) (heap w) -> not_sink (heap w) prev ->
  built w (snd (RegexFSM.build regex_expr prev tmp states w)).
Proof.
  induction regex_expr as [| char rest IH]; intros w prev tmp states Hg Hp;
    cbn [RegexFSM.build]; [apply built_refl, Hg |].
  destruct (in_star_plus char) eqn:Eq; [apply IH; assumption |].
  destruct (init_atom_built char prev tmp w Eq Hg) as [Hb1 Hv1].
  apply built_bind; [exact Hb1 |]. intros a1 w1 E1.
  rewrite E1 in Hb1. simpl in Hb1.
  destruct (Hv1 a1 w1 E1) as (Ha1 & -> & Hl1).
  assert (Hp1 : not_sink (heap w1) prev).
  { eapply not_sink_persists; [apply Hb1 | exact Hp]. }
  destruct (lookahead_built rest prev (length (heap w)) w1 (proj1 Hb1) Ha1
              (eq_sym Hl1) Hp1) as (a2 & w2 & E2 & Hb2 & Hr2 & Hs2).
  rewrite (bind_run_ret _ _ _ _ _ E2).
  eapply built_trans; [exact Hb2 |].
  assert (Hp2 : not_sink (heap w2) prev).
  { eapply not_sink_persists; [apply Hb2 | exact Hp1]. }
  pose proof (not_sink_lt _ _ Hp) as Hlt.
  destruct (built_append_next_states prev a2 w2 (proj1 Hb2) Hp2)
    as [Hb3 (w3 & E3)]; [lia |].
  rewrite E3 in Hb3. simpl in Hb3.
  rewrite (bind_run_ret _ _ _ _ _ E3).
  eapply built_trans; [exact Hb3 |].
  assert (Hp3 : not_sink (heap w3) prev).
  { eapply not_sink_persists; [apply Hb3 | exact Hp2]. }
  destruct Hp3 as (o3 & Ho3 & Hk3).
  rewrite (bind_run_ret _ _ _ _ _ (get_kind_run w3 prev o3 Ho3)).
  assert (H4 : exists w4,
    match kind o3 with
    | StarState _ pp => append_next_states pp a2
    | _ => ret tt
    end w3 = (Ret tt, w4) /\ built w3 w4).
  { destruct (kind o3) eqn:Ek;
      try (exists w3; split; [reflexivity | apply built_refl, Hb3]).
    destruct Hb3 as (Hg3 & _ & Hl3 & _).
    pose proof (proj2 Hg3 prev o3 Ho3) as Hn. unfold node_ok in Hn.
    rewrite Ek in Hn. destruct Hn as (_ & _ & Hpv & Hsv).
    destruct (built_append_next_states prev_state a2 w3 Hg3 Hsv)
      as [Hb4 (w4 & E4)]; [lia |].
    exists w4. split; [exact E4 |]. rewrite E4 in Hb4. exact Hb4. }
  destruct H4 as (w4 & E4 & Hb4).
  rewrite (bind_run_ret _ _ _ _ _ E4).
  eapply built_trans; [exact Hb4 |].
  apply IH; [apply Hb4 |].
  eapply not_sink_persists; [apply Hb4 |].
  eapply not_sink_persists; [apply Hb3 | exact Hs2].
Qed.

Lemma mark_end_built l : forall w,
  graded (length (heap w)) (heap w) -> built w (snd (RegexFSM.mark_end l w)).
Proof.
  induction l as [| state l IH]; intros w Hg; cbn [RegexFSM.mark_end];
    [apply built_refl, Hg |].
  apply built_bind.
  { unfold isinstance_StarState, get_kind, bind, get_obj.
    destruct (heap w !! state); apply built_refl, Hg. }
  intros st w1 E.
  assert (w1 = w) as ->.
  { unfold isinstance_StarState, get_kind, bind, get_obj in E.
    destruct (heap w !! state); [injection E as _ <-; reflexivity | discriminate]. }
  destruct st.
  - apply built_bind; [apply built_set_is_end, Hg |].
    intros [] w2 E2. apply IH.
    pose proof (built_set_is_end state true w Hg) as H. rewrite E2 in H. apply H.
  - apply built_bind; [apply built_set_is_end, Hg |].
    intros [] w2 E2. apply built_refl.
    pose proof (built_set_is_end state true w Hg) as H. rewrite E2 in H. apply H.
Qed.

Lemma init_built self regex_expr w :
  graded (length (heap w)) (heap w) -> start_ok (heap w) ->
  get_curr_state self w = (Ret START, w) ->
  built w (snd (RegexFSM.__init__ self regex_expr w)).
Proof.
  intros Hg (o0 & Ho0 & Hk0) Hc. unfold RegexFSM.__init__.
  do 3 rewrite (bind_run_ret _ _ _ _ _ Hc).
  assert (H0 : not_sink (heap w) START).
  { exists o0. split; [exact Ho0 | congruence]. }
  pose proof (build_built regex_expr w START START [START] Hg H0) as Hb.
  apply built_bind; [exact Hb |]. intros sts w1 E1.
  rewrite E1 in Hb. simpl in Hb.
  pose proof (mark_end_built (rev sts) w1 (proj1 Hb)) as Hm.
  apply built_bind; [exact Hm |]. intros b w2 E2.
  rewrite E2 in Hm. simpl in Hm.
  destruct b; simpl; [apply built_refl, Hm |].
  destruct (last sts); [apply built_set_is_end, Hm | apply built_refl, Hm].
Qed.

Lemma cursors_ok_start w self a :
  cursors_ok w -> start_ok (heap w) -> get_curr_state self w = (Ret a, w) ->
  a < length (heap w).
Proof.
  intros Hc (o & Ho & _). unfold get_curr_state.
  destruct (fsms w !! self) as [[c |] |] eqn:E; try discriminate.
  - intros H. injection H as <-. eapply Hc, E.
  - intros H. injection H as <-. eapply lookup_lt_Some, Ho.
Qed.

Lemma new_sound w regex_expr :
  sound w -> start_ok (heap w) -> sound (snd (RegexFSM.new regex_expr w)).
Proof.
  intros [Hg Hc] Hs. unfold RegexFSM.new.
  set (w0 := World (heap w) (fsms w ++ [None])).
  set (self := length (fsms w)).
  rewrite (bind_run_ret new_instance _ w self w0 eq_refl).
  assert (Hcur : get_curr_state self w0 = (Ret START, w0)).
  { unfold get_curr_state, w0, self. simpl.
    rewrite lookup_app_r by lia. rewrite Nat.sub_diag. reflexivity. }
  pose proof (init_built self regex_expr w0 Hg Hs Hcur) as Hb.
  assert (Hw : snd (bind (RegexFSM.__init__ self regex_expr) (fun _ => ret self) w0)
               = snd (RegexFSM.__init__ self regex_expr w0)).
  { unfold bind. destruct (RegexFSM.__init__ self regex_expr w0) as [[[] | e | |] w1];
      reflexivity. }
  rewrite Hw. destruct Hb as (Hg1 & _ & Hl1 & Hf1).
  split; [exact Hg1 |].
  intros p a Hp. rewrite Hf1 in Hp. simpl in Hp.
  apply lookup_snoc_Some in Hp as [[_ Hp] | [_ Hp]]; [| discriminate].
  simpl in Hl1. specialize (Hc p a Hp). lia.
Qed.

(** ** Computations that return *)

Lemma spec_ret {A} (a : A) w (Q : A -> world -> Prop) oof :
  Q a w -> spec (ret a) w Q oof.
Proof. intros H. exact H. Qed.

Lemma spec_bind {A B} (m : M A) (f : A -> M B) w (Q : A -> world -> Prop)
    (Q' : B -> world -> Prop) oof :
  spec m w Q oof -> (forall a w', Q a w' -> spec (f a) w' Q' oof) ->
  spec (bind m f) w Q' oof.
Proof.
  unfold spec, bind. destruct (m w) as [[a | e | |] w1]; intros H Hf;
    try exact H.
  apply Hf, H.
Qed.

Lemma spec_weaken {A} (m : M A) w (Q Q' : A -> world -> Prop) (oof oof' : Prop) :
  spec m w Q oof -> (forall a w', Q a w' -> Q' a w') -> (oof -> oof') ->
  spec m w Q' oof'.
Proof.
  unfold spec. destruct (m w) as [[a | e | |] w1]; intros H HQ Ho;
    [apply HQ, H | exact H | apply Ho, H | exact H].
Qed.

Lemma spec_always {A} R (m : M A) w (Q : A -> world -> Prop) oof :
  always R m -> spec m w Q oof -> spec m w (fun a w' => Q a w' /\ R w w') oof.
Proof.
  intros Ha. specialize (Ha w). unfold spec.
  destruct (m w) as [[a | e | |] w1]; intros H; try exact H.
  split; [exact H | exact Ha].
Qed.

Lemma spec_get_kind a w o oof :
  heap w !! a = Some o ->
  spec (get_kind a) w (fun k w' => k = kind o /\ w' = w) oof.
Proof.
  intros Ho. unfold spec. rewrite (get_kind_run w a o Ho). split; reflexivity.
Qed.

Lemma spec_get_next_states a w o oof :
  heap w !! a = Some o ->
  spec (get_next_states a) w (fun l w' => l = next_states o /\ w' = w) oof.
Proof.
  intros Ho. unfold spec. rewrite (get_next_states_run w a o Ho).
  split; reflexivity.
Qed.

Lemma spec_isinstance_StarState a w oof :
  a < length (heap w) ->
  spec (isinstance_StarState a) w (fun _ w' => w' = w) oof.
Proof.
  intros Ha. destruct (lookup_lt_is_Some_2 _ _ Ha) as [o Ho].
  unfold spec. rewrite (isinstance_StarState_run w a o Ho). reflexivity.
Qed.

Lemma spec_for_return {A} (Inv : world -> Prop) (Q : A -> world -> Prop) oof
    (l : list addr) (body : addr -> M (option A)) (orelse : M A) :
  (forall x w, x ∈ l -> Inv w ->
     spec (body x) w
       (fun r w' => match r with Some v => Q v w' | None => Inv w' end) oof) ->
  (forall w, Inv w -> spec orelse w Q oof) ->
  forall w, Inv w -> spec (for_return l body orelse) w Q oof.
Proof.
  induction l as [| x l IH]; intros Hb Ho w Hi; cbn [for_return];
    [apply Ho, Hi |].
  eapply spec_bind; [apply Hb; [left | exact Hi] |].
  intros [v |] w' H; [exact H |].
  apply IH; [| exact Ho | exact H].
  intros y w0 Hy. apply Hb. right. exact Hy.
Qed.

Lemma match_frame_check_self d a c : always match_frame (check_self d a c).
Proof.
  apply (always_check_self match_frame match_frame_refl match_frame_trans
           match_frame_set_minimum_check).
Qed.

Lemma match_frame_check_next d a c : always match_frame (check_next d a c).
Proof.
  apply (always_check_next match_frame match_frame_refl match_frame_trans
           match_frame_new_TerminationState match_frame_set_minimum_check).
Qed.

Lemma match_frame_length w w' :
  match_frame w w' -> length (heap w) <= length (heap w').
Proof. intros H. apply persists_length, persists_match_frame, H. Qed.

(** [check_self] on the node of a character. *)
Lemma check_self_atom_spec d ck c w :
  atom_at (heap w) ck ->
  spec (check_self d ck c) w (fun _ w' => w' = w) (d < 1).
Proof.
  intros (oc & Hc & Hp). destruct d as [| d]; [unfold spec; simpl; lia |].
  cbn [check_self].
  eapply spec_bind; [apply (spec_get_kind ck w oc), Hc |].
  intros k w' [-> ->].
  destruct (kind oc); try discriminate; apply spec_ret; reflexivity.
Qed.

Lemma spec_minimum_check a w o ck lp mc oof :
  heap w !! a = Some o -> kind o = PlusState ck lp mc ->
  spec (get_minimum_check a) w (fun _ w' => w' = w) oof.
Proof.
  intros Ho Hk. unfold get_minimum_check.
  eapply spec_bind; [apply (spec_get_kind a w o), Ho |].
  intros k w' [-> ->]. rewrite Hk. apply spec_ret. reflexivity.
Qed.

Lemma spec_set_minimum_check a w o ck lp mc oof :
  heap w !! a = Some o -> kind o = PlusState ck lp mc ->
  spec (set_minimum_check a true) w
    (fun _ w' =>
       heap w' !! a = Some (Obj (PlusState ck lp true) (is_end o) (next_states o)))
    oof.
Proof.
  intros Ho Hk. unfold spec, set_minimum_check.
  rewrite (bind_run_ret _ _ _ _ _ (get_obj_run w a o Ho)), Hk. simpl.
  apply list_lookup_insert_eq. eapply lookup_lt_Some, Ho.
Qed.

(** [check_self] returns on every object, from a depth of two on. *)
Lemma check_self_spec n d a c w :
  graded n (heap w) -> a < length (heap w) ->
  spec (check_self d a c) w (fun _ w' => match_frame w w') (d < 2).
Proof.
  intros Hg Ha.
  eapply spec_weaken;
    [apply (spec_always match_frame _ w (fun _ _ => True) (d < 2)
              (match_frame_check_self d a c))
    | intros b w' [_ H]; exact H | exact (fun H => H)].
  destruct d as [| d]; [unfold spec; simpl; lia |].
  destruct (lookup_lt_is_Some_2 _ _ Ha) as [o Ho].
  cbn [check_self].
  eapply spec_bind; [apply (spec_get_kind a w o), Ho |].
  intros k w' [-> ->].
  pose proof (proj2 Hg a o Ho) as Hn. unfold node_ok in Hn.
  destruct (kind o) as [| | | s | ck pv | ck lp mc] eqn:Ek;
    try (apply spec_ret; exact I).
  - destruct Hn as (_ & Hck & _).
    eapply spec_weaken; [apply check_self_atom_spec, Hck | trivial | lia].
  - destruct Hn as (_ & Hck).
    unfold PlusState_check_self.
    eapply spec_bind;
      [eapply spec_weaken;
         [apply check_self_atom_spec, Hck
         | intros b w' H; exact H | lia] |].
    intros b w' ->. simpl in *.
    destruct b.
    + eapply spec_bind; [apply (spec_set_minimum_check a w o ck lp mc _ Ho Ek) |].
      intros [] w1 Ho1.
      eapply spec_bind;
        [apply (spec_minimum_check a w1 _ ck lp true _ Ho1); reflexivity |].
      intros mc' w' _. apply spec_ret. exact I.
    + eapply spec_bind;
        [apply (spec_ret tt w (fun _ w' => w' = w)); reflexivity |].
      intros [] w1 ->.
      eapply spec_bind; [apply (spec_minimum_check a w o ck lp mc _ Ho Ek) |].
      intros mc' w' _. apply spec_ret. exact I.
Qed.

Lemma spec_new_TerminationState w oof :
  spec new_TerminationState w
    (fun r w' => match_frame w w' /\ r < length (heap w')) oof.
Proof.
  unfold spec. pose proof (match_frame_new_TerminationState w) as H.
  simpl in *. split; [exact H |]. rewrite length_app. simpl. lia.
Qed.

(** One call of [check_next] at depth [S d], over the calls at depth [d]
    it makes.  [w0] is the state at the call and [a] the object. *)
Section Visit.
Context (n d : nat) (c : char) (w0 : world) (a : addr) (o : obj).
Hypothesis IH : forall x w, graded n (heap w) -> x < length (heap w) ->
  spec (check_next d x c) w
    (fun r w' => match_frame w w' /\ r < length (heap w')) (d < n - x + 3).
Hypothesis Hg0 : graded n (heap w0).
Hypothesis Ho : heap w0 !! a = Some o.

Lemma visit_lt x w : match_frame w0 w -> x < length (heap w0) -> x < length (heap w).
Proof. intros Hm Hx. pose proof (match_frame_length _ _ Hm). lia. Qed.

Lemma visit_self x w :
  match_frame w0 w -> x < length (heap w0) ->
  spec (check_self d x c) w (fun _ w' => match_frame w0 w') (S d < n - a + 3).
Proof.
  intros Hm Hx.
  eapply spec_weaken;
    [apply (check_self_spec n d x c w);
       [eapply graded_match_frame; eassumption | apply visit_lt; assumption]
    | | lia].
  intros b w' H. eapply match_frame_trans; eassumption.
Qed.

Lemma visit_next x w :
  match_frame w0 w -> a < x < n ->
  spec (check_next d x c) w
    (fun r w' => match_frame w0 w' /\ r < length (heap w')) (S d < n - a + 3).
Proof.
  intros Hm Hx.
  pose proof (graded_match_frame n w0 w Hg0 Hm) as Hg.
  eapply spec_weaken; [apply (IH x w Hg); destruct Hg; lia | | lia].
  intros r w' [H Hr]. split; [eapply match_frame_trans; eassumption | exact Hr].
Qed.

Lemma visit_isinstance x w :
  match_frame w0 w -> x < length (heap w0) ->
  spec (isinstance_StarState x) w (fun _ w' => w' = w) (S d < n - a + 3).
Proof. intros Hm Hx. apply spec_isinstance_StarState, visit_lt; assumption. Qed.

Lemma visit_orelse w :
  match_frame w0 w ->
  spec new_TerminationState w
    (fun r w' => match_frame w0 w' /\ r < length (heap w')) (S d < n - a + 3).
Proof.
  intros Hm. eapply spec_weaken; [apply spec_new_TerminationState | | exact (fun H => H)].
  intros r w' [H Hr]. split; [eapply match_frame_trans; eassumption | exact Hr].
Qed.

Lemma visit_succ x : x ∈ next_states o -> x < length (heap w0).
Proof. apply (graded_succ n _ a o x Hg0 Ho). Qed.

Lemma visit_up x :
  edges_up n a o -> x ∈ next_states o -> a < x < n.
Proof. intros [_ Hf] Hx. rewrite Forall_forall in Hf. apply Hf, Hx. Qed.

Lemma visit_found x w :
  match_frame w0 w -> x < length (heap w0) ->
  match_frame w0 w /\ x < length (heap w).
Proof. intros Hm Hx. split; [exact Hm | apply visit_lt; assumption]. Qed.

(** The object is still there, with its successors. *)
Lemma visit_here w :
  match_frame w0 w ->
  exists o', heap w !! a = Some o' /\ kind_evolves (kind o) (kind o') /\
    next_states o' = next_states o.
Proof.
  intros [Hm _]. destruct (Hm a o Ho) as (o' & Ho' & Hk & _ & Hn).
  exists o'. split; [exact Ho' | split; assumption].
Qed.

Lemma StartState_check_next_spec :
  spec (StartState_check_next (check_self d) a c) w0
    (fun r w' => match_frame w0 w' /\ r < length (heap w')) (S d < n - a + 3).
Proof.
  unfold StartState_check_next.
  eapply spec_bind; [apply (spec_get_next_states a w0 o), Ho |].
  intros l w' [-> ->].
  apply (spec_for_return (match_frame w0));
    [| apply visit_orelse | apply match_frame_refl].
  intros x w Hx Hm. apply visit_succ in Hx.
  eapply spec_bind; [apply visit_self; assumption |].
  intros b w' Hm'. apply spec_ret.
  destruct b; [apply visit_found; assumption | exact Hm'].
Qed.

Lemma DotState_check_next_spec :
  edges_up n a o ->
  spec (DotState_check_next (check_self d) (check_next d) a c) w0
    (fun r w' => match_frame w0 w' /\ r < length (heap w')) (S d < n - a + 3).
Proof.
  intros He. unfold DotState_check_next.
  eapply spec_bind; [apply (spec_get_next_states a w0 o), Ho |].
  intros l w' [-> ->].
  apply (spec_for_return (match_frame w0));
    [| apply visit_orelse | apply match_frame_refl].
  intros x w Hx Hm. pose proof (visit_up x He Hx) as Hup.
  apply visit_succ in Hx.
  eapply spec_bind; [apply visit_self; assumption |].
  intros b w1 Hm1.
  destruct b; [apply spec_ret, visit_found; assumption |].
  eapply spec_bind; [apply visit_isinstance; assumption |].
  intros st w2 ->.
  destruct st; [| apply spec_ret; exact Hm1].
  eapply spec_bind; [apply visit_next; assumption |].
  intros r w2 H. apply spec_ret. exact H.
Qed.

Lemma AsciiState_check_next_spec :
  edges_up n a o ->
  spec (AsciiState_check_next (check_self d) (check_next d) a c) w0
    (fun r w' => match_frame w0 w' /\ r < length (heap w')) (S d < n - a + 3).
Proof.
  intros He. unfold AsciiState_check_next.
  eapply spec_bind; [apply (spec_get_next_states a w0 o), Ho |].
  intros l w' [-> ->].
  apply (spec_for_return (match_frame w0));
    [| apply visit_orelse | apply match_frame_refl].
  intros x w Hx Hm. pose proof (visit_up x He Hx) as Hup.
  apply visit_succ in Hx.
  eapply spec_bind; [apply visit_isinstance; assumption |].
  intros st w1 ->.
  destruct st.
  - eapply spec_bind; [apply visit_next; assumption |].
    intros r w2 H. apply spec_ret. exact H.
  - eapply spec_bind; [apply visit_self; assumption |].
    intros b w2 Hm2. apply spec_ret.
    destruct b; [apply visit_found; assumption | exact Hm2].
Qed.

Lemma StarState_check_next_spec ck :
  edges_up n a o -> atom_at (heap w0) ck ->
  spec (StarState_check_next (check_self d) (check_next d) ck a c) w0
    (fun r w' => match_frame w0 w' /\ r < length (heap w')) (S d < n - a + 3).
Proof.
  intros He Hck. unfold StarState_check_next.
  pose proof (lookup_lt_Some _ _ _ Ho) as Ha.
  eapply spec_bind;
    [apply (visit_self ck w0 (match_frame_refl w0)), not_sink_lt, atom_not_sink, Hck |].
  intros b w1 Hm1.
  destruct b; [apply spec_ret, visit_found; assumption |].
  destruct (visit_here w1 Hm1) as (o1 & Ho1 & _ & Hn1).
  eapply spec_bind; [apply (spec_get_next_states a w1 o1), Ho1 |].
  intros l w' [-> ->]. rewrite Hn1.
  apply (spec_for_return (match_frame w0)); [| apply visit_orelse | exact Hm1].
  intros x w Hx Hm. pose proof (visit_up x He Hx) as Hup.
  apply visit_succ in Hx.
  eapply spec_bind; [apply visit_isinstance; assumption |].
  intros st w2 ->.
  destruct st; [apply spec_ret; exact Hm |].
  eapply spec_bind; [apply visit_next; assumption |].
  intros r w2 [Hm2 _]. apply spec_ret. simpl.
  apply visit_found; assumption.
Qed.

Lemma PlusState_check_next_spec ck lp mc :
  kind o = PlusState ck lp mc ->
  edges_up n a o -> atom_at (heap w0) ck ->
  spec (PlusState_check_next (check_self d) (check_next d) ck a c) w0
    (fun r w' => match_frame w0 w' /\ r < length (heap w')) (S d < n - a + 3).
Proof.
  intros Hk He Hck. unfold PlusState_check_next.
  pose proof (lookup_lt_Some _ _ _ Ho) as Ha.
  eapply spec_bind;
    [apply (visit_self ck w0 (match_frame_refl w0)), not_sink_lt, atom_not_sink, Hck |].
  intros b w1 Hm1.
  destruct b; [apply spec_ret, visit_found; assumption |].
  destruct (visit_here w1 Hm1) as (o1 & Ho1 & Hk1 & Hn1).
  assert (Hp1 : exists mc1, kind o1 = PlusState ck lp mc1).
  { rewrite Hk in Hk1. destruct Hk1 as [-> | (ck' & lp' & E & ->)];
      [eexists; reflexivity |].
    injection E as -> -> _. eexists; reflexivity. }
  destruct Hp1 as [mc1 Hp1].
  eapply spec_bind; [apply (spec_minimum_check a w1 o1 ck lp mc1 _ Ho1 Hp1) |].
  intros flag w2 ->.
  destruct flag; [| apply visit_orelse; exact Hm1].
  eapply spec_bind; [apply (spec_get_next_states a w1 o1), Ho1 |].
  intros l w' [-> ->]. rewrite Hn1.
  apply (spec_for_return (match_frame w0)); [| apply visit_orelse | exact Hm1].
  intros x w Hx Hm. pose proof (visit_up x He Hx) as Hup.
  apply visit_succ in Hx.
  eapply spec_bind; [apply visit_isinstance; assumption |].
  intros st w2 ->.
  destruct st.
  - eapply spec_bind; [apply visit_next; assumption |].
    intros r w2 H. apply spec_ret. exact H.
  - eapply spec_bind; [apply visit_next; assumption |].
    intros r w2 [Hm2 _]. apply spec_ret. simpl.
    apply visit_found; assumption.
Qed.

End Visit.

(** [check_next] returns an object of the heap, from a depth that the
    number of objects bounds. *)
Lemma check_next_spec n d : forall a c w,
  graded n (heap w) -> a < length (heap w) ->
  spec (check_next d a c) w
    (fun r w' => match_frame w w' /\ r < length (heap w')) (d < n - a + 3).
Proof.
  induction d as [| d IH]; intros a c w Hg Ha; [unfold spec; simpl; lia |].
  destruct (lookup_lt_is_Some_2 _ _ Ha) as [o Ho].
  cbn [check_next].
  eapply spec_bind; [apply (spec_get_kind a w o), Ho |].
  intros k w' [-> ->].
  pose proof (proj2 Hg a o Ho) as Hn. unfold node_ok in Hn.
  destruct (kind o) as [| | | s | ck pv | ck lp mc] eqn:Ek.
  - apply (StartState_check_next_spec n d c w a o Hg Ho).
  - apply (StartState_check_next_spec n d c w a o Hg Ho).
  - apply (DotState_check_next_spec n d c w a o (fun x => IH x c) Hg Ho Hn).
  - apply (AsciiState_check_next_spec n d c w a o (fun x => IH x c) Hg Ho Hn).
  - destruct Hn as (He & Hck & _).
    apply (StarState_check_next_spec n d c w a o (fun x => IH x c) Hg Ho ck He Hck).
  - destruct Hn as (He & Hck).
    apply (PlusState_check_next_spec n d c w a o (fun x => IH x c) Hg Ho
             ck lp mc Ek He Hck).
Qed.

(** ** Patterns without a quantified [.] *)

Lemma no_wildcard_calm w : no_wildcard w = true -> calm (heap w).
Proof.
  unfold no_wildcard. intros H a o Ho.
  rewrite forallb_forall in H.
  apply list_elem_of_lookup_2, list_elem_of_In in Ho.
  specialize (H o Ho). destruct (quantifies_dot (heap w) o); [discriminate | reflexivity].
Qed.

Lemma is_DotState_evolves k k' :
  kind_evolves k k' -> is_DotState k' = is_DotState k.
Proof. intros [-> | (ck & lp & -> & ->)]; reflexivity. Qed.

Lemma calm_match_frame w w' : calm (heap w) -> match_frame w w' -> calm (heap w').
Proof.
  intros Hc [Hold Hnew] a o' Ho'.
  assert (Hck : forall ck,
            match heap w !! ck with
            | Some oc => is_DotState (kind oc)
            | None => false
            end = false ->
            match heap w' !! ck with
            | Some oc => is_DotState (kind oc)
            | None => false
            end = false).
  { intros ck H. destruct (heap w !! ck) as [oc |] eqn:Ec.
    - destruct (Hold ck oc Ec) as (oc' & Ec' & Hk & _). rewrite Ec'.
      rewrite (is_DotState_evolves _ _ Hk). exact H.
    - destruct (heap w' !! ck) as [oc' |] eqn:Ec'; [| reflexivity].
      apply lookup_ge_None in Ec. rewrite (Hnew ck oc' Ec' Ec). reflexivity. }
  destruct (heap w !! a) as [o |] eqn:Ho.
  - destruct (Hold a o Ho) as (o2 & Ho2 & Hk & _).
    rewrite Ho' in Ho2. injection Ho2 as <-.
    specialize (Hc a o Ho). unfold quantifies_dot in *.
    destruct Hk as [-> | (ck & lp & E & ->)].
    + destruct (kind o); try reflexivity; apply Hck, Hc.
    + rewrite E in Hc. apply Hck, Hc.
  - apply lookup_ge_None in Ho. rewrite (Hnew a o' Ho' Ho). reflexivity.
Qed.

Lemma on_wildcard_loop_calm n w curr :
  graded n (heap w) -> calm (heap w) -> curr < length (heap w) ->
  RegexFSM.on_wildcard_loop curr w = (Ret false, w).
Proof.
  intros Hg Hc Hlt. destruct (lookup_lt_is_Some_2 _ _ Hlt) as [o Ho].
  unfold RegexFSM.on_wildcard_loop.
  rewrite (bind_run_ret _ _ _ _ _ (get_kind_run w curr o Ho)).
  pose proof (proj2 Hg curr o Ho) as Hn. unfold node_ok in Hn.
  specialize (Hc curr o Ho). unfold quantifies_dot in Hc.
  destruct (kind o) as [| | | s | ck pv | ck lp mc]; try reflexivity.
  - destruct Hn as (_ & (oc & Hoc & _) & _). rewrite Hoc in Hc.
    rewrite (bind_run_ret _ _ _ _ _ (get_kind_run w ck oc Hoc)), Hc. reflexivity.
  - destruct Hn as (_ & (oc & Hoc & _)). rewrite Hoc in Hc.
    rewrite (bind_run_ret _ _ _ _ _ (get_kind_run w ck oc Hoc)), Hc. reflexivity.
Qed.

(** ** The cursors *)

Lemma steady_refl w : steady w w.
Proof. split; [apply match_frame_refl | reflexivity]. Qed.

Lemma steady_trans w1 w2 w3 : steady w1 w2 -> steady w2 w3 -> steady w1 w3.
Proof.
  intros [H12 F12] [H23 F23].
  split; [eapply match_frame_trans; eassumption | congruence].
Qed.

Lemma steady_new_TerminationState : always steady new_TerminationState.
Proof. intros w. split; [apply match_frame_new_TerminationState | reflexivity]. Qed.

Lemma steady_set_minimum_check a : always steady (set_minimum_check a true).
Proof.
  intros w. split; [apply match_frame_set_minimum_check |].
  unfold set_minimum_check, bind, get_obj.
  destruct (heap w !! a) as [o |]; [destruct (kind o) |]; reflexivity.
Qed.

Lemma steady_check_next d a c : always steady (check_next d a c).
Proof.
  apply (always_check_next steady steady_refl steady_trans
           steady_new_TerminationState steady_set_minimum_check).
Qed.

Lemma stable_steady n w w' : stable n w -> steady w w' -> stable n w'.
Proof.
  intros (Hg & Hc & Hs) [Hm Hf].
  split; [eapply graded_match_frame; eassumption |].
  split; [| eapply start_ok_match_frame; eassumption].
  intros p a Hp. rewrite Hf in Hp. specialize (Hc p a Hp).
  pose proof (match_frame_length _ _ Hm). lia.
Qed.

Lemma stable_set_curr_state n self r w :
  stable n w -> r < length (heap w) -> stable n (snd (set_curr_state self r w)).
Proof.
  intros (Hg & Hc & Hs) Hr. simpl. split; [exact Hg |]. split; [| exact Hs].
  intros p a Hp. simpl in *.
  apply list_lookup_insert_Some in Hp as [(-> & E & _) | (_ & Hp)].
  - congruence.
  - eapply Hc, Hp.
Qed.

Lemma stable_bind {A B} n (m : M A) (f : A -> M B) w :
  stable n w -> always steady m ->
  (forall a w1, stable n w1 -> m w = (Ret a, w1) -> stable n (snd (f a w1))) ->
  stable n (snd (bind m f w)).
Proof.
  intros Hs Hm Hf. specialize (Hm w).
  pose proof (stable_steady n w _ Hs Hm) as H1.
  unfold bind. destruct (m w) as [[a | e | |] w1] eqn:E; simpl in *;
    try exact H1.
  apply Hf; [exact H1 | reflexivity].
Qed.

Lemma steady_get_curr_state self : always steady (get_curr_state self).
Proof. apply (always_get_curr_state steady steady_refl). Qed.

Lemma steady_get_next_states a : always steady (get_next_states a).
Proof.
  apply (always_same steady steady_refl). intros w.
  unfold get_next_states, bind, get_obj. destruct (heap w !! a); reflexivity.
Qed.

Lemma steady_get_curr_sym a : always steady (get_curr_sym a).
Proof.
  apply (always_same steady steady_refl). intros w.
  unfold get_curr_sym, get_kind, bind, get_obj.
  destruct (heap w !! a) as [o |]; [simpl; destruct (kind o) |]; reflexivity.
Qed.

Lemma steady_get_is_end a : always steady (get_is_end a).
Proof.
  apply (always_same steady steady_refl). intros w.
  unfold get_is_end, bind, get_obj.
  destruct (heap w !! a) as [o |]; [destruct (is_end o) |]; reflexivity.
Qed.

Lemma steady_on_wildcard_loop a : always steady (RegexFSM.on_wildcard_loop a).
Proof.
  apply (always_same steady steady_refl). intros w.
  unfold RegexFSM.on_wildcard_loop, get_kind, bind, get_obj.
  destruct (heap w !! a) as [o |]; [simpl | reflexivity].
  destruct (kind o) as [| | | s | ck pv | ck lp mc]; try reflexivity;
    destruct (heap w !! ck); reflexivity.
Qed.

Lemma steady_while_true fuel a e : always steady (RegexFSM.while_true fuel a e).
Proof. apply (always_while_true steady steady_refl steady_trans). Qed.

Lemma stable_cursor n self w a w1 :
  stable n w1 -> get_curr_state self w = (Ret a, w1) -> a < length (heap w1).
Proof.
  intros (_ & Hc & Hs) E. destruct (get_curr_state_inv _ _ _ _ E) as [-> _].
  eapply cursors_ok_start; eassumption.
Qed.

Lemma stable_successor n a w l w1 x :
  stable n w1 -> get_next_states a w = (Ret l, w1) -> x ∈ l ->
  x < length (heap w1).
Proof.
  intros (Hg & _) E Hx. unfold get_next_states, bind, get_obj in E.
  destruct (heap w !! a) as [o |] eqn:Ho; [| discriminate].
  injection E as <- <-. eapply graded_succ; eassumption.
Qed.

(** A turn of the loop of [check_string], however it ends. *)
Lemma stable_step n fuel self c suffix w :
  stable n w -> stable n (snd (RegexFSM.step fuel self c suffix w)).
Proof.
  intros Hs. unfold RegexFSM.step.
  apply stable_bind; [exact Hs | apply steady_get_curr_state |].
  intros curr w1 Hs1 E1.
  apply stable_bind; [exact Hs1 | apply steady_on_wildcard_loop |].
  intros wl w2 Hs2 _. destruct wl.
  - apply stable_bind; [exact Hs2 | apply steady_get_next_states |].
    intros nx w3 Hs3 _. destruct nx as [| cur_next nx]; [exact Hs3 |].
    apply stable_bind; [exact Hs3 | apply steady_get_curr_sym |].
    intros s w4 Hs4 _.
    apply stable_bind; [exact Hs4 | apply steady_while_true |].
    intros exit_phrase w5 Hs5 _.
    destruct (str_eqb _ exit_phrase); [| exact Hs5].
    apply stable_bind; [exact Hs5 | apply steady_get_curr_state |].
    intros curr' w6 Hs6 _.
    apply stable_bind; [exact Hs6 | apply steady_get_next_states |].
    intros nx' w7 Hs7 E7. destruct nx' as [| n0 nx']; [exact Hs7 |].
    apply stable_set_curr_state; [exact Hs7 |].
    eapply stable_successor; [exact Hs7 | exact E7 | left].
  - apply stable_bind; [exact Hs2 | apply steady_get_curr_state |].
    intros curr' w3 Hs3 E3.
    apply stable_bind; [exact Hs3 | apply steady_check_next |].
    intros r w4 Hs4 E4.
    apply stable_set_curr_state; [exact Hs4 |].
    pose proof (check_next_spec n fuel curr' c w3 (proj1 Hs3)
                  (stable_cursor n self _ _ _ Hs3 E3)) as H.
    unfold spec in H. rewrite E4 in H. apply H.
Qed.

Lemma stable_run n fuel self reg_string : forall w,
  stable n w -> stable n (snd (RegexFSM.run fuel self reg_string w)).
Proof.
  induction reg_string as [| c s IH]; intros w Hs; cbn [RegexFSM.run];
    [exact Hs |].
  pose proof (stable_step n fuel self c (c :: s) w Hs) as H1.
  unfold bind. destruct (RegexFSM.step fuel self c (c :: s) w) as [[[] | e | |] w1];
    simpl in *; try exact H1.
  apply IH, H1.
Qed.

Lemma match_frame_run fuel self reg_string w :
  match_frame w (snd (RegexFSM.run fuel self reg_string w)).
Proof.
  apply (always_run match_frame match_frame_refl match_frame_trans
           match_frame_new_TerminationState match_frame_set_minimum_check
           self (match_frame_set_curr_state self)).
Qed.

Lemma stable_check_string n fuel self reg_string w :
  stable n w -> stable n (snd (RegexFSM.check_string fuel self reg_string w)).
Proof.
  intros Hs. unfold RegexFSM.check_string.
  apply stable_bind; [exact Hs | apply steady_get_curr_state |].
  intros start_state_ref w1 Hs1 E1.
  pose proof (stable_cursor n self _ _ _ Hs1 E1) as Hlt.
  pose proof (stable_run n fuel self reg_string w1 Hs1) as H2.
  pose proof (match_frame_length _ _ (match_frame_run fuel self reg_string w1)) as Hl2.
  unfold bind at 1.
  destruct (RegexFSM.run fuel self reg_string w1) as [[[] | e | |] w2];
    simpl in *; try exact H2.
  apply stable_bind; [exact H2 | apply steady_get_curr_state |].
  intros curr w3 Hs3 E3. destruct (get_curr_state_inv _ _ _ _ E3) as [-> _].
  apply stable_bind; [exact Hs3 | apply steady_get_is_end |].
  intros result w4 Hs4 E4.
  assert (snd (get_is_end curr w2) = w2) as Hw.
  { unfold get_is_end, bind, get_obj.
    destruct (heap w2 !! curr) as [o |]; [destruct (is_end o) |]; reflexivity. }
  rewrite E4 in Hw. simpl in Hw. subst w4.
  unfold bind. simpl.
  apply (stable_set_curr_state n self start_state_ref w2 Hs4). lia.
Qed.

Lemma stable_sound n w : stable n w -> sound w.
Proof.
  intros (Hg & Hc & _). split; [| exact Hc].
  eapply graded_le; [exact Hg |]. destruct Hg. lia.
Qed.

Lemma reachable_sound w : reachable w -> sound w.
Proof.
  induction 1 as [| regex_expr w Hr IH | fuel self c suffix w Hr IH
                 | fuel self reg_string w Hr IH].
  - split; [apply graded_initial | intros p a Hp; destruct p; discriminate].
  - apply new_sound; [exact IH | apply reachable_start_ok, Hr].
  - apply (stable_sound (length (heap w))), stable_step.
    split; [apply IH |]. split; [apply IH | apply reachable_start_ok, Hr].
  - apply (stable_sound (length (heap w))), stable_check_string.
    split; [apply IH |]. split; [apply IH | apply reachable_start_ok, Hr].
Qed.

(** ** Matching returns *)

Lemma get_curr_state_valid self w :
  self < length (fsms w) -> exists a, get_curr_state self w = (Ret a, w).
Proof.
  intros H. destruct (lookup_lt_is_Some_2 _ _ H) as [x Hx].
  unfold get_curr_state. rewrite Hx. destruct x; eexists; reflexivity.
Qed.

(** With no quantified [.] in the heap and fuel for the longest chain of
    calls, a turn of the loop returns. *)
Lemma step_returns n fuel self c suffix w :
  stable n w -> calm (heap w) -> self < length (fsms w) -> n + 3 <= fuel ->
  exists w', RegexFSM.step fuel self c suffix w = (Ret tt, w') /\
    match_frame w w' /\ length (fsms w') = length (fsms w).
Proof.
  intros Hs Hc Hself Hf. destruct (get_curr_state_valid self w Hself) as [curr E].
  pose proof (stable_cursor n self w curr w Hs E) as Hlt.
  unfold RegexFSM.step.
  rewrite (bind_run_ret _ _ _ _ _ E).
  rewrite (bind_run_ret _ _ _ _ _
             (on_wildcard_loop_calm n w curr (proj1 Hs) Hc Hlt)).
  rewrite (bind_run_ret _ _ _ _ _ E).
  pose proof (check_next_spec n fuel curr c w (proj1 Hs) Hlt) as H.
  unfold spec in H.
  destruct (check_next fuel curr c w) as [[r | e | |] w1] eqn:E1;
    try contradiction; [| lia].
  rewrite (bind_run_ret _ _ _ _ _ E1).
  eexists. split; [reflexivity |]. simpl.
  split; [eapply match_frame_trans;
            [apply H | apply match_frame_same_heap; reflexivity] |].
  rewrite length_insert.
  pose proof (steady_check_next fuel curr c w) as [_ Hfs].
  rewrite E1 in Hfs. simpl in Hfs. rewrite Hfs. reflexivity.
Qed.

Lemma run_returns n fuel self reg_string : forall w,
  stable n w -> calm (heap w) -> self < length (fsms w) -> n + 3 <= fuel ->
  exists w', RegexFSM.run fuel self reg_string w = (Ret tt, w') /\
    stable n w' /\ length (fsms w') = length (fsms w).
Proof.
  induction reg_string as [| c s IH]; intros w Hs Hc Hself Hf;
    cbn [RegexFSM.run].
  { exists w. split; [reflexivity |]. split; [exact Hs | reflexivity]. }
  destruct (step_returns n fuel self c (c :: s) w Hs Hc Hself Hf)
    as (w1 & E1 & Hm1 & Hl1).
  rewrite (bind_run_ret _ _ _ _ _ E1).
  pose proof (stable_step n fuel self c (c :: s) w Hs) as Hs1.
  rewrite E1 in Hs1. simpl in Hs1.
  destruct (IH w1 Hs1 (calm_match_frame _ _ Hc Hm1)) as (w2 & E2 & Hs2 & Hl2);
    [lia | exact Hf |].
  exists w2. split; [exact E2 |]. split; [exact Hs2 | lia].
Qed.

Lemma check_string_returns n fuel self reg_string w :
  stable n w -> calm (heap w) -> self < length (fsms w) -> n + 3 <= fuel ->
  (exists b, result_of (RegexFSM.check_string fuel self reg_string) w = Ret b) \/
  result_of (RegexFSM.check_string fuel self reg_string) w
  = Raise (AttributeError "is_end").
Proof.
  intros Hs Hc Hself Hf. unfold result_of, RegexFSM.check_string.
  destruct (get_curr_state_valid self w Hself) as [start_state_ref E].
  rewrite (bind_run_ret _ _ _ _ _ E).
  destruct (run_returns n fuel self reg_string w Hs Hc Hself Hf)
    as (w1 & E1 & Hs1 & Hl1).
  rewrite (bind_run_ret _ _ _ _ _ E1).
  destruct (get_curr_state_valid self w1) as [curr E2]; [lia |].
  rewrite (bind_run_ret _ _ _ _ _ E2).
  pose proof (stable_cursor n self w1 curr w1 Hs1 E2) as Hlt.
  destruct (lookup_lt_is_Some_2 _ _ Hlt) as [o Ho].
  unfold get_is_end.
  rewrite bind_assoc, (bind_run_ret _ _ _ _ _ (get_obj_run w1 curr o Ho)).
  destruct (is_end o) as [b |]; [left; exists b |right]; reflexivity.
Qed.

(** X7: in a process that has compiled no pattern with a quantified [.],
    [check_string] on any instance and any string ends: it returns a
    boolean or raises the [AttributeError] of a missing [is_end], and it
    does neither run on for ever nor raise an [IndexError].  Fuel for as
    many nested calls as the heap has objects, and three more, is
    enough. *)
Theorem check_string_ends n w self reg_string :
  reachable w -> no_wildcard w = true -> self < length (fsms w) ->
  (exists b,
     result_of
       (RegexFSM.check_string (n + length (heap w) + 3) self reg_string) w
     = Ret b) \/
  result_of (RegexFSM.check_string (n + length (heap w) + 3) self reg_string) w
  = Raise (AttributeError "is_end").
Proof.
  intros Hr Hn Hself.
  apply (check_string_returns (length (heap w))); [| | exact Hself | lia].
  - destruct (reachable_sound w Hr) as [Hg Hc].
    split; [exact Hg |]. split; [exact Hc | apply reachable_start_ok, Hr].
  - apply no_wildcard_calm, Hn.
Qed.

Lemma check_string_ends_witness :
  (exists b,
     result_of
       (RegexFSM.check_string
          (0 + length (heap (world_after (RegexFSM.new (str "a*b+")) initial)) + 3)
          0 (str "aab"))
       (world_after (RegexFSM.new (str "a*b+")) initial) = Ret b) \/
  result_of
    (RegexFSM.check_string
       (0 + length (heap (world_after (RegexFSM.new (str "a*b+")) initial)) + 3)
       0 (str "aab"))
    (world_after (RegexFSM.new (str "a*b+")) initial)
  = Raise (AttributeError "is_end").
Proof.
  apply (check_string_ends 0 (world_after (RegexFSM.new (str "a*b+")) initial)
           0 (str "aab")).
  - apply reachable_new, reachable_initial.
  - vm_compute. reflexivity.
  - vm_compute. lia.
Defined.

(** X8: in every state of a process the graph has no cycle but the
    self-loop of a [TerminationState]: the successors of any other object
    were made after it; the [checking_state] of a [StarState] or
    [PlusState] is the node of a character; and the cursor of every
    instance is on an object of the heap. *)
Theorem process_graph_is_sound w : reachable w -> sound w.
Proof. exact (reachable_sound w). Qed.

Lemma process_graph_is_sound_witness :
  sound (world_after (RegexFSM.check_string 7 0 (str "ab"))
           (world_after (RegexFSM.new (str "a*b+")) initial)).
Proof.
  apply process_graph_is_sound.
  apply reachable_check_string, reachable_new, reachable_initial.
Defined.
